(** * rsync_backup: task system, tree sync, recursive remove, stage rotation

    A shallow embedding of [rsync_backup.py].  The Python classes become
    modules of the same names ([TaskSystem], [FileSystem], [StageManager]);
    dictionaries become [gmap]s, exceptions a [result] type, and the file
    tree a nested finite map from names to nodes. *)

From stdpp Require Import gmap strings list fin_maps pretty.
From Stdlib Require Import ZArith Lia Ascii.

#[local] Set Warnings "-register-all".
#[local] Open Scope string_scope.
#[local] Open Scope list_scope.
#[local] Open Scope Z_scope.

(** ** Python exceptions and fallible code *)

(** The exceptions the modelled code can meet. *)
Inductive exn :=
| ZeroDivisionError
| IndexError
| FileExistsError      (* os.makedirs, os.link, os.symlink on a taken name *)
| FileNotFoundError
| NotADirectoryError   (* os.scandir of something that is no directory *)
| DirectoryNotEmpty    (* OSError(ENOTEMPTY) of os.rmdir and os.rename *)
| SpecialFileError     (* shutil.copyfile onto a named pipe and the like *)
| RecursionError.      (* a traversal that re-enters its own arguments *)

Inductive result (A : Type) :=
| Ok (a : A)
| Raise (e : exn).
Arguments Ok {A} a.
Arguments Raise {A} e.

#[global] Instance result_ret : MRet result := @Ok.
#[global] Instance result_bind : MBind result := λ A B f m,
  match m with Ok a => f a | Raise e => Raise e end.

#[global] Instance exn_eq_dec : EqDecision exn.
Proof. solve_decision. Defined.

(** [str(n)] of a Python int. *)
Definition str (n : Z) : string := pretty n.

(** [int(a / b)]: true division, then truncation toward zero.  The quotient
    of two ints is a float; it is the exact truncated quotient as long as
    [|a| + |b| < 2^53], far beyond any clock value in seconds, and the model
    takes the exact one.  Division by zero raises. *)
Definition int_truediv (a b : Z) : result Z :=
  if decide (b = 0) then Raise ZeroDivisionError else Ok (a ÷ b).

(** [range(n)]. *)
Definition range (n : Z) : list Z := Z.of_nat <$> seq 0 (Z.to_nat n).

(** ** TaskSystem *)

Module TaskSystem.

(** What the other threads decide while one thread is inside [add] or
    [add_or_run]: the value of the shutdown flag at the check on entry and
    at each probe of [__try_add] (probe [0] is the first), and whether the
    non-blocking [acquire] of a probe gets the lock. *)
Record env := mkEnv {
  shutdown_at_entry : bool;
  shutdown_seen : nat → bool;
  lock_free : nat → bool
}.

(** How a call to [add] or [add_or_run] ended for its task. *)
Inductive outcome :=
| Enqueued      (* appended to a queue *)
| RunByCaller   (* the function of the task, run by the calling thread *)
| Dropped.      (* neither *)

Section Queues.
Context {Task : Type}.

(** The fields of the task system the two methods read and write: the
    round-robin counter and the task list of each queue. *)
Record state := mkState {
  current_idx : nat;
  qs : list (list Task)
}.

(** The settings [__init__] keeps. *)
Record settings := mkSettings {
  num_workers : nat;
  num_retries : nat;
  queue_limit : nat
}.

Definition init (max_workers max_retries queue_limit : Z) : settings * state :=
  let w := Z.to_nat (Z.max 1 max_workers) in
  (mkSettings w (Z.to_nat (Z.max 0 max_retries)) (Z.to_nat (Z.max 1 queue_limit)),
   mkState 0 (replicate w [])).

Variable e : env.
Variable cfg : settings.

(** [q.tasks.append(t)] on queue [i]. *)
Definition append (i : nat) (t : Task) (queues : list (list Task))
    : list (list Task) :=
  alter (λ q, q ++ [t]) i queues.

(** The loop of [__try_add] over the queue indices still to probe, [k]
    counting the probes made so far. *)
Fixpoint try_add_loop (probes : list nat) (k : nat) (t : Task)
    (honor_limit : bool) (queues : list (list Task)) : bool * list (list Task) :=
  match probes with
  | [] => (false, queues)
  | i :: probes' =>
      if shutdown_seen e k then (false, queues)
      else if lock_free e k
              && (negb honor_limit
                  || bool_decide (length (queues !!! i) < queue_limit cfg)%nat)
      then (true, append i t queues)
      else try_add_loop probes' (S k) t honor_limit queues
  end.

Definition try_add (idx : nat) (t : Task) (honor_limit : bool)
    (queues : list (list Task)) : bool * list (list Task) :=
  let n := (num_workers cfg * (1 + num_retries cfg))%nat in
  try_add_loop ((λ i, i mod num_workers cfg)%nat <$> seq idx n) 0 t honor_limit queues.

(** [add]: the forced append waits for the lock of the queue first picked. *)
Definition add (t : Task) (s : state) : state * outcome :=
  let idx := current_idx s in
  if shutdown_at_entry e then (mkState (S idx) (qs s), Dropped)
  else
    let '(added, queues) := try_add idx t false (qs s) in
    if added then (mkState (S idx) queues, Enqueued)
    else (mkState (S idx) (append (idx mod num_workers cfg) t (qs s)), Enqueued).

Definition add_or_run (t : Task) (s : state) : state * outcome :=
  let idx := current_idx s in
  if shutdown_at_entry e then (mkState (S idx) (qs s), Dropped)
  else
    let '(added, queues) := try_add idx t true (qs s) in
    if added then (mkState (S idx) queues, Enqueued)
    else (mkState (S idx) (qs s), RunByCaller).

End Queues.
Arguments state Task : clear implicits.

End TaskSystem.

(** ** FileSystem *)

Module FileSystem.

(** *** File trees *)

(** The types of the nodes that are no directories. *)
Inductive ftype := Regular | Symlink | Fifo | Socket | CharDevice | BlockDevice.

(** A node: a directory with its entries by name, or something else.
    [perm] holds the twelve low bits of [st_mode] (what [stat.S_IMODE]
    gives), [mtime] is in nanoseconds, and [data] is the content of a
    regular file or the target of a symbolic link. *)
Inductive node :=
| File (kind : ftype) (perm : Z) (mtime : Z) (data : string)
| Dir (perm : Z) (mtime : Z) (entries : gmap string node).

(** What a path names: a node, or nothing. *)
Definition child (o : option node) (name : string) : option node :=
  match o with
  | Some (Dir _ _ entries) => entries !! name
  | _ => None
  end.

Definition entries_of (o : option node) : gmap string node :=
  match o with
  | Some (Dir _ _ entries) => entries
  | _ => ∅
  end.

(** [exists], [is_dir], [is_file] and [is_special].  A symbolic link is a
    file, also when it points to a directory or to nothing. *)
Definition node_exists (o : option node) : bool := bool_decide (is_Some o).

Definition is_dir (o : option node) : bool :=
  match o with Some (Dir _ _ _) => true | _ => false end.

Definition is_file (o : option node) : bool :=
  match o with
  | Some (File Regular _ _ _) | Some (File Symlink _ _ _) => true
  | _ => false
  end.

Definition is_special (o : option node) : bool :=
  node_exists o && negb (is_dir o) && negb (is_file o).

(** *** [os.stat] *)

Record stat_result := mkStat { st_mode : Z; st_mtime_ns : Z }.

(** The file type bits of [st_mode], shifted down by twelve. *)
Definition ifmt (n : node) : Z :=
  match n with
  | Dir _ _ _ => 4
  | File Fifo _ _ _ => 1
  | File CharDevice _ _ _ => 2
  | File BlockDevice _ _ _ => 6
  | File Regular _ _ _ => 8
  | File Symlink _ _ _ => 10
  | File Socket _ _ _ => 12
  end.

Definition perm_of (n : node) : Z :=
  match n with File _ p _ _ | Dir p _ _ => p end.

Definition mtime_of (n : node) : Z :=
  match n with File _ _ m _ | Dir _ m _ => m end.

Definition node_stat (n : node) : stat_result :=
  mkStat (Z.lor (Z.shiftl (ifmt n) 12) (Z.land (perm_of n) 4095)) (mtime_of n).

(** [oct(st_mode)[:-3]]: the octal digits before the last three.  A mode
    has its type bits set, so it has more than three octal digits, and two
    of these prefixes are the same string when the modes agree above their
    nine low bits. *)
Definition same_types (a b : stat_result) : bool :=
  bool_decide (Z.shiftr (st_mode a) 9 = Z.shiftr (st_mode b) 9).

(** [oct(st_mode)[-3:]]: the nine permission bits. *)
Definition same_permissions (a b : stat_result) : bool :=
  bool_decide (Z.land (st_mode a) 511 = Z.land (st_mode b) 511).

(** [int(st.st_mtime)]: whole seconds, truncated toward zero. *)
Definition int_mtime (a : stat_result) : Z := st_mtime_ns a ÷ 1000000000.

(** *** Removing and copying one node

    These act on what one name of a directory holds and give what it holds
    afterwards. *)

Definition remove_file (o : option node) : option node :=
  if is_file o then None else o.

(** [shutil.rmtree] takes a directory away with all that is in it. *)
Definition remove_node (o : option node) : option node :=
  remove_file (if is_dir o then None else o).

(** [copy_file]: [os.link], or [shutil.copy2] without following links.  The
    platform is not Windows.  The source is a regular file or a symbolic
    link.  A target that [remove_node] left in place is a special node:
    [os.link] and [os.symlink] raise on a taken name, [shutil.copyfile]
    refuses a named pipe, and the model lets every such copy raise. *)
Definition copy_file (link : bool) (src tgt : option node) : result (option node) :=
  match remove_node tgt with
  | Some _ => Raise (if link then FileExistsError else SpecialFileError)
  | None =>
      match src with
      | None => Raise FileNotFoundError
      | Some s => if is_file src then Ok (Some s) else Raise SpecialFileError
      end
  end.

(** [copy_stat]: permission bits and times of the source on the target. *)
Definition copy_stat (src tgt : option node) : result (option node) :=
  match src, tgt with
  | Some s, Some (File k _ _ d) => Ok (Some (File k (perm_of s) (mtime_of s) d))
  | Some s, Some (Dir _ _ es) => Ok (Some (Dir (perm_of s) (mtime_of s) es))
  | _, _ => Raise FileNotFoundError
  end.

(** *** Changes *)

Inductive ChangeType := NoChange | RemoveNode | CreateNode | UpdateNode | UpdateStat.

#[global] Instance ChangeType_eq_dec : EqDecision ChangeType.
Proof. solve_decision. Defined.

(** [FileChanges]: a change and, for a directory, the changes below it. *)
Inductive changes :=
| Changes (entries : gmap string (ChangeType * option changes)).

Definition change_entries (ch : changes) : gmap string (ChangeType * option changes) :=
  match ch with Changes m => m end.

(** Paths relative to the source path, as lists of names. *)
Definition path := list string.

Section Sync.
(** The permission bits and the time a directory made by [os.makedirs]
    starts with. *)
Variable umask_perm : Z.
Variable clock : Z.

(** [os.makedirs(p, exist_ok=True)] where the parent exists. *)
Definition makedirs (tgt : option node) : result (option node) :=
  match tgt with
  | None => Ok (Some (Dir umask_perm clock ∅))
  | Some (Dir _ _ _) => Ok tgt
  | Some _ => Raise FileExistsError
  end.

(** *** Recording changes *)

Variable exclude_paths : list path.

Definition excluded (rel : path) : bool := bool_decide (rel ∈ exclude_paths).

(** The characters of a name, each as a name of its own: what
    [nodes.update(tgt_path.name)] adds to the set of nodes. *)
Fixpoint chars (s : string) : list string :=
  match s with
  | EmptyString => []
  | String c s' => String c EmptyString :: chars s'
  end.

(** The loop of [record_changes.recursive] over [nodes_to_sync(src_path,
    tgt_path)], for a source path that is a directory with entries
    [src_entries]; [entry] is the body of the loop for a node the source
    has.  The set of nodes is walked in three parts: the names the source
    lists, the names only the target lists, and, when the target is a file,
    the characters of its name.  Such a character names nothing in the
    target; [src_path / "."] is [src_path] itself, so for a dot the loop
    body finds a directory facing a file and descends into the pair it is
    working on, without end. *)
Definition record_loop
    (entry : path → string → node → option node
             → result (option (ChangeType * option changes)))
    (rel : path) (src_entries : gmap string node)
    (tgt_name : string) (tgt : option node) : result changes :=
  let from_src :=
    map_fold (λ name src_node acc,
                m ← acc;
                e ← entry rel name src_node (child tgt name);
                Ok (match e with Some x => <[name := x]> m | None => m end))
             (Ok ∅) src_entries in
  let missing_in_source name m :=
    if decide (is_Some (src_entries !! name)) then m
    else if excluded (rel ++ [name]) then m
    else <[name := (RemoveNode, None)]> m in
  m ← (if is_dir tgt then
         m ← from_src;
         Ok (map_fold (λ name _ m, missing_in_source name m) m (entries_of tgt))
       else if is_file tgt then
         foldr (λ name acc,
                  m ← acc;
                  if decide (name = ".") then
                    if excluded rel then Ok m else Raise RecursionError
                  else Ok (missing_in_source name m))
               from_src (chars tgt_name)
       else from_src);
  Ok (Changes m).

(** The body of the loop for the node [name], present in the source as
    [src_node], with [tgt_node] what the target has under that name. *)
Fixpoint record_entry (rel : path) (name : string) (src_node : node)
    (tgt_node : option node) {struct src_node}
    : result (option (ChangeType * option changes)) :=
  let descend : result (option changes) :=
    match src_node with
    | Dir _ _ src_entries =>
        sub ← record_loop record_entry (rel ++ [name]) src_entries name tgt_node;
        Ok (Some sub)
    | File _ _ _ _ => Ok None
    end in
  if excluded (rel ++ [name]) then Ok None
  else if is_special (Some src_node) then Ok None
  else
    match tgt_node with
    | None =>
        subchanges ← descend; Ok (Some (UpdateNode, subchanges))
    | Some t =>
        let sstat := node_stat src_node in
        let tstat := node_stat t in
        if negb (same_types sstat tstat) then
          subchanges ← descend; Ok (Some (CreateNode, subchanges))
        else if is_dir (Some src_node) then
          subchanges ← descend;
          Ok (Some (if negb (same_permissions sstat tstat)
                    then UpdateStat else NoChange, subchanges))
        else if decide (int_mtime sstat ≠ int_mtime tstat) then
          Ok (Some (UpdateNode, None))
        else Ok None
    end.

(** [record_changes] for the sub-path [.]: the source is the directory with
    entries [source], the target the directory with entries [target] (of the
    target directory itself the traversal reads nothing but that it is
    one). *)
Definition record_changes (source target : gmap string node) : result changes :=
  record_loop record_entry [] source "" (Some (Dir umask_perm clock target)).

(** *** Applying changes *)

(** [copy_node] of [apply_changes]. *)
Definition copy_node (link : bool) (src tgt : option node) (is_dir clear : bool)
    : result (option node) :=
  if is_dir then
    tgt ← makedirs (if clear then remove_node tgt else tgt);
    copy_stat src tgt
  else copy_file link src tgt.

(** Setting what a name of a directory holds. *)
Definition set_entry (name : string) (slot : option node)
    (entries : gmap string node) : gmap string node :=
  partial_alter (λ _, slot) name entries.

(** The body of the loop of [apply_changes.recursive] for one entry of the
    changes, on what the target holds under the entry's name; [descend] is
    the traversal itself, for the changes below a directory.  The task given
    to [add_or_run] works below [tgt_node] only, where no other task works,
    so that it makes no difference when it runs: the model runs it at the
    call.  The changes recorded for a directory are applied to a directory,
    the one found or just made. *)
Definition apply_entry
    (descend : gmap string node → changes → gmap string node
               → result (gmap string node))
    (link : bool) (src_node : option node)
    (change : ChangeType) (subchanges : option changes) (tgt_node : option node)
    : result (option node) :=
  let is_dir := bool_decide (is_Some subchanges) in
  tgt_node ← match change with
             | RemoveNode => Ok (remove_node tgt_node)
             | UpdateNode => copy_node link src_node tgt_node is_dir false
             | CreateNode => copy_node link src_node tgt_node is_dir true
             | UpdateStat => copy_stat src_node tgt_node
             | NoChange => Ok tgt_node
             end;
  match subchanges with
  | Some sub =>
      if decide (change_entries sub = ∅) then Ok tgt_node
      else
        match tgt_node with
        | Some (Dir p m tgt_entries) =>
            tgt_entries ← descend (entries_of src_node) sub tgt_entries;
            Ok (Some (Dir p m tgt_entries))
        | _ => Raise NotADirectoryError
        end
  | None => Ok tgt_node
  end.

(** [apply_changes.recursive] on the entries of the target directory. *)
Fixpoint apply_recursive (link : bool) (src_entries : gmap string node)
    (ch : changes) (tgt_entries : gmap string node) {struct ch}
    : result (gmap string node) :=
  match ch with
  | Changes m =>
      map_fold (λ name entry acc,
                  tgt_entries ← acc;
                  tgt_node ← apply_entry (apply_recursive link) link
                               (src_entries !! name) entry.1 entry.2
                               (tgt_entries !! name);
                  Ok (set_entry name tgt_node tgt_entries))
               (Ok tgt_entries) m
  end.

(** *** [sync_path], the traversal that saves memory *)

(** The loop of [sync_path.recursive] without [dry_run], on the entries of
    the target directory: the names the source lists, then the names only
    the target listed when the loop began. *)
Definition sync_path_loop
    (entry : path → string → node → option node → result (option node))
    (rel : path) (src_entries tgt_entries : gmap string node)
    : result (gmap string node) :=
  after_src ←
    map_fold (λ name src_node acc,
                tgt_entries ← acc;
                tgt_node ← entry rel name src_node (tgt_entries !! name);
                Ok (set_entry name tgt_node tgt_entries))
             (Ok tgt_entries) src_entries;
  Ok (map_fold (λ name _ entries,
                  if decide (is_Some (src_entries !! name)) then entries
                  else if excluded (rel ++ [name]) then entries
                  else set_entry name (remove_node (entries !! name)) entries)
               after_src tgt_entries).

Fixpoint sync_path_entry (link : bool) (rel : path) (name : string)
    (src_node : node) (tgt_node : option node) {struct src_node}
    : result (option node) :=
  let descend (tgt_node : option node) : result (option node) :=
    match src_node, tgt_node with
    | Dir _ _ src_entries, Some (Dir p m tgt_entries) =>
        tgt_entries ← sync_path_loop (sync_path_entry link) (rel ++ [name])
                        src_entries tgt_entries;
        Ok (Some (Dir p m tgt_entries))
    | Dir _ _ _, _ => Raise NotADirectoryError
    | File _ _ _ _, _ => Ok tgt_node
    end in
  let copy_node (clear : bool) : result (option node) :=
    if is_dir (Some src_node) then
      tgt ← makedirs (if clear then remove_node tgt_node else tgt_node);
      copy_stat (Some src_node) tgt
    else copy_file link (Some src_node) tgt_node in
  if excluded (rel ++ [name]) then Ok tgt_node
  else if is_special (Some src_node) then Ok tgt_node
  else
    match tgt_node with
    | None => tgt_node ← copy_node false; descend tgt_node
    | Some t =>
        let sstat := node_stat src_node in
        let tstat := node_stat t in
        if negb (same_types sstat tstat) then
          tgt_node ← copy_node true; descend tgt_node
        else if is_dir (Some src_node) then
          tgt_node ← descend tgt_node;
          if negb (same_permissions sstat tstat)
          then copy_stat (Some src_node) tgt_node else Ok tgt_node
        else if decide (int_mtime sstat ≠ int_mtime tstat) then
          copy_node false
        else if negb (same_permissions sstat tstat)
        then copy_stat (Some src_node) tgt_node else Ok tgt_node
    end.

(** [sync_path.recursive] with [dry_run]: nothing is written, what is left
    is the walk, with the descents of [record_changes]. *)
Definition sync_path_dry_loop
    (entry : path → string → node → option node → result unit)
    (rel : path) (src_entries : gmap string node)
    (tgt_name : string) (tgt : option node) : result unit :=
  _ ← map_fold (λ name src_node acc,
                  _ ← acc; entry rel name src_node (child tgt name))
               (Ok ()) src_entries;
  if is_file tgt then
    foldr (λ name acc,
             _ ← acc;
             if decide (name = ".") then
               if excluded rel then Ok () else Raise RecursionError
             else Ok ())
          (Ok ()) (chars tgt_name)
  else Ok ().

Fixpoint sync_path_dry_entry (rel : path) (name : string)
    (src_node : node) (tgt_node : option node) {struct src_node} : result unit :=
  let descend : result unit :=
    match src_node with
    | Dir _ _ src_entries =>
        sync_path_dry_loop sync_path_dry_entry (rel ++ [name]) src_entries
          name tgt_node
    | File _ _ _ _ => Ok ()
    end in
  if excluded (rel ++ [name]) then Ok ()
  else if is_special (Some src_node) then Ok ()
  else
    match tgt_node with
    | None => descend
    | Some t =>
        if negb (same_types (node_stat src_node) (node_stat t)) then descend
        else if is_dir (Some src_node) then descend
        else Ok ()
    end.

(** *** [sync]

    [sync(source_path, target_path)] with the default include path [.], for
    a source directory with entries [source] and a target directory with
    entries [target] ([os.makedirs] finds the target directory or makes it,
    and raises when the target path is taken by something else).  The first
    task system discovers, the second writes; [save_memory] selects
    [sync_path] for both and [create_hard_links] is [link]. *)
Definition sync (save_memory link : bool) (source target : gmap string node)
    : result (gmap string node) :=
  if save_memory then
    _ ← sync_path_dry_loop sync_path_dry_entry [] source ""
          (Some (Dir umask_perm clock target));
    sync_path_loop (sync_path_entry link) [] source target
  else
    ch ← record_changes source target;
    apply_recursive link source ch target.

End Sync.

(** *** [rmtree] *)

Section Rmtree.

(** Paths below the root of [rmtree], the root being the empty path. *)
Definition lookup_at (p : path) (root : option node) : option node :=
  foldl child root p.

(** [f] applied to what the path [p] names; nothing happens when a
    directory on the way is missing. *)
Fixpoint update_at (f : option node → option node) (p : path)
    (root : option node) : option node :=
  match p with
  | [] => f root
  | name :: q =>
      match root with
      | Some (Dir perm mtime entries) =>
          Some (Dir perm mtime (partial_alter (update_at f q) name entries))
      | _ => root
      end
  end.

(** [remove_empty_dir]: [os.rmdir] (the platform is not Windows). *)
Definition remove_empty_dir (p : path) (root : option node)
    : result (option node) :=
  match lookup_at p root with
  | Some (Dir _ _ entries) =>
      if decide (entries = ∅) then Ok (update_at (λ _, None) p root)
      else Raise DirectoryNotEmpty
  | Some _ => Raise NotADirectoryError
  | None => Raise FileNotFoundError
  end.

(** [try_remove_parents], on the path with its last name first: empty
    directories are removed upward until one is not empty or the root is
    gone; the first exception ends the loop and is swallowed. *)
Fixpoint try_remove_parents (rev_path : list string) (root : option node)
    : option node :=
  match remove_empty_dir (reverse rev_path) root with
  | Raise _ => root
  | Ok root' =>
      match rev_path with
      | [] => root'
      | _ :: up => try_remove_parents up root'
      end
  end.

(** **** The strategy with directory descriptors *)

(** [remove_fds.recursive] for one entry of a scanned directory, giving
    what is left under its name: a directory is emptied and then removed by
    [os.rmdir], anything else is unlinked.  One task, no [add_or_run]. *)
Fixpoint remove_fds_entry (n : node) : result (option node) :=
  match n with
  | Dir _ _ entries =>
      rest ← map_fold (λ name c acc,
                         entries ← acc;
                         left ← remove_fds_entry c;
                         Ok (set_entry name left entries))
                      (Ok entries) entries;
      if decide (rest = ∅) then Ok None else Raise DirectoryNotEmpty
  | File _ _ _ _ => Ok None
  end.

(** [remove_fds]; [record_fds] before it only counts. *)
Definition remove_fds (root : option node) : result (option node) :=
  match root with
  | Some (Dir perm mtime entries) => remove_fds_entry (Dir perm mtime entries)
  | _ => Ok root
  end.

(** **** The two strategies on the task system *)

(** [record_nodes.recursive]: the changes of a directory's entries.  The
    traversal reads only. *)
Fixpoint record_node (n : node) : ChangeType * option changes :=
  match n with
  | Dir _ _ entries => (NoChange, Some (Changes (record_node <$> entries)))
  | File _ _ _ _ => (RemoveNode, None)
  end.

(** [os.scandir] of the root: it has to be a directory. *)
Definition scandir (o : option node) : result (gmap string node) :=
  match o with
  | Some (Dir _ _ entries) => Ok entries
  | Some _ => Raise NotADirectoryError
  | None => Raise FileNotFoundError
  end.

Definition record_nodes (root : option node) : result changes :=
  entries ← scandir root; Ok (Changes (record_node <$> entries)).

(** A task of the second phase: [remove_nodes.recursive(path, changes)] or
    [remove_content.recursive(path)]. *)
Inductive task :=
| RemoveNodes (p : path) (ch : changes)
| RemoveContent (p : path).

(** What a running task does next.  [AddOrRun] is the call of
    [ts.add_or_run]; [Run] is a task about to start. *)
Inductive instr :=
| RemoveFile (p : path)
| TryRemoveParents (p : path)
| AddOrRun (t : task)
| Run (t : task).

(** The loop of a task as instructions, once it has its entries: those of
    the changes, or those [os.scandir] lists as the task starts. *)
Definition remove_nodes_body (p : path) (ch : changes) : list instr :=
  ('(name, (change, subchanges)) ← map_to_list (change_entries ch);
   (if decide (change = RemoveNode) then [RemoveFile (p ++ [name])] else [])
   ++ match subchanges with
      | Some sub => [AddOrRun (RemoveNodes (p ++ [name]) sub)]
      | None => []
      end)
  ++ [TryRemoveParents p].

Definition remove_content_body (p : path) (entries : gmap string node)
    : list instr :=
  ('(name, n) ← map_to_list entries;
   [if is_dir (Some n) then AddOrRun (RemoveContent (p ++ [name]))
    else RemoveFile (p ++ [name])])
  ++ [TryRemoveParents p].

Definition start (t : task) (root : option node) : result (list instr) :=
  match t with
  | RemoveNodes p ch => Ok (remove_nodes_body p ch)
  | RemoveContent p =>
      entries ← scandir (lookup_at p root); Ok (remove_content_body p entries)
  end.

(** The threads at work, each with the instructions it has left, and the
    file tree under the root.  A step takes the next instruction of one
    thread.  [add_or_run] either keeps the task in the calling thread
    ([inline]) or hands it to a worker, a thread of its own. *)
Record pool := mkPool { tree : option node; threads : list (list instr) }.

Record choice := mkChoice { thread : nat; inline : bool }.

Definition step (c : choice) (s : pool) : result pool :=
  match threads s !! thread c with
  | None | Some [] => Ok s
  | Some (i :: rest) =>
      let continue_with tree instrs :=
        mkPool tree (<[thread c := instrs]> (threads s)) in
      match i with
      | RemoveFile p => Ok (continue_with (update_at remove_file p (tree s)) rest)
      | TryRemoveParents p =>
          Ok (continue_with (try_remove_parents (reverse p) (tree s)) rest)
      | AddOrRun t =>
          if inline c then Ok (continue_with (tree s) (Run t :: rest))
          else Ok (mkPool (tree s) (<[thread c := rest]> (threads s) ++ [[Run t]]))
      | Run t =>
          body ← start t (tree s); Ok (continue_with (tree s) (body ++ rest))
      end
  end.

Definition run (schedule : list choice) (s : pool) : result pool :=
  foldl (λ acc c, s ← acc; step c s) (Ok s) schedule.

(** [finish()] returns when no thread has anything left. *)
Definition finished (s : pool) : Prop := Forall (λ t, t = []) (threads s).

(** [remove_content] with [dry_run]: the walk alone, which reads only. *)
Definition remove_content_dry (root : option node) : result unit :=
  _ ← scandir root; Ok ().

(** [rmtree(root)]: the strategy is chosen as the code chooses it, and the
    second task system runs the one task it is given under [schedule]. *)
Definition rmtree (save_memory fd_api_support : bool) (schedule : list choice)
    (root : option node) : result pool :=
  if save_memory then
    _ ← remove_content_dry root;
    run schedule (mkPool root [[Run (RemoveContent [])]])
  else if fd_api_support then
    root ← remove_fds root; Ok (mkPool root [])
  else
    ch ← record_nodes root;
    run schedule (mkPool root [[Run (RemoveNodes [] ch)]]).

End Rmtree.

End FileSystem.

(** ** StageManager *)

Module StageManager.

Record Stage := mkStage { name : string; interval : Z; keep : Z }.

(** The JSON configuration: [cfg["interval"]] and the [name] and [keep] of
    each entry of [cfg["stages"]]. *)
Record Config := mkConfig { cfg_interval : Z; cfg_stages : list (string * Z) }.

(** The loop of [load_stages_from_config], [stage_interval] being the
    running product. *)
Fixpoint load_stages (stage_interval : Z) (l : list (string * Z)) : list Stage :=
  match l with
  | [] => []
  | (n, k) :: l' => mkStage n stage_interval k :: load_stages (stage_interval * k) l'
  end.

Definition load_stages_from_config (cfg : Config) : list Stage * Z :=
  (load_stages (cfg_interval cfg) (cfg_stages cfg), cfg_interval cfg).

Definition snapshot_name (stage_name stage_num : string) : string :=
  stage_name +:+ "." +:+ stage_num.

Definition snapshot_names (stages : list Stage) : list string :=
  s ← stages; i ← range (keep s); [snapshot_name (name s) (str i)].

(** The number of indices the stages offer: a [keep] below zero offers
    none, as [range] has it. *)
Definition total_keep (stages : list Stage) : Z :=
  foldr (λ s acc, Z.max 0 (keep s) + acc) 0 stages.

(** A time stamp file [.{snapshot}.stamp]: its first line parses as an int,
    or [int()] refuses it. *)
Inductive stamp :=
| Stamp (t : Z)
| Garbled.

Section TimeStamp.
(** [int(time.time())] at construction. *)
Variable now : Z.

(** The stamp files of the stages directory, by snapshot name.  [read]
    raises on a missing file and on a garbled one: [None]. *)
Definition read (stamps : gmap string stamp) (snapshot : string) : option Z :=
  match stamps !! snapshot with
  | Some (Stamp t) => Some t
  | _ => None
  end.

Definition elapsed (stamps : gmap string stamp) (snapshot : string) : option Z :=
  t ← read stamps snapshot; Some (now - t).

(** [align] of [TimeStamp.create]: [int(val / to_multiple_of) *
    to_multiple_of]. *)
Definition align (val to_multiple_of : Z) : result Z :=
  q ← int_truediv val to_multiple_of; Ok (q * to_multiple_of).

(** [TimeStamp.create]: the stamp file is opened for writing, and so made
    empty, before the time is aligned; when the alignment raises, the empty
    file is what stays, and [read] refuses it. *)
Definition timestamp_create (base_interval : Z) (stamps : gmap string stamp)
    (snapshot : string) : gmap string stamp * result unit :=
  match align now base_interval with
  | Ok t => (<[snapshot := Stamp t]> stamps, Ok ())
  | Raise e => (<[snapshot := Garbled]> stamps, Raise e)
  end.

(** The [for] loop of [__next_after] over [stages[stage_id:]]. *)
Fixpoint next_after_loop (e : Z) (l : list Stage) : result (option string) :=
  match l with
  | [] => Ok None
  | stage :: l' =>
      num ← int_truediv e (interval stage);
      if decide (0 ≤ num ∧ num < keep stage)
      then Ok (Some (snapshot_name (name stage) (str num)))
      else next_after_loop e l'
  end.

Definition next_after (stages : list Stage) (stamps : gmap string stamp)
    (stage_id : nat) (num : Z) : result (option string) :=
  match stages !! stage_id with
  | None => Raise IndexError
  | Some st =>
      match elapsed stamps (snapshot_name (name st) (str num)) with
      | None => Ok None
      | Some e => next_after_loop e (drop stage_id stages)
      end
  end.

End TimeStamp.

(** The rule of [__next_after] as the specification words it, with
    [floor(e / interval)] for the index: the first stage from [stage_id] on
    whose floored quotient lies in [0, keep). *)
Fixpoint next_after_floor_loop (e : Z) (l : list Stage) : option string :=
  match l with
  | [] => None
  | stage :: l' =>
      let q := e `div` interval stage in
      if decide (0 ≤ q ∧ q < keep stage)
      then Some (snapshot_name (name stage) (str q))
      else next_after_floor_loop e l'
  end.

Definition next_after_floor (now : Z) (stages : list Stage)
    (stamps : gmap string stamp) (stage_id : nat) (num : Z) : option string :=
  st ← stages !! stage_id;
  e ← elapsed now stamps (snapshot_name (name st) (str num));
  next_after_floor_loop e (drop stage_id stages).

(** *** Snapshots on disk, [__rm], [__mv] and [rotate] *)

Section Rotate.
(** What a snapshot directory holds; [rotate] only moves whole trees. *)
Context {tree : Type}.

(** The stages directory: the directories in it by name (the snapshots and
    [.delete]), the stamp files by snapshot name, and what the logger was
    given, oldest first, each message with its indent. *)
Record disk := mkDisk {
  snapshots : gmap string tree;
  stamps : gmap string stamp;
  logged : list (string * nat)
}.

Variable now : Z.
Variable stages : list Stage.

Definition dname : string := ".delete".

Definition log (msg : string) (indent : nat) (d : disk) : disk :=
  mkDisk (snapshots d) (stamps d) (logged d ++ [(msg, indent)]).

(** [__has]: [FileSystem.is_dir] of the snapshot's path. *)
Definition has (d : disk) (snapshot : string) : bool :=
  bool_decide (is_Some (snapshots d !! snapshot)).

(** [FileSystem.rmtree] of a directory of the stages directory.  A snapshot
    holds what sync wrote (directories, regular files and symbolic links),
    and such a tree is gone after [rmtree] under each of its strategies. *)
Definition rmtree (snapshot : string) (d : disk) : disk :=
  mkDisk (delete snapshot (snapshots d)) (stamps d) (logged d).

(** [os.rename] of a directory: the source must exist; a target that exists
    is replaced when it is an empty directory and refused otherwise, and the
    model, which does not look into the trees, refuses every taken name. *)
Definition rename (src tgt : string) (d : disk) : result disk :=
  match snapshots d !! src with
  | None => Raise FileNotFoundError
  | Some t =>
      if decide (src = tgt) then Ok d
      else if has d tgt then Raise DirectoryNotEmpty
      else Ok (mkDisk (<[tgt := t]> (delete src (snapshots d))) (stamps d) (logged d))
  end.

(** [TimeStamp.remove] and [TimeStamp.copy]. *)
Definition timestamp_remove (snapshot : string) (d : disk) : disk :=
  mkDisk (snapshots d) (delete snapshot (stamps d)) (logged d).

Definition timestamp_copy (src_snapshot tgt_snapshot : string) (d : disk) : disk :=
  match stamps d !! src_snapshot with
  | Some s => mkDisk (snapshots d) (<[tgt_snapshot := s]> (stamps d)) (logged d)
  | None => d
  end.

Definition rm (snapshot : string) (delete_eager : bool) (d : disk) : result disk :=
  if has d snapshot then
    d ← (if delete_eager then Ok (rmtree snapshot d)
         else
           let d := if has d dname then rmtree dname d else d in
           rename snapshot dname d);
    Ok (timestamp_remove snapshot d)
  else Ok d.

Definition mv (src_snapshot tgt_snapshot : string) (d : disk) : result disk :=
  d ← rename src_snapshot tgt_snapshot (timestamp_copy src_snapshot tgt_snapshot d);
  Ok (timestamp_remove src_snapshot d).

(** Truth value of an [Optional[str]]: [None] and the empty string are
    false. *)
Definition truthy (s : option string) : bool :=
  match s with
  | None | Some EmptyString => false
  | Some _ => true
  end.

(** The body of the inner loop of [rotate] for stage [stage_id] and
    index [i]. *)
Definition rotate_snapshot (stage_id : nat) (stage : Stage) (i : Z) (d : disk)
    : result disk :=
  let src_name := snapshot_name (name stage) (str i) in
  if has d src_name then
    tgt ← next_after now stages (stamps d) stage_id i;
    if negb (truthy tgt) then
      rm src_name false (log ("- Removing " +:+ name stage +:+ "." +:+ str i) 1 d)
    else
      let tgt_name := default "" tgt in
      if decide (src_name ≠ tgt_name) then
        if negb (has d tgt_name) then
          mv src_name tgt_name
             (log ("- Moving " +:+ src_name +:+ " -> " +:+ tgt_name) 1 d)
        else
          rm src_name false (log ("- Removing " +:+ src_name) 1 d)
      else Ok d
  else Ok d.

(** A [for] loop whose body may raise. *)
Definition for_each {A S : Type} (l : list A) (body : A → S → result S) (s : S)
    : result S :=
  foldl (λ acc x, s ← acc; body x s) (Ok s) l.

(** [range(n - 1, -1, -1)]. *)
Definition range_down (n : Z) : list Z := reverse (range n).

Definition rotate_stage (stage_id : nat) (d : disk) : result disk :=
  match stages !! stage_id with
  | None => Raise IndexError
  | Some stage =>
      for_each (range_down (keep stage)) (rotate_snapshot stage_id stage)
        (log ("* Rotating stage '" +:+ name stage +:+ "'.") 0 d)
  end.

Definition rotate (d : disk) : result disk :=
  for_each (reverse (seq 0 (length stages))) rotate_stage d.

(** The visits of [rotate] in the order the specification gives them:
    stages from last to first, and in each stage the indices from
    [keep - 1] down to [0]. *)
Definition visits : list (nat * Z) :=
  '(stage_id, stage) ← reverse (imap pair stages);
  i ← range_down (keep stage);
  [(stage_id, i)].

End Rotate.
Arguments disk tree : clear implicits.

End StageManager.

(** ** rsync_backup: the include and exclude paths *)

Module RsyncBackup.
Import FileSystem.

(** [os.path.commonpath([p, q])] of two relative paths without [.] and
    [..], each a list of names: the longest common prefix, the empty list
    being the path [.]. *)
Fixpoint commonpath (p q : path) : path :=
  match p, q with
  | a :: p', b :: q' => if decide (a = b) then a :: commonpath p' q' else []
  | _, _ => []
  end.

(** The [for] loop of [remove_shadowed_paths] over [rest]: at the first
    [rest[i]] that shadows [first] or is shadowed by it, [rest[i]] becomes
    the common path, the shorter of the two, and the loop ends with the
    list to go on with; [None] when the loop runs to its end. *)
Fixpoint shadow_loop (first : path) (rest : list path) : option (list path) :=
  match rest with
  | [] => None
  | r :: rest' =>
      let common := commonpath first r in
      if decide (common = first ∨ common = r) then Some (common :: rest')
      else (r ::.) <$> shadow_loop first rest'
  end.

(** [remove_shadowed_paths], the recursion counted by [fuel]; every call
    is on a list one shorter, so the length of the list is fuel enough. *)
Fixpoint remove_shadowed_fuel (fuel : nat) (paths : list path) : list path :=
  match fuel, paths with
  | S fuel', first :: ((_ :: _) as rest) =>
      match shadow_loop first rest with
      | Some rest' => remove_shadowed_fuel fuel' rest'
      | None => first :: remove_shadowed_fuel fuel' rest
      end
  | _, _ => paths
  end.

Definition remove_shadowed_paths (paths : list path) : list path :=
  remove_shadowed_fuel (length paths) paths.

End RsyncBackup.

(** * Notions the properties are stated with *)

(** ** Probes of the task system *)

Section TaskSystemTerms.
Import TaskSystem.
Context {Task : Type}.
Variable e : env.
Variable cfg : settings.

(** Probe [k], of queue [i], succeeds: it gets the lock and, where the
    limit counts, finds the queue below it. *)
Definition probe_succeeds (honor_limit : bool) (k i : nat)
    (queues : list (list Task)) : bool :=
  lock_free e k
  && (negb honor_limit
      || bool_decide (length (queues !!! i) < queue_limit cfg)%nat).

End TaskSystemTerms.

(** ** Names and indices of snapshots *)

Section NameTerms.
Import StageManager.

(** The characters of [str n]: digits and the sign. *)
Definition decimal_char (c : ascii) : Prop :=
  c ∈ ["0"; "1"; "2"; "3"; "4"; "5"; "6"; "7"; "8"; "9"; "-"]%char.

Fixpoint decimal (s : string) : Prop :=
  match s with
  | EmptyString => True
  | String c s' => decimal_char c ∧ decimal s'
  end.

(** No character of the string is a dot. *)
Fixpoint dotless (s : string) : Prop :=
  match s with
  | EmptyString => True
  | String c s' => c ≠ "."%char ∧ dotless s'
  end.

(** The index [int(e / interval)] of stage [st] lies in [0, keep). *)
Definition fits (e : Z) (st : Stage) : Prop :=
  0 ≤ e ÷ interval st ∧ e ÷ interval st < keep st.

End NameTerms.

(** ** The steps of a rotation *)

Section RotateTerms.
Import StageManager.
Context {tree : Type}.
Variable now : Z.
Variable stages : list Stage.

Abbreviation disk := (disk tree).

(** What [rotate] does, one event after the other: it announces a stage,
    then visits its indices. *)
Definition stage_events (stage_id : nat) (stage : Stage)
    : list (nat * Stage * option Z) :=
  (stage_id, stage, None)
  :: ((λ i, (stage_id, stage, Some i)) <$> range_down (keep stage)).

Definition rotate_events : list (nat * Stage * option Z) :=
  '(stage_id, stage) ← reverse (imap pair stages); stage_events stage_id stage.

Definition rotate_event (ev : nat * Stage * option Z) (d : disk) : result disk :=
  match ev with
  | (stage_id, stage, None) =>
      Ok (log ("* Rotating stage '" +:+ name stage +:+ "'.") 0 d)
  | (stage_id, stage, Some i) => rotate_snapshot now stages stage_id stage i d
  end.


(** The snapshot [src] was removed: its directory went to [.delete], its
    stamp is gone, and nothing else changed. *)
Definition removed (src : string) (d d' : disk) : Prop :=
  snapshots d' !! src = None
  ∧ stamps d' !! src = None
  ∧ snapshots d' !! dname = snapshots d !! src
  ∧ (∀ x, x ≠ src → x ≠ dname → snapshots d' !! x = snapshots d !! x)
  ∧ (∀ x, x ≠ src → stamps d' !! x = stamps d !! x).

(** The snapshot [src] was renamed to [tgt] and took its stamp along. *)
Definition moved (src tgt : string) (d d' : disk) : Prop :=
  snapshots d' !! tgt = snapshots d !! src
  ∧ snapshots d' !! src = None
  ∧ stamps d' !! tgt = stamps d !! src
  ∧ stamps d' !! src = None
  ∧ (∀ x, x ≠ src → x ≠ tgt →
       snapshots d' !! x = snapshots d !! x ∧ stamps d' !! x = stamps d !! x).

End RotateTerms.

(** ** File trees and the threads of [rmtree] *)

Section TreeTerms.
Import FileSystem.

(** The number of nodes of a tree, for induction on trees. *)
Fixpoint size (n : node) : nat :=
  match n with
  | File _ _ _ _ => 1
  | Dir _ _ entries => S (map_fold (λ _ c acc, size c + acc)%nat 0%nat entries)
  end.











(** No special node under the root. *)
Definition no_special (root : option node) : Prop :=
  ∀ p n, lookup_at p root = Some n → is_special (Some n) = false.

(** The same, as a walk over the tree. *)
Fixpoint special_free (n : node) : bool :=
  match n with
  | File _ _ _ _ => negb (is_special (Some n))
  | Dir _ _ entries => map_fold (λ _ c acc, special_free c && acc) true entries
  end.

End TreeTerms.

(** ** Source and target of [sync] *)

Section SyncTerms.
Import FileSystem.
Variables umask_perm clock : Z.
Variable link : bool.

(** What the entries of a directory hold at a path below it. *)
Definition at_path (entries : gmap string node) (p : path) : option node :=
  match p with
  | [] => None
  | name :: q => lookup_at q (entries !! name)
  end.

(** The nine permission bits of a node. *)
Definition permission_bits (n : node) : Z := Z.land (st_mode (node_stat n)) 511.

(** No special node in a tree. *)
Definition special_free_entries (entries : gmap string node) : Prop :=
  ∀ p n, at_path entries p = Some n → is_special (Some n) = false.

(** Where both trees have a directory, the two agree in the mode bits
    above the nine permission bits (set-uid, set-gid and sticky), which
    [same_types] compares along with the file type. *)
Definition dirs_agree (source target : gmap string node) : Prop :=
  ∀ p s t, at_path source p = Some s → at_path target p = Some t →
           is_dir (Some s) = true → is_dir (Some t) = true →
           same_types (node_stat s) (node_stat t) = true.



(** [record_changes.recursive] on a source directory and what the target
    holds in its place, followed by [apply_changes.recursive] with what was
    recorded. *)
Definition level (rel : path) (src_entries : gmap string node)
    (tgt_name : string) (tgt : option node) (tgt_entries' : gmap string node)
    : Prop :=
  ∃ m, record_loop [] (record_entry []) rel src_entries tgt_name tgt = Ok (Changes m)
       ∧ apply_recursive umask_perm clock link src_entries (Changes m)
           (entries_of tgt) = Ok tgt_entries'.


(** One level of [sync] on a source directory and what the target holds in
    its place: [sync_path.recursive] when memory is saved, else
    [record_changes.recursive] followed by [apply_changes.recursive]. *)
Definition level_of (save_memory : bool) (rel : path)
    (src_entries : gmap string node) (tgt : option node)
    (tgt_entries' : gmap string node) : Prop :=
  if save_memory then
    sync_path_loop [] (sync_path_entry umask_perm clock [] link) rel src_entries
      (entries_of tgt) = Ok tgt_entries'
  else ∃ tgt_name, level rel src_entries tgt_name tgt tgt_entries'.


Fixpoint dirs_agree_walk (s : node) (t : option node) {struct s} : bool :=
  match s with
  | File _ _ _ _ => true
  | Dir _ _ src_entries =>
      match t with
      | Some (Dir _ _ _ as tn) =>
          same_types (node_stat s) (node_stat tn)
          && map_fold (λ name c acc, dirs_agree_walk c (child t name) && acc)
               true src_entries
      | _ => true
      end
  end.



(** One level of a further [sync] finds nothing to do: on the target
    directory with entries [tgt_entries'] the discovery returns, and the
    traversal that writes returns the entries as they are. *)
Definition settled (save_memory : bool) (rel : path)
    (src_entries : gmap string node) (tgt_name : string) (perm mtime : Z)
    (tgt_entries' : gmap string node) : Prop :=
  let tgt := Some (Dir perm mtime tgt_entries') in
  if save_memory then
    sync_path_dry_loop [] (sync_path_dry_entry []) rel src_entries tgt_name tgt
    = Ok ()
    ∧ sync_path_loop [] (sync_path_entry umask_perm clock [] link) rel src_entries
        tgt_entries' = Ok tgt_entries'
  else
    ∃ m, record_loop [] (record_entry []) rel src_entries tgt_name tgt
         = Ok (Changes m)
         ∧ apply_recursive umask_perm clock link src_entries (Changes m)
             tgt_entries' = Ok tgt_entries'.

(** No file of the target whose name has a dot in it stands where the
    source has a directory. *)
Definition dot_clash_free (source target : gmap string node) : Prop :=
  ∀ p name s t, at_path source (p ++ [name]) = Some s →
                at_path target (p ++ [name]) = Some t →
                is_dir (Some s) = true → is_file (Some t) = true →
                "." ∉ chars name.

(** [dot_clash_free], as a walk over the source below the name [name]. *)
Fixpoint dot_clash_walk (name : string) (s : node) (t : option node)
    {struct s} : bool :=
  match s with
  | File _ _ _ _ => true
  | Dir _ _ src_entries =>
      (if is_file t then bool_decide ("." ∉ chars name) else true)
      && map_fold (λ k c acc, dot_clash_walk k c (child t k) && acc)
           true src_entries
  end.

End SyncTerms.

(** ** Trees to run [sync] on *)

Section SyncExamples.
Import FileSystem.

(** A source with a regular file, a directory, a symbolic link and a
    named pipe, and a target that has some of the names already. *)
Definition example_source : gmap string node :=
  {[ "a" := File Regular 420 5000000000 "new";
     "d" := Dir 493 7 {[ "f" := File Regular 384 3000000000 "y" ]};
     "l" := File Symlink 511 2000000000 "a";
     "p" := File Fifo 420 0 "" ]}.

Definition example_target : gmap string node :=
  {[ "a" := File Regular 384 5999999999 "old";
     "d" := Dir 448 9 {[ "g" := File Regular 420 1000000000 "z" ]};
     "p" := File Regular 420 1000000000 "kept";
     "x" := Dir 493 0 {[ "y" := File Symlink 511 0 "nowhere" ]} ]}.

Definition example_synced : gmap string node :=
  match sync 493 0 [] false false example_source example_target with
  | Ok target' => target'
  | Raise _ => ∅
  end.

(** A target with a named pipe that the source does not have. *)
Definition pipe_target : gmap string node := {[ "pipe" := File Fifo 420 0 "" ]}.

(** A directory with the set-gid bit in the source (mode 2755), without it
    in the target (mode 0755), and the same file in both. *)
Definition setgid_source : gmap string node :=
  {[ "d" := Dir 1517 5 {[ "f" := File Regular 420 7000000000 "c" ]} ]}.

Definition setgid_target : gmap string node :=
  {[ "d" := Dir 493 5 {[ "f" := File Regular 420 7000000000 "c" ]} ]}.

(** The failing input of C5: the file [f], mode 0644 in the source and
    0600 in the target, both modified in second 1000. *)
Definition source_0644 : gmap string node :=
  {[ "f" := File Regular 420 1000000000000 "x" ]}.

Definition target_0600 : gmap string node :=
  {[ "f" := File Regular 384 1000000500000 "x" ]}.

End SyncExamples.

(** ** Several tasks given to [add] in a row *)

Section TaskSystemCalls.
Import TaskSystem.
Context {Task : Type}.
Variable e : env.
Variable cfg : settings.

(** [for t in tasks: ts.add(t)], each call under the same conditions. *)
Definition add_all (tasks : list Task) (s : state Task) : state Task :=
  foldl (λ s t, (add e cfg t s).1) s tasks.

End TaskSystemCalls.

(** ** Lists of paths *)

Section PathTerms.
Import FileSystem.

(** No path of the list shadows another: no two entries, at different
    positions, of which one is a prefix of the other. *)
Definition shadow_free (paths : list path) : Prop :=
  ∀ i j p q, paths !! i = Some p → paths !! j = Some q → i ≠ j →
             ¬ p `prefix_of` q.

End PathTerms.

(** ** Stages and what [rotate] does to the snapshots *)

Section StageTerms.
Import StageManager.
Context {tree : Type}.

(** The product of a list of numbers. *)
Definition product (l : list Z) : Z := foldr Z.mul 1 l.

(** Every directory the stages directory holds in [d'] is one it held in
    [d]; one that is not [.delete] was not [.delete] in [d] either, and
    has the stamp it had there. *)
Definition carried (d d' : disk tree) : Prop :=
  ∀ x t, snapshots d' !! x = Some t →
    ∃ y, snapshots d !! y = Some t
         ∧ (x ≠ dname → y ≠ dname ∧ stamps d' !! x = stamps d !! y).

End StageTerms.

(** ** Paths excluded from [sync] *)

Section ExcludeTerms.
Import FileSystem.

(** Above the path [p], source and target both have directories, which
    agree in the mode bits above the nine permission bits. *)
Definition parents_shared (source target : gmap string node) (p : path) : Prop :=
  ∀ q1 q2, p = q1 ++ q2 → q1 ≠ [] → q2 ≠ [] →
    ∃ s t, at_path source q1 = Some s ∧ at_path target q1 = Some t
           ∧ is_dir (Some s) = true ∧ is_dir (Some t) = true
           ∧ same_types (node_stat s) (node_stat t) = true.

End ExcludeTerms.

(** * Properties *)

(** ** TaskSystem.add and TaskSystem.add_or_run *)

Section TaskSystemSpec.
Import TaskSystem.
Context {Task : Type}.
Variable e : env.
Variable cfg : settings.

Abbreviation probe_succeeds := (probe_succeeds e cfg).

Lemma try_add_loop_cases (probes : list nat) (k : nat) (t : Task)
    (honor_limit : bool) (queues : list (list Task)) :
  try_add_loop e cfg probes k t honor_limit queues = (false, queues)
  ∨ ∃ i, i ∈ probes
         ∧ try_add_loop e cfg probes k t honor_limit queues
           = (true, append i t queues).
Proof.
  revert k. induction probes as [|i probes IH]; intros k; simpl; [by left|].
  destruct (shutdown_seen e k); [by left|].
  destruct (lock_free e k && _).
  - right. exists i. split; [left|done].
  - destruct (IH (S k)) as [?|(j & Hj & ?)]; [by left|].
    right. exists j. split; [by right|done].
Qed.

Lemma try_add_loop_none (probes : list nat) (k : nat) (t : Task)
    (honor_limit : bool) (queues : list (list Task)) :
  (∀ m i, probes !! m = Some i →
     shutdown_seen e (k + m) = false
     ∧ probe_succeeds honor_limit (k + m) i queues = false) →
  try_add_loop e cfg probes k t honor_limit queues = (false, queues).
Proof.
  revert k. induction probes as [|i probes IH]; intros k Hall; simpl; [done|].
  destruct (Hall 0%nat i eq_refl) as [Hs Hp]. rewrite Nat.add_0_r in Hs, Hp.
  unfold probe_succeeds in Hp. rewrite Hs, Hp. apply IH. intros m j Hm.
  replace (S k + m)%nat with (k + S m)%nat by lia. by apply Hall.
Qed.

Lemma try_add_loop_stops (probes : list nat) (k : nat) (t : Task)
    (honor_limit : bool) (queues : list (list Task)) (n : nat) :
  (n < length probes)%nat → shutdown_seen e (k + n) = true →
  (∀ m i, (m < n)%nat → probes !! m = Some i →
     shutdown_seen e (k + m) = false
     ∧ probe_succeeds honor_limit (k + m) i queues = false) →
  try_add_loop e cfg probes k t honor_limit queues = (false, queues).
Proof.
  revert k n. induction probes as [|i probes IH]; intros k n Hn Hstop Hbefore;
    simpl in *; [lia|].
  destruct n as [|n].
  - rewrite Nat.add_0_r in Hstop. by rewrite Hstop.
  - destruct (Hbefore 0%nat i ltac:(lia) eq_refl) as [Hs Hp].
    rewrite Nat.add_0_r in Hs, Hp. unfold probe_succeeds in Hp. rewrite Hs, Hp.
    apply (IH (S k) n); [lia|by replace (S k + n)%nat with (k + S n)%nat by lia|].
    intros m j Hm Hj. replace (S k + m)%nat with (k + S m)%nat by lia.
    apply Hbefore; [lia|done].
Qed.

Lemma try_add_loop_first (probes : list nat) (k : nat) (t : Task)
    (honor_limit : bool) (queues : list (list Task)) (n i : nat) :
  probes !! n = Some i → shutdown_seen e (k + n) = false →
  probe_succeeds honor_limit (k + n) i queues = true →
  (∀ m j, (m < n)%nat → probes !! m = Some j →
     shutdown_seen e (k + m) = false
     ∧ probe_succeeds honor_limit (k + m) j queues = false) →
  try_add_loop e cfg probes k t honor_limit queues = (true, append i t queues).
Proof.
  revert k n. induction probes as [|i' probes IH]; intros k n Hn Hs Hp Hbefore;
    [done|]. simpl. destruct n as [|n].
  - injection Hn as ->. rewrite Nat.add_0_r in Hs, Hp.
    unfold probe_succeeds in Hp. by rewrite Hs, Hp.
  - destruct (Hbefore 0%nat i' ltac:(lia) eq_refl) as [Hs' Hp'].
    rewrite Nat.add_0_r in Hs', Hp'. unfold probe_succeeds in Hp'.
    rewrite Hs', Hp'. simpl in Hn.
    apply (IH (S k) n); [done|by replace (S k + n)%nat with (k + S n)%nat by lia..|].
    intros m j Hm Hj. replace (S k + m)%nat with (k + S m)%nat by lia.
    apply Hbefore; [lia|done].
Qed.

(** The queue indices [__try_add] probes, in order. *)
Lemma probes_lookup (idx n k : nat) :
  (k < n)%nat →
  ((λ i, i mod num_workers cfg)%nat <$> seq idx n) !! k
  = Some ((idx + k) mod num_workers cfg)%nat.
Proof. intros Hk. by rewrite list_lookup_fmap, lookup_seq_lt. Qed.

Lemma probes_lookup_inv (idx n k i : nat) :
  ((λ i, i mod num_workers cfg)%nat <$> seq idx n) !! k = Some i →
  (k < n)%nat ∧ i = ((idx + k) mod num_workers cfg)%nat.
Proof.
  rewrite list_lookup_fmap. intros Hk.
  destruct (seq idx n !! k) as [x|] eqn:Hx; simplify_eq/=.
  apply lookup_seq in Hx as [-> ?]. done.
Qed.

Lemma append_lookup (j : nat) (t : Task) (queues : list (list Task))
    (i : nat) (q : list Task) :
  queues !! i = Some q →
  append j t queues !! i = Some (if decide (i = j) then q ++ [t] else q).
Proof.
  intros Hq. unfold append. case_decide as Hij.
  - subst j. by rewrite list_lookup_alter_eq, Hq.
  - by rewrite list_lookup_alter_ne.
Qed.

Lemma append_inj (j j' : nat) (t : Task) (queues : list (list Task)) :
  (j < length queues)%nat →
  append j t queues = append j' t queues → j = j'.
Proof.
  intros Hj Heq. destruct (decide (j = j')) as [|Hne]; [done|].
  destruct (lookup_lt_is_Some_2 queues j Hj) as [q Hq].
  pose proof (append_lookup j t queues j q Hq) as H1.
  rewrite Heq, (append_lookup j' t queues j q Hq) in H1.
  rewrite decide_False, decide_True in H1 by done.
  injection H1 as H1. apply (f_equal length) in H1.
  rewrite length_app in H1. simpl in H1. lia.
Qed.

(** C8.  A task given to [add] while the shutdown flag is not set is in
    exactly one queue when [add] returns, appended at its end: [add] probes
    [W * (1 + max_retries)] queues from the round-robin index on and appends
    to the first it try-locks; when every probe fails it takes the lock of
    the queue it picked first and appends there.  The task is never dropped,
    not even when the flag is set after the check on entry. *)
Theorem add_enqueues_once (t : Task) (s : state Task)
    (Hrun : shutdown_at_entry e = false)
    (Hqueues : length (qs s) = num_workers cfg)
    (Hworkers : (0 < num_workers cfg)%nat) :
  let idx := current_idx s in
  let W := num_workers cfg in
  let n := (W * (1 + num_retries cfg))%nat in
  ∃ j : nat,
    (j < W)%nat
    ∧ add e cfg t s = (mkState (S idx) (append j t (qs s)), Enqueued)
    ∧ (∀ i q, qs s !! i = Some q →
         append j t (qs s) !! i = Some (if decide (i = j) then q ++ [t] else q))
    ∧ ((∀ k, (k < n)%nat → shutdown_seen e k = false) →
       (∀ k, (k < n)%nat → lock_free e k = true →
          (∀ k', (k' < k)%nat → lock_free e k' = false) →
          j = ((idx + k) mod W)%nat)
       ∧ ((∀ k, (k < n)%nat → lock_free e k = false) → j = (idx mod W)%nat)).
Proof.
  intros idx W n.
  assert (∀ k, (k < n)%nat → (∀ k, (k < n)%nat → shutdown_seen e k = false) →
            lock_free e k = true →
            (∀ k', (k' < k)%nat → lock_free e k' = false) →
            try_add e cfg idx t false (qs s)
            = (true, append ((idx + k) mod W)%nat t (qs s))) as Hfirst.
  { intros k Hk Hnoshut Hfree Hbefore. unfold try_add. fold W n.
    apply (try_add_loop_first _ 0 t false (qs s) k); simpl.
    - by apply probes_lookup.
    - by apply Hnoshut.
    - unfold probe_succeeds. by rewrite Hfree.
    - intros m i Hm [Hmn ->]%probes_lookup_inv. split; [by apply Hnoshut|].
      unfold probe_succeeds. by rewrite Hbefore. }
  assert (∀ k, (k < W)%nat → (k < length (qs s))%nat) as Hin by (intros; lia).
  unfold add. rewrite Hrun. fold idx.
  destruct (try_add e cfg idx t false (qs s)) as [added queues] eqn:Htry.
  pose proof Htry as Hloop. unfold try_add in Hloop. fold W n in Hloop.
  destruct (try_add_loop_cases ((λ i, i mod W)%nat <$> seq idx n) 0 t false (qs s))
    as [Hnone|(j & Hj & Hsome)]; rewrite Hloop in *; simplify_eq.
  - (* every probe failed: the forced append *)
    exists (idx mod W)%nat.
    split_and!; [by apply Nat.mod_upper_bound; lia|done|apply append_lookup|].
    intros Hnoshut. split; [|done]. intros k Hk Hfree Hbefore.
    by specialize (Hfirst k Hk Hnoshut Hfree Hbefore).
  - (* a probe took the task *)
    apply list_elem_of_lookup in Hj as [k Hk].
    apply probes_lookup_inv in Hk as [Hk ->].
    assert ((idx + k) mod W < W)%nat as Hlt by (apply Nat.mod_upper_bound; lia).
    exists ((idx + k) mod W)%nat.
    split_and!; [done|done|apply append_lookup|].
    intros Hnoshut. split.
    + intros k' Hk' Hfree Hbefore.
      specialize (Hfirst k' Hk' Hnoshut Hfree Hbefore).
      injection Hfirst as Hfirst. by apply append_inj in Hfirst; auto.
    + intros Hnofree. unfold try_add in Htry. fold W n in Htry.
      rewrite try_add_loop_none in Htry; [done|]. simpl.
      intros m i [Hmn ->]%probes_lookup_inv. split; [by apply Hnoshut|].
      unfold probe_succeeds. by rewrite Hnofree.
Qed.

(** C9 (amended).  When the shutdown flag is set as [add_or_run] is
    called, the call returns without enqueueing the task and without running
    it: the task is dropped.  When the flag becomes set later, before any
    probe has succeeded, the task is not enqueued either, but [__try_add]
    then returns false and the caller runs the task itself. *)
Theorem add_or_run_on_shutdown (t : Task) (s : state Task) :
  let idx := current_idx s in
  let W := num_workers cfg in
  let n := (W * (1 + num_retries cfg))%nat in
  (shutdown_at_entry e = true →
   add_or_run e cfg t s = (mkState (S idx) (qs s), Dropped))
  ∧ (shutdown_at_entry e = false →
     ∀ k, (k < n)%nat → shutdown_seen e k = true →
       (∀ m, (m < k)%nat →
          shutdown_seen e m = false
          ∧ probe_succeeds true m ((idx + m) mod W)%nat (qs s) = false) →
       add_or_run e cfg t s = (mkState (S idx) (qs s), RunByCaller)).
Proof.
  intros idx W n. unfold add_or_run. fold idx. split.
  - by intros ->.
  - intros -> k Hk Hstop Hbefore. unfold try_add. fold W n.
    rewrite (try_add_loop_stops _ 0 t true (qs s) k); [done| |done|].
    + by rewrite length_fmap, length_seq.
    + simpl. intros m i Hm [_ ->]%probes_lookup_inv. by apply Hbefore.
Qed.

End TaskSystemSpec.

(** Two workers, no retries: the first queue is locked by someone else, the
    second is free and gets the task. *)
Lemma add_enqueues_once_witness :
  TaskSystem.add
    (TaskSystem.mkEnv false (λ _, false) (λ k, bool_decide (k = 1%nat)))
    (TaskSystem.mkSettings 2 0 32) "task" (TaskSystem.mkState 0 [["a"]; []])
  = (TaskSystem.mkState 1 [["a"]; ["task"]], TaskSystem.Enqueued).
Proof.
  pose (env0 := TaskSystem.mkEnv false (λ _, false) (λ k, bool_decide (k = 1%nat))).
  destruct (add_enqueues_once env0 (TaskSystem.mkSettings 2 0 32) "task"
              (TaskSystem.mkState 0 [["a"]; []]) eq_refl eq_refl)
    as (j & Hj & Hadd & _ & Hprobe); [simpl; lia|].
  destruct (Hprobe (λ _ _, eq_refl)) as [Hfirst _].
  rewrite (Hfirst 1%nat) in Hadd.
  - exact Hadd.
  - simpl. lia.
  - reflexivity.
  - intros k' Hk'. assert (k' = 0%nat) as -> by lia. reflexivity.
Defined.


(** One worker whose queue is free, the flag unset on entry and set when
    the only probe looks at it: the caller runs the task. *)
Lemma add_or_run_on_shutdown_witness :
  TaskSystem.add_or_run
    (TaskSystem.mkEnv false (λ _, true) (λ _, true))
    (TaskSystem.mkSettings 1 0 32) "task" (TaskSystem.mkState 0 [[]])
  = (TaskSystem.mkState 1 [[]], TaskSystem.RunByCaller).
Proof.
  pose (env0 := TaskSystem.mkEnv false (λ _, true) (λ _, true)).
  destruct (add_or_run_on_shutdown env0 (TaskSystem.mkSettings 1 0 32) "task"
              (TaskSystem.mkState 0 [[]])) as [_ Hlater].
  apply (Hlater eq_refl 0%nat).
  - simpl. lia.
  - reflexivity.
  - intros m Hm. lia.
Defined.

(** C9, as stated, fails on its second case: with the flag unset on entry
    and set before the first probe, the task is not dropped; the caller
    runs it. *)
Lemma add_or_run_late_shutdown_runs :
  snd (TaskSystem.add_or_run
         (TaskSystem.mkEnv false (λ _, true) (λ _, true))
         (TaskSystem.mkSettings 2 4 32) "task"
         (TaskSystem.mkState 0 [[]; []]))
  = TaskSystem.RunByCaller
  ∧ TaskSystem.RunByCaller ≠ TaskSystem.Dropped.
Proof. split; [reflexivity|discriminate]. Qed.


(** ** Decimal strings and snapshot names *)

Section Names.
Import StageManager.

Lemma decimal_dotless (s : string) : decimal s → dotless s.
Proof.
  induction s as [|c s IH]; [done|]. intros [Hc Hs]. split; [|auto].
  intros ->. by apply list_elem_of_In in Hc; compute in Hc; intuition.
Qed.

Lemma pretty_N_go_decimal (x : N) (s : string) :
  decimal s → decimal (pretty_N_go x s).
Proof.
  revert s. induction (N.lt_wf_0 x) as [x _ IH]; intros s Hs.
  destruct (decide (0 < x)%N) as [Hx|Hx].
  - rewrite pretty_N_go_step by done. apply IH.
    + by apply N.div_lt.
    + split; [|done]. unfold pretty_N_char, decimal_char.
      repeat case_match; apply list_elem_of_In; compute; tauto.
  - assert (x = 0%N) as -> by lia. by rewrite pretty_N_go_0.
Qed.

Lemma str_decimal (n : Z) : decimal (str n).
Proof.
  assert (∀ x : N, decimal (pretty x)) as HN.
  { intros x. unfold pretty, pretty_N. case_decide.
    - split; [|done]. apply list_elem_of_In; compute; tauto.
    - by apply pretty_N_go_decimal. }
  unfold str, pretty, pretty_Z. destruct n as [|p|p].
  - split; [|done]. apply list_elem_of_In; compute; tauto.
  - apply HN.
  - split; [|apply HN]. apply list_elem_of_In; compute; tauto.
Qed.

Lemma str_dotless (n : Z) : dotless (str n).
Proof. apply decimal_dotless, str_decimal. Qed.

Lemma str_inj (m n : Z) : str m = str n → m = n.
Proof. apply (inj pretty). Qed.

Lemma append_nil_l (s : string) : "" +:+ s = s.
Proof. reflexivity. Qed.

Lemma append_cons (c : ascii) (a s : string) :
  String c a +:+ s = String c (a +:+ s).
Proof. reflexivity. Qed.

Lemma snapshot_name_unfold (a d : string) :
  snapshot_name a d = a +:+ String "." d.
Proof. reflexivity. Qed.

(** A dotless string is no snapshot name. *)
Lemma dotless_not_dotted (x d d' : string) :
  dotless d → d ≠ x +:+ String "." d'.
Proof.
  revert d. induction x as [|c x IH]; intros d Hd Heq.
  - rewrite append_nil_l in Heq. subst d. by destruct Hd.
  - rewrite append_cons in Heq. destruct d as [|c' d]; [done|].
    injection Heq as -> ->. by apply (IH _ (proj2 Hd)).
Qed.

(** A snapshot name splits at its last dot in one way only. *)
Lemma snapshot_name_inj (a b d1 d2 : string) :
  dotless d1 → dotless d2 →
  snapshot_name a d1 = snapshot_name b d2 → a = b ∧ d1 = d2.
Proof.
  rewrite !snapshot_name_unfold. intros H1 H2. revert b.
  induction a as [|c a IH]; intros [|c' b];
    rewrite ?append_nil_l, ?append_cons; intros Heq.
  - by injection Heq as ->.
  - injection Heq as <- Heq. by destruct (dotless_not_dotted b d1 d2 H1).
  - injection Heq as -> Heq. by destruct (dotless_not_dotted a d2 d1 H2).
  - injection Heq as -> Heq. destruct (IH _ Heq) as [-> ->]. done.
Qed.

Lemma snapshot_name_str_inj (a b : string) (i j : Z) :
  snapshot_name a (str i) = snapshot_name b (str j) → a = b ∧ i = j.
Proof.
  intros [-> Hs]%snapshot_name_inj; auto using str_dotless.
  split; [done|]. by apply str_inj.
Qed.

Lemma snapshot_name_not_dname (a : string) (i : Z) :
  snapshot_name a (str i) ≠ dname.
Proof.
  intros Heq. change dname with (snapshot_name "" "delete") in Heq.
  apply snapshot_name_inj in Heq as [_ Heq]; [|apply str_dotless|by compute].
  pose proof (str_decimal i) as Hd. rewrite Heq in Hd.
  destruct Hd as [Hd _]. by apply list_elem_of_In in Hd; compute in Hd; intuition.
Qed.

Lemma range_length (n : Z) : Z.of_nat (length (range n)) = Z.max 0 n.
Proof. unfold range. rewrite length_fmap, length_seq. lia. Qed.

Lemma range_lookup (n j : Z) :
  0 ≤ j < n → range n !! Z.to_nat j = Some j.
Proof.
  intros Hj. unfold range. rewrite list_lookup_fmap, lookup_seq_lt by lia.
  simpl. f_equal. lia.
Qed.

Lemma elem_of_range (n j : Z) : j ∈ range n ↔ 0 ≤ j < n.
Proof.
  unfold range. rewrite list_elem_of_fmap. setoid_rewrite elem_of_seq. split.
  - intros (k & -> & Hk). lia.
  - intros Hj. exists (Z.to_nat j). lia.
Qed.

Lemma NoDup_range (n : Z) : NoDup (range n).
Proof.
  unfold range. apply NoDup_fmap; [|apply NoDup_seq]. intros ?? ?; lia.
Qed.

(** The names of one stage, the inner comprehension. *)
Lemma stage_names_fmap (s : Stage) :
  (i ← range (keep s); [snapshot_name (name s) (str i)])
  = (λ i, snapshot_name (name s) (str i)) <$> range (keep s).
Proof. induction (range (keep s)) as [|i l IH]; [done|]. simpl. by f_equal. Qed.

Lemma snapshot_names_cons (s : Stage) (stages : list Stage) :
  snapshot_names (s :: stages)
  = ((λ i, snapshot_name (name s) (str i)) <$> range (keep s))
    ++ snapshot_names stages.
Proof. unfold snapshot_names. simpl. by rewrite stage_names_fmap. Qed.

Lemma snapshot_names_app (l1 l2 : list Stage) :
  snapshot_names (l1 ++ l2) = snapshot_names l1 ++ snapshot_names l2.
Proof. unfold snapshot_names. apply bind_app. Qed.

Lemma elem_of_snapshot_names (stages : list Stage) (x : string) :
  x ∈ snapshot_names stages ↔
  ∃ s j, s ∈ stages ∧ 0 ≤ j < keep s ∧ x = snapshot_name (name s) (str j).
Proof.
  unfold snapshot_names. rewrite list_elem_of_bind. split.
  - intros (s & Hx & Hs). rewrite stage_names_fmap in Hx.
    apply list_elem_of_fmap in Hx as (j & -> & Hj%elem_of_range). eauto.
  - intros (s & j & Hs & Hj & ->). exists s. split; [|done].
    rewrite stage_names_fmap. apply list_elem_of_fmap. exists j.
    by rewrite elem_of_range.
Qed.

Lemma snapshot_names_length (stages : list Stage) :
  Z.of_nat (length (snapshot_names stages)) = total_keep stages.
Proof.
  induction stages as [|s stages IH]; [done|].
  rewrite snapshot_names_cons, length_app, length_fmap. simpl.
  rewrite <- IH, <- range_length. lia.
Qed.

Lemma snapshot_names_lookup (stages : list Stage) (i : nat) (st : Stage) (j : Z) :
  stages !! i = Some st → 0 ≤ j < keep st →
  snapshot_names stages !! (length (snapshot_names (take i stages)) + Z.to_nat j)%nat
  = Some (snapshot_name (name st) (str j)).
Proof.
  intros Hi Hj. remember (length (snapshot_names (take i stages))) as k eqn:Hk.
  rewrite <- (take_drop_middle _ _ _ Hi).
  rewrite snapshot_names_app, lookup_app_r by lia.
  replace (_ + _ - _)%nat with (Z.to_nat j) by lia.
  rewrite snapshot_names_cons, lookup_app_l.
  - by rewrite list_lookup_fmap, range_lookup.
  - pose proof (range_length (keep st)). rewrite length_fmap. lia.
Qed.

Lemma snapshot_names_NoDup (stages : list Stage) :
  NoDup (name <$> stages) → NoDup (snapshot_names stages).
Proof.
  induction stages as [|s stages IH]; [constructor|].
  rewrite fmap_cons, NoDup_cons. intros [Hs Hnd].
  rewrite snapshot_names_cons. apply NoDup_app. split_and!.
  - apply NoDup_fmap; [|apply NoDup_range].
    intros i j [_ ?]%snapshot_name_str_inj. done.
  - intros x (i & -> & _)%list_elem_of_fmap (s' & j & Hs' & _ & Heq)%elem_of_snapshot_names.
    apply snapshot_name_str_inj in Heq as [Heq _]. apply Hs.
    rewrite Heq. by apply list_elem_of_fmap_2.
  - by apply IH.
Qed.

End Names.

(** ** StageManager.snapshot_names *)

Section SnapshotNames.
Import StageManager.

(** C7 (amended).  For every configuration whose stage names are pairwise
    distinct, [snapshot_names()] returns the sum of [max(keep_i, 0)] names
    (the sum of [keep_i] when no keep is negative), in declared stage order
    with ascending indices within each stage ([name_i + "." + j] stands at
    position [j] after the names of the stages before [i]), and the names
    are pairwise distinct. *)
Theorem snapshot_names_universe (stages : list Stage)
    (Hnames : NoDup (name <$> stages)) :
  Z.of_nat (length (snapshot_names stages)) = total_keep stages
  ∧ (Forall (λ s, 0 ≤ keep s) stages →
     Z.of_nat (length (snapshot_names stages)) = foldr Z.add 0 (keep <$> stages))
  ∧ (∀ (i : nat) (st : Stage) (j : Z),
       stages !! i = Some st → 0 ≤ j < keep st →
       snapshot_names stages
         !! (length (snapshot_names (take i stages)) + Z.to_nat j)%nat
       = Some (name st +:+ "." +:+ str j))
  ∧ NoDup (snapshot_names stages).
Proof.
  split_and!.
  - apply snapshot_names_length.
  - intros Hkeep. rewrite snapshot_names_length.
    induction Hkeep as [|s l Hs _ IH]; [done|].
    rewrite fmap_cons. simpl. rewrite IH by (by eapply NoDup_cons_1_2). lia.
  - apply snapshot_names_lookup.
  - by apply snapshot_names_NoDup.
Qed.

(** The configuration of the specification: 24 hourly, 7 daily and 4 weekly
    snapshots give 35 distinct names. *)
Lemma snapshot_names_universe_witness :
  let stages := fst (load_stages_from_config
    (mkConfig 3600 [("hourly", 24); ("daily", 7); ("weekly", 4)])) in
  Z.of_nat (length (snapshot_names stages)) = 35
  ∧ NoDup (snapshot_names stages).
Proof.
  intros stages.
  assert (NoDup (name <$> stages)) as Hnames.
  { apply (bool_decide_unpack _). by vm_compute. }
  destruct (snapshot_names_universe stages Hnames) as (Hlen & _ & _ & Hnd).
  split; [exact Hlen|exact Hnd].
Defined.

(** C7, as stated, fails for a configuration that names two stages alike:
    the same snapshot name is returned twice. *)
Lemma snapshot_names_duplicates :
  snapshot_names [mkStage "a" 60 1; mkStage "a" 60 1] = ["a.0"; "a.0"]
  ∧ ¬ NoDup (snapshot_names [mkStage "a" 60 1; mkStage "a" 60 1]).
Proof.
  split; [by vm_compute|].
  intros Hnd. apply NoDup_cons in Hnd as [Hnotin _]. apply Hnotin.
  by vm_compute; left.
Qed.

End SnapshotNames.

(** ** StageManager.__next_after *)

Section NextAfter.
Import StageManager.

Lemma next_after_loop_none (e : Z) (l : list Stage) :
  Forall (λ s, interval s ≠ 0 ∧ ¬ fits e s) l →
  next_after_loop e l = Ok None.
Proof.
  induction 1 as [|s l [Hs Hfit] _ IH]; [done|]. simpl.
  unfold int_truediv. rewrite decide_False by done. simpl.
  by rewrite decide_False.
Qed.

Lemma next_after_loop_fit (e : Z) (l1 l2 : list Stage) (st : Stage) :
  Forall (λ s, interval s ≠ 0 ∧ ¬ fits e s) l1 →
  interval st ≠ 0 → fits e st →
  next_after_loop e (l1 ++ st :: l2)
  = Ok (Some (snapshot_name (name st) (str (e ÷ interval st)))).
Proof.
  intros Hl1 Hst Hfit. induction Hl1 as [|s l [Hs Hnofit] _ IH]; simpl.
  - unfold int_truediv. rewrite decide_False by done. simpl.
    by rewrite decide_True.
  - unfold int_truediv. rewrite decide_False by done. simpl.
    by rewrite decide_False.
Qed.

Lemma next_after_loop_zero (e : Z) (st : Stage) (l : list Stage) :
  interval st = 0 → next_after_loop e (st :: l) = Raise ZeroDivisionError.
Proof. intros Hst. simpl. unfold int_truediv. by rewrite decide_True. Qed.

(** The stages [stage_id .. i - 1], then stage [i], then the rest. *)
Lemma drop_split_at (stages : list Stage) (stage_id i : nat) (sti : Stage) :
  (stage_id ≤ i)%nat → stages !! i = Some sti →
  drop stage_id stages
  = take (i - stage_id) (drop stage_id stages) ++ sti :: drop (S i) stages.
Proof.
  intros Hle Hi.
  rewrite <- (take_drop (i - stage_id) (drop stage_id stages)) at 1.
  f_equal. rewrite drop_drop.
  replace (stage_id + (i - stage_id))%nat with i by lia.
  by apply drop_S.
Qed.

(** C3 (amended).  [__next_after(stage_id, num)] returns [None] when the
    snapshot's timestamp cannot be read; otherwise, with [e] the time
    elapsed since the stored timestamp, it returns the name of the first
    stage [i] from [stage_id] on, with index [q], where [q] is [e / interval_i]
    truncated toward zero (not floored) and [0 <= q < keep_i], and it returns
    [None] when no stage from [stage_id] to the last has such an index; the
    intervals of the stages it looks at are taken to be non-zero. *)
Theorem next_after_first_fit (now : Z) (stages : list Stage)
    (stamps : gmap string stamp) (stage_id : nat) (num : Z) (st : Stage)
    (Hid : stages !! stage_id = Some st) :
  let snapshot := snapshot_name (name st) (str num) in
  (read stamps snapshot = None →
   next_after now stages stamps stage_id num = Ok None)
  ∧ (∀ t : Z, read stamps snapshot = Some t →
     let e := now - t in
     (∀ (i : nat) (sti : Stage),
        (stage_id ≤ i)%nat → stages !! i = Some sti →
        interval sti ≠ 0 → fits e sti →
        (∀ (j : nat) (stj : Stage),
           (stage_id ≤ j < i)%nat → stages !! j = Some stj →
           interval stj ≠ 0 ∧ ¬ fits e stj) →
        next_after now stages stamps stage_id num
        = Ok (Some (name sti +:+ "." +:+ str (e ÷ interval sti))))
     ∧ ((∀ (j : nat) (stj : Stage),
           (stage_id ≤ j)%nat → stages !! j = Some stj →
           interval stj ≠ 0 ∧ ¬ fits e stj) →
        next_after now stages stamps stage_id num = Ok None)).
Proof.
  intros snapshot. unfold next_after, elapsed. rewrite Hid. fold snapshot.
  split; [by intros ->|]. intros t ->. simpl. split.
  - intros i sti Hle Hi Hnz Hfit Hbefore.
    rewrite (drop_split_at stages stage_id i sti Hle Hi).
    apply next_after_loop_fit; [|done..].
    apply Forall_lookup. intros k stj Hk.
    apply lookup_take_Some in Hk as [Hk Hlt]. rewrite lookup_drop in Hk.
    apply (Hbefore (stage_id + k)%nat); [lia|done].
  - intros Hall. apply next_after_loop_none.
    apply Forall_lookup. intros k stj Hk. rewrite lookup_drop in Hk.
    apply (Hall (stage_id + k)%nat); [lia|done].
Qed.

(** Hourly snapshots kept for a day, daily ones for a week: a snapshot
    taken 90000 seconds ago has left the hourly stage and is [daily.1]. *)
Lemma next_after_first_fit_witness :
  next_after 90000 [mkStage "hourly" 3600 24; mkStage "daily" 86400 7]
    {[ "hourly.3" := Stamp 0 ]} 0 3
  = Ok (Some "daily.1").
Proof.
  pose (stages := [mkStage "hourly" 3600 24; mkStage "daily" 86400 7]).
  destruct (next_after_first_fit 90000 stages {[ "hourly.3" := Stamp 0 ]}
              0 3 (mkStage "hourly" 3600 24) eq_refl) as [_ Hread].
  destruct (Hread 0 eq_refl) as [Hfit _].
  apply (Hfit 1%nat (mkStage "daily" 86400 7)).
  - lia.
  - reflexivity.
  - done.
  - by vm_compute.
  - intros j stj Hj Hlook. assert (j = 0%nat) as -> by lia.
    injection Hlook as <-. split; [done|]. by vm_compute; intros [_ ?].
Defined.

(** C3, as stated, fails when the stored timestamp lies in the future: one
    second of negative elapsed time floors to index [-1], outside every
    stage, so the stated rule gives [None]; the code truncates to [0] and
    returns [hourly.0]. *)
Lemma next_after_not_floor :
  next_after 0 [mkStage "hourly" 3600 24] {[ "hourly.0" := Stamp 1 ]} 0 0
  = Ok (Some "hourly.0")
  ∧ next_after_floor 0 [mkStage "hourly" 3600 24] {[ "hourly.0" := Stamp 1 ]} 0 0
    = None.
Proof. split; by vm_compute. Qed.

(** The intervals [load_stages_from_config] computes: zero from the first
    stage on when the base interval is zero, and zero after a stage whose
    keep is zero. *)
Lemma load_stages_lookup (base : Z) (l : list (string * Z)) (i : nat) (st : Stage) :
  load_stages base l !! i = Some st →
  ∃ n k, l !! i = Some (n, k) ∧ name st = n ∧ keep st = k.
Proof.
  revert base i. induction l as [|[n k] l IH]; intros base [|i] Hi; simplify_eq/=.
  - eauto.
  - eauto.
Qed.

Lemma load_stages_interval_zero (base : Z) (l : list (string * Z)) (i : nat)
    (st : Stage) :
  load_stages base l !! i = Some st →
  base = 0 ∨ (∃ k nk, (k < i)%nat ∧ l !! k = Some (nk, 0)) →
  interval st = 0.
Proof.
  revert base i. induction l as [|[n k] l IH]; intros base [|i] Hi Hz; simplify_eq/=.
  - destruct Hz as [->|(k' & nk & Hk' & _)]; [done|lia].
  - apply (IH _ _ Hi). destruct Hz as [->|(k' & nk & Hk' & Hlook)]; [left; lia|].
    destruct k' as [|k']; simplify_eq/=; [left; lia|].
    right. exists k', nk. split; [lia|done].
Qed.

(** C10.  The division in [__next_after] is unguarded: with a readable
    timestamp, a configuration whose base interval is zero, or one that has a
    stage with keep zero before stage [stage_id], makes the interval of stage
    [stage_id] zero, and [__next_after(stage_id, num)] raises
    [ZeroDivisionError] instead of returning a name or [None]. *)
Theorem next_after_zero_division (now : Z) (cfg : Config)
    (stamps : gmap string stamp) (stage_id : nat) (num : Z) (st : Stage) (t : Z)
    (Hid : (load_stages_from_config cfg).1 !! stage_id = Some st)
    (Hread : read stamps (snapshot_name (name st) (str num)) = Some t)
    (Hzero : cfg_interval cfg = 0
             ∨ ∃ k nk, (k < stage_id)%nat ∧ cfg_stages cfg !! k = Some (nk, 0)) :
  interval st = 0
  ∧ next_after now (load_stages_from_config cfg).1 stamps stage_id num
    = Raise ZeroDivisionError.
Proof.
  simpl in *.
  assert (interval st = 0) as Hst by (by eapply load_stages_interval_zero).
  split; [done|]. unfold next_after, elapsed. rewrite Hid, Hread. simpl.
  rewrite (drop_S _ _ _ Hid). by apply next_after_loop_zero.
Qed.

(** Both kinds of configuration: a base interval of zero, and a first stage
    that keeps nothing, which zeroes the interval of the second. *)
Lemma next_after_zero_division_witness :
  next_after 100
    (load_stages_from_config (mkConfig 0 [("hourly", 24)])).1
    {[ "hourly.0" := Stamp 40 ]} 0 0
  = Raise ZeroDivisionError
  ∧ next_after 100
      (load_stages_from_config (mkConfig 3600 [("hourly", 0); ("daily", 7)])).1
      {[ "daily.0" := Stamp 40 ]} 1 0
    = Raise ZeroDivisionError.
Proof.
  split.
  - apply (next_after_zero_division 100 (mkConfig 0 [("hourly", 24)])
             {[ "hourly.0" := Stamp 40 ]} 0 0 (mkStage "hourly" 0 24) 40).
    + reflexivity.
    + reflexivity.
    + by left.
  - apply (next_after_zero_division 100
             (mkConfig 3600 [("hourly", 0); ("daily", 7)])
             {[ "daily.0" := Stamp 40 ]} 1 0 (mkStage "daily" 0 7) 40).
    + reflexivity.
    + reflexivity.
    + right. exists 0%nat, "hourly". split; [lia|reflexivity].
Defined.

End NextAfter.

(** ** StageManager.rotate *)

Section RotateSpec.
Import StageManager.
Context {tree : Type}.
Variable now : Z.
Variable stages : list Stage.

Abbreviation disk := (disk tree).
Abbreviation rotate_events := (rotate_events stages).
Abbreviation rotate_event := (rotate_event now stages).

Lemma for_each_raise {A S : Type} (l : list A) (body : A → S → result S) (e : exn) :
  foldl (λ acc x, s ← acc; body x s) (Raise e) l = Raise e.
Proof. by induction l. Qed.

Lemma for_each_cons {A S : Type} (x : A) (l : list A)
    (body : A → S → result S) (s : S) :
  for_each (x :: l) body s = s' ← body x s; for_each l body s'.
Proof.
  unfold for_each. simpl. destruct (body x s) as [s'|e]; [done|].
  apply for_each_raise.
Qed.

Lemma for_each_app {A S : Type} (l1 l2 : list A)
    (body : A → S → result S) (s : S) :
  for_each (l1 ++ l2) body s = s' ← for_each l1 body s; for_each l2 body s'.
Proof.
  revert s. induction l1 as [|x l1 IH]; intros s; [done|].
  rewrite <- app_comm_cons, !for_each_cons.
  destruct (body x s) as [s'|e]; [apply IH|done].
Qed.

Lemma for_each_fmap {A B S : Type} (f : A → B) (l : list A)
    (body : B → S → result S) (s : S) :
  for_each (f <$> l) body s = for_each l (λ x, body (f x)) s.
Proof.
  revert s. induction l as [|x l IH]; intros s; [done|].
  rewrite fmap_cons, !for_each_cons. destruct (body (f x) s); [apply IH|done].
Qed.

Lemma for_each_bind {A B S : Type} (f : A → list B) (l : list A)
    (body : B → S → result S) (s : S) :
  for_each (l ≫= f) body s = for_each l (λ x, for_each (f x) body) s.
Proof.
  revert s. induction l as [|x l IH]; intros s; [done|].
  rewrite bind_cons, for_each_app, for_each_cons.
  destruct (for_each (f x) body s); [apply IH|done].
Qed.

Lemma for_each_ext_in {A S : Type} (l : list A) (body1 body2 : A → S → result S)
    (s : S) :
  (∀ x s', x ∈ l → body1 x s' = body2 x s') →
  for_each l body1 s = for_each l body2 s.
Proof.
  revert s. induction l as [|x l IH]; intros s Hext; [done|].
  rewrite !for_each_cons, Hext by left.
  destruct (body2 x s); [|done]. apply IH. intros; apply Hext. by right.
Qed.

Lemma rotate_stage_events (stage_id : nat) (stage : Stage) (d : disk) :
  stages !! stage_id = Some stage →
  rotate_stage now stages stage_id d
  = for_each (stage_events stage_id stage) rotate_event d.
Proof.
  intros Hst. unfold rotate_stage, stage_events.
  rewrite Hst, for_each_cons. simpl. by rewrite for_each_fmap.
Qed.

Lemma rotate_as_events (d : disk) :
  rotate now stages d = for_each rotate_events rotate_event d.
Proof.
  unfold rotate, rotate_events. rewrite for_each_bind.
  replace (seq 0 (length stages)) with ((imap pair stages).*1).
  - rewrite <- fmap_reverse, for_each_fmap. apply for_each_ext_in.
    intros [k st] d' Hin%elem_of_reverse%elem_of_lookup_imap.
    destruct Hin as (k' & st' & [= -> ->] & Hk). by apply rotate_stage_events.
  - rewrite fmap_imap. apply list_eq. intros k.
    rewrite list_lookup_imap. destruct (stages !! k) as [st|] eqn:Hk; simpl.
    + symmetry. apply lookup_seq. split; [done|]. by eapply lookup_lt_Some.
    + symmetry. apply lookup_seq_ge. by apply lookup_ge_None.
Qed.


Lemma has_true (d : disk) (x : string) :
  has d x = true ↔ is_Some (snapshots d !! x).
Proof. unfold has. by rewrite bool_decide_eq_true. Qed.

Lemma has_false (d : disk) (x : string) :
  has d x = false ↔ snapshots d !! x = None.
Proof. unfold has. by rewrite bool_decide_eq_false, eq_None_not_Some. Qed.

Lemma has_log (msg : string) (n : nat) (d : disk) (x : string) :
  has (log msg n d) x = has d x.
Proof. done. Qed.

Lemma rm_removed (src : string) (d : disk) :
  has d src = true → src ≠ dname →
  ∃ d', rm src false d = Ok d' ∧ removed src d d'.
Proof.
  intros Hhas Hne. pose proof Hhas as [t Ht]%has_true.
  unfold rm. rewrite Hhas.
  assert (∃ d1, (if has d dname then rmtree dname d else d) = d1
                ∧ snapshots d1 = delete dname (snapshots d)
                ∧ stamps d1 = stamps d) as (d1 & -> & Hd1 & Hs1).
  { destruct (has d dname) eqn:Hdel; eexists; split_and!; try done.
    apply has_false in Hdel. by rewrite delete_id. }
  assert (has d1 dname = false) as Hfree.
  { apply has_false. rewrite Hd1. apply lookup_delete_eq. }
  unfold rename. rewrite Hd1, lookup_delete_ne, Ht, decide_False, Hfree by done.
  eexists. split; [reflexivity|]. unfold removed, timestamp_remove.
  cbn [snapshots stamps]. rewrite Hs1. split_and!.
  - rewrite lookup_insert_ne by done. apply lookup_delete_eq.
  - apply lookup_delete_eq.
  - by rewrite lookup_insert_eq.
  - intros x Hx Hx'. by rewrite lookup_insert_ne, !lookup_delete_ne.
  - intros x Hx. by rewrite lookup_delete_ne.
Qed.

Lemma mv_moved (src tgt : string) (d : disk) :
  has d src = true → has d tgt = false → src ≠ tgt →
  is_Some (stamps d !! src) →
  ∃ d', mv src tgt d = Ok d' ∧ moved src tgt d d'.
Proof.
  intros [t Ht]%has_true Htgt Hne [s Hs]. unfold mv, timestamp_copy, rename.
  rewrite Hs. simpl. rewrite Ht, decide_False by done.
  assert (has (mkDisk (snapshots d) (<[tgt:=s]> (stamps d)) (logged d)) tgt = false)
    as -> by done.
  eexists. split; [reflexivity|]. unfold moved, timestamp_remove.
  cbn [snapshots stamps]. split_and!.
  - by rewrite lookup_insert_eq.
  - rewrite lookup_insert_ne by done. apply lookup_delete_eq.
  - by rewrite lookup_delete_ne, lookup_insert_eq.
  - apply lookup_delete_eq.
  - intros x Hx Hx'.
    by rewrite lookup_insert_ne, !lookup_delete_ne, lookup_insert_ne.
Qed.

Lemma rm_log_removed (msg : string) (n : nat) (src : string) (d : disk) :
  has d src = true → src ≠ dname →
  ∃ d', rm src false (log msg n d) = Ok d' ∧ removed src d d'.
Proof. intros Hhas Hne. by apply (rm_removed src (log msg n d)). Qed.

Lemma mv_log_moved (msg : string) (n : nat) (src tgt : string) (d : disk) :
  has d src = true → has d tgt = false → src ≠ tgt →
  is_Some (stamps d !! src) →
  ∃ d', mv src tgt (log msg n d) = Ok d' ∧ moved src tgt d d'.
Proof. intros. by apply (mv_moved src tgt (log msg n d)). Qed.

(** A name [__next_after] returns is a snapshot name, and its source has
    a readable stamp. *)
Lemma next_after_loop_name (e : Z) (l : list Stage) (tgt : string) :
  next_after_loop e l = Ok (Some tgt) →
  ∃ a j, tgt = snapshot_name a (str j).
Proof.
  induction l as [|st l IH]; [done|]. simpl. unfold int_truediv.
  case_decide; [done|]. simpl. case_decide; [|done]. intros [= <-]. eauto.
Qed.

Lemma next_after_name (stamps : gmap string stamp) (stage_id : nat) (i : Z)
    (stage : Stage) (tgt : string) :
  stages !! stage_id = Some stage →
  next_after now stages stamps stage_id i = Ok (Some tgt) →
  (∃ a j, tgt = snapshot_name a (str j))
  ∧ is_Some (stamps !! snapshot_name (name stage) (str i)).
Proof.
  unfold next_after, elapsed, read. intros -> Hnext.
  destruct (stamps !! _) as [[t|]|]; simplify_eq/=.
  split; [by eapply next_after_loop_name|eauto].
Qed.

Lemma snapshot_name_truthy (a : string) (j : Z) :
  truthy (Some (snapshot_name a (str j))) = true.
Proof.
  rewrite snapshot_name_unfold. destruct a as [|c a]; by rewrite ?append_cons.
Qed.


End RotateSpec.


(** ** File trees: induction and the loops over a directory *)

Section Trees.
Import FileSystem.

Lemma size_child (perm mtime : Z) (entries : gmap string node)
    (name : string) (c : node) :
  entries !! name = Some c → (size c < size (Dir perm mtime entries))%nat.
Proof.
  simpl. intros Hc. apply Nat.lt_succ_r. revert name c Hc.
  apply (map_fold_weak_ind
           (λ r (m : gmap string node), ∀ name c, m !! name = Some c → (size c ≤ r)%nat)).
  - intros name c. by rewrite lookup_empty.
  - intros i x m r Hi IH name c. rewrite lookup_insert. case_decide.
    + intros [= ->]. lia.
    + intros Hc. specialize (IH name c Hc). lia.
Qed.

(** Induction on a tree: a property of the entries gives it for the
    directory. *)
Lemma node_tree_ind (P : node → Prop) :
  (∀ kind perm mtime data, P (File kind perm mtime data)) →
  (∀ perm mtime entries,
     (∀ name c, entries !! name = Some c → P c) → P (Dir perm mtime entries)) →
  ∀ n, P n.
Proof.
  intros Hfile Hdir n. remember (size n) as k eqn:Hk. revert n Hk.
  induction k as [k IH] using lt_wf_ind. intros [kind perm mtime data|perm mtime entries] ->.
  - apply Hfile.
  - apply Hdir. intros name c Hc. apply (IH (size c)); [|done].
    by eapply size_child.
Qed.

Lemma set_entry_lookup (name name' : string) (slot : option node)
    (entries : gmap string node) :
  set_entry name slot entries !! name'
  = if decide (name = name') then slot else entries !! name'.
Proof.
  unfold set_entry. case_decide as Hn.
  - subst. by rewrite lookup_partial_alter_eq.
  - by rewrite lookup_partial_alter_ne.
Qed.

(** A loop that sets, for each key of [m], what the target holds under
    that key: every name of the result is decided by its own step. *)
Lemma fold_entries_lookup {A : Type}
    (f : string → A → option node → result (option node))
    (m : gmap string A) (tes0 tes' : gmap string node) :
  map_fold (λ name a acc,
              tes ← acc; slot ← f name a (tes !! name);
              Ok (set_entry name slot tes)) (Ok tes0) m = Ok tes' →
  ∀ name,
    match m !! name with
    | Some a => f name a (tes0 !! name) = Ok (tes' !! name)
    | None => tes' !! name = tes0 !! name
    end.
Proof.
  revert tes'.
  apply (map_fold_weak_ind
           (λ r (m : gmap string A), ∀ tes', r = Ok tes' →
              ∀ name, match m !! name with
                      | Some a => f name a (tes0 !! name) = Ok (tes' !! name)
                      | None => tes' !! name = tes0 !! name
                      end)).
  - intros tes' [= <-] name. by rewrite lookup_empty.
  - intros i x m' r Hi IH tes' Hstep name.
    destruct r as [tes1|]; [|done]. simpl in Hstep.
    destruct (f i x (tes1 !! i)) as [slot|] eqn:Hf; [|done].
    injection Hstep as <-. specialize (IH tes1 eq_refl).
    rewrite lookup_insert, set_entry_lookup. case_decide as Hn.
    + subst name. specialize (IH i). rewrite Hi in IH. by rewrite <- IH.
    + apply IH.
Qed.

Lemma fold_entries_ok {A : Type}
    (f : string → A → option node → result (option node))
    (m : gmap string A) (tes0 : gmap string node) :
  (∀ name a, m !! name = Some a → ∃ slot, f name a (tes0 !! name) = Ok slot) →
  ∃ tes', map_fold (λ name a acc,
                      tes ← acc; slot ← f name a (tes !! name);
                      Ok (set_entry name slot tes)) (Ok tes0) m = Ok tes'.
Proof.
  intros Hall.
  enough (∃ tes', map_fold (λ name a acc,
                      tes ← acc; slot ← f name a (tes !! name);
                      Ok (set_entry name slot tes)) (Ok tes0) m = Ok tes'
                  ∧ ∀ name, m !! name = None → tes' !! name = tes0 !! name)
    as (tes' & Heq & _) by (by exists tes').
  revert Hall.
  apply (map_fold_weak_ind
           (λ r (m : gmap string A),
              (∀ name a, m !! name = Some a → ∃ slot, f name a (tes0 !! name) = Ok slot) →
              ∃ tes', r = Ok tes'
                      ∧ ∀ name, m !! name = None → tes' !! name = tes0 !! name)).
  - intros _. exists tes0. done.
  - intros i x m' r Hi IH Hall.
    destruct IH as (tes1 & -> & Hsame).
    { intros name a Ha. apply Hall. rewrite lookup_insert_ne; [done|].
      intros ->. by rewrite Hi in Ha. }
    destruct (Hall i x) as [slot Hslot]; [by rewrite lookup_insert_eq|].
    simpl. rewrite (Hsame i Hi), Hslot. simpl. eexists. split; [done|].
    intros name Hname. rewrite set_entry_lookup. case_decide as Hn.
    + subst. by rewrite lookup_insert_eq in Hname.
    + apply Hsame. by rewrite lookup_insert_ne in Hname.
Qed.

(** A loop that collects an entry for some of the keys of [m]. *)
Lemma fold_collect_lookup {A E : Type} (g : string → A → result (option E))
    (m : gmap string A) (out : gmap string E) :
  map_fold (λ name a acc,
              out ← acc; e ← g name a;
              Ok (match e with Some x => <[name := x]> out | None => out end))
           (Ok ∅) m = Ok out →
  ∀ name,
    match m !! name with
    | Some a => g name a = Ok (out !! name)
    | None => out !! name = None
    end.
Proof.
  revert out.
  apply (map_fold_weak_ind
           (λ r (m : gmap string A), ∀ out, r = Ok out →
              ∀ name, match m !! name with
                      | Some a => g name a = Ok (out !! name)
                      | None => out !! name = None
                      end)).
  - intros out [= <-] name. by rewrite !lookup_empty.
  - intros i x m' r Hi IH out Hstep name.
    destruct r as [out1|]; [|done]. simpl in Hstep.
    destruct (g i x) as [e|] eqn:Hg; [|done].
    injection Hstep as <-. specialize (IH out1 eq_refl).
    rewrite lookup_insert. case_decide as Hn.
    + subst name. specialize (IH i). rewrite Hi in IH.
      destruct e as [x'|]; [by rewrite lookup_insert_eq|by rewrite IH].
    + specialize (IH name).
      destruct e as [x'|]; [by rewrite lookup_insert_ne|done].
Qed.

Lemma fold_collect_ok {A E : Type} (g : string → A → result (option E))
    (m : gmap string A) :
  (∀ name a, m !! name = Some a → ∃ e, g name a = Ok e) →
  ∃ out : gmap string E, map_fold (λ name a acc,
                     out ← acc; e ← g name a;
                     Ok (match e with Some x => <[name := x]> out | None => out end))
                  (Ok ∅) m = Ok out.
Proof.
  apply (map_fold_weak_ind
           (λ r (m : gmap string A),
              (∀ name a, m !! name = Some a → ∃ e, g name a = Ok e) →
              ∃ out : gmap string E, r = Ok out)).
  - intros _. by eexists.
  - intros i x m' r Hi IH Hall. destruct IH as (out1 & ->).
    { intros name a Ha. apply (Hall name a). rewrite lookup_insert_ne; [done|].
      intros ->. by rewrite Hi in Ha. }
    destruct (Hall i x) as [e He]; [by rewrite lookup_insert_eq|].
    simpl. rewrite He. simpl. by eexists.
Qed.

End Trees.

(** ** FileSystem.rmtree *)

Section RmtreeSpec.
Import FileSystem.

Lemma remove_fds_entry_dir (perm mtime : Z) (entries : gmap string node) :
  remove_fds_entry (Dir perm mtime entries)
  = rest ← map_fold (λ name c acc,
                       entries ← acc;
                       left ← (λ _ c (_ : option node), remove_fds_entry c) name c
                                (entries !! name);
                       Ok (set_entry name left entries))
                    (Ok entries) entries;
    if decide (rest = ∅) then Ok None else Raise DirectoryNotEmpty.
Proof. reflexivity. Qed.

(** The descriptor strategy removes whatever it is given. *)
Lemma remove_fds_entry_removes (n : node) : remove_fds_entry n = Ok None.
Proof.
  induction n as [|perm mtime entries IH] using node_tree_ind; [done|].
  rewrite remove_fds_entry_dir.
  destruct (fold_entries_ok (λ _ c _, remove_fds_entry c) entries entries)
    as [rest Hrest].
  { intros name c Hc. exists None. by apply (IH name). }
  rewrite Hrest. simpl. rewrite decide_True; [done|].
  apply map_eq. intros name. rewrite lookup_empty.
  pose proof (fold_entries_lookup (λ _ c _, remove_fds_entry c) _ _ _ Hrest name)
    as Hname.
  destruct (entries !! name) as [c|] eqn:Hc; [|done].
  rewrite (IH name c Hc) in Hname. by injection Hname.
Qed.

(** *** Paths into a tree *)

Lemma lookup_at_nil (root : option node) : lookup_at [] root = root.
Proof. done. Qed.

Lemma lookup_at_cons (name : string) (p : path) (root : option node) :
  lookup_at (name :: p) root = lookup_at p (child root name).
Proof. done. Qed.


Lemma lookup_at_None (p : path) : lookup_at p None = None.
Proof. by induction p. Qed.










(** *** [try_remove_parents] *)


(** *** What the pending instructions still promise *)





(** *** A task that starts takes over what it promised *)








(** *** The invariant holds along every schedule *)








Lemma special_free_child (perm mtime : Z) (entries : gmap string node)
    (name : string) (c : node) :
  special_free (Dir perm mtime entries) = true →
  entries !! name = Some c → special_free c = true.
Proof.
  simpl. revert name c.
  apply (map_fold_weak_ind
           (λ r (m : gmap string node), ∀ name c,
              r = true → m !! name = Some c → special_free c = true)).
  - intros name c _. by rewrite lookup_empty.
  - intros i x m r Hi IH name c [Hx Hr]%andb_prop. rewrite lookup_insert.
    case_decide; [by intros [= <-]|]. by apply IH.
Qed.

Lemma special_free_no_special (n : node) :
  special_free n = true → no_special (Some n).
Proof.
  intros Hn p. revert n Hn. induction p as [|name p IH]; intros n Hn x.
  - rewrite lookup_at_nil. intros [= <-]. destruct n as [k pm mt dt|pm mt es]; [|done].
    simpl in Hn. by apply negb_true_iff in Hn.
  - rewrite lookup_at_cons. destruct n as [k pm mt dt|pm mt es]; simpl.
    + by rewrite lookup_at_None.
    + destruct (es !! name) as [c|] eqn:Hc; [|by rewrite lookup_at_None].
      apply IH. by eapply special_free_child.
Qed.



End RmtreeSpec.



(** ** FileSystem.sync *)

Section SyncSpec.
Import FileSystem.
Variables umask_perm clock : Z.
Variable link : bool.

Abbreviation level := (level umask_perm clock link).
Abbreviation level_of := (level_of umask_perm clock link).

Lemma excluded_nil (rel : path) : excluded [] rel = false.
Proof. unfold excluded. apply bool_decide_eq_false. by intros ?%elem_of_nil. Qed.

Lemma entries_of_lookup (o : option node) (name : string) :
  entries_of o !! name = child o name.
Proof. by destruct o as [[]|]. Qed.

Lemma at_path_entries_of (o : option node) (q : path) :
  q ≠ [] → at_path (entries_of o) q = lookup_at q o.
Proof.
  destruct q as [|name q]; [done|]. intros _. simpl.
  by rewrite entries_of_lookup.
Qed.

(** *** The two loops, name by name *)

Lemma record_entry_unfold (rel : path) (name : string) (src_node : node)
    (tgt_node : option node) :
  record_entry [] rel name src_node tgt_node
  = let descend : result (option changes) :=
      match src_node with
      | Dir _ _ src_entries =>
          sub ← record_loop [] (record_entry []) (rel ++ [name]) src_entries
                  name tgt_node;
          Ok (Some sub)
      | File _ _ _ _ => Ok None
      end in
    if is_special (Some src_node) then Ok None
    else
      match tgt_node with
      | None => subchanges ← descend; Ok (Some (UpdateNode, subchanges))
      | Some t =>
          let sstat := node_stat src_node in
          let tstat := node_stat t in
          if negb (same_types sstat tstat) then
            subchanges ← descend; Ok (Some (CreateNode, subchanges))
          else if is_dir (Some src_node) then
            subchanges ← descend;
            Ok (Some (if negb (same_permissions sstat tstat)
                      then UpdateStat else NoChange, subchanges))
          else if decide (int_mtime sstat ≠ int_mtime tstat) then
            Ok (Some (UpdateNode, None))
          else Ok None
      end.
Proof. destruct src_node; cbn -[record_loop]; by rewrite excluded_nil. Qed.

Lemma missing_loop_lookup (src_entries tes : gmap string node)
    (m0 : gmap string (ChangeType * option changes)) (name : string) :
  map_fold (λ name (_ : node) m,
              if decide (is_Some (src_entries !! name)) then m
              else <[name := (RemoveNode, None)]> m) m0 tes !! name
  = if decide (is_Some (src_entries !! name)) then m0 !! name
    else if decide (is_Some (tes !! name)) then Some (RemoveNode, None)
    else m0 !! name.
Proof.
  set (P := λ (r : gmap string (ChangeType * option changes)) (m : gmap string node),
              r !! name = if decide (is_Some (src_entries !! name)) then m0 !! name
                          else if decide (is_Some (m !! name))
                               then Some (RemoveNode, None) else m0 !! name).
  apply (map_fold_weak_ind P); unfold P.
  - case_decide; [done|]. rewrite decide_False; [done|].
    rewrite lookup_empty. by intros [].
  - intros i x m' r Hi IH.
    destruct (decide (i = name)) as [->|Hne].
    + case_decide as Hs; [done|].
      rewrite !lookup_insert_eq. by rewrite decide_True by eauto.
    + rewrite (lookup_insert_ne m') by done.
      rewrite <- IH. destruct (decide (is_Some (src_entries !! i))); [done|].
      by rewrite lookup_insert_ne.
Qed.

Lemma chars_loop_lookup (src_entries : gmap string node) (rel : path)
    (from_src : result (gmap string (ChangeType * option changes)))
    (l : list string) (m : gmap string (ChangeType * option changes))
    (name : string) :
  foldr (λ name acc,
           m ← acc;
           if decide (name = ".") then
             if excluded [] rel then Ok m else Raise RecursionError
           else Ok (if decide (is_Some (src_entries !! name)) then m
                    else if excluded [] (rel ++ [name]) then m
                    else <[name := (RemoveNode, None)]> m))
        from_src l = Ok m →
  ∃ m0, from_src = Ok m0
        ∧ (is_Some (src_entries !! name) → m !! name = m0 !! name)
        ∧ (m !! name = m0 !! name ∨ m !! name = Some (RemoveNode, None)).
Proof.
  revert m. induction l as [|c l IH]; intros m; simpl.
  - intros ->. exists m. split; [done|]. split; [done|by left].
  - destruct (foldr _ _ l) as [m1|] eqn:Hfold; [|done]. simpl.
    destruct (IH m1 eq_refl) as (m0 & Hsrc & IH1 & IH2). case_decide.
    + done.
    + intros [= <-]. exists m0. split; [done|]. case_decide as Hs; [done|].
      destruct (decide (c = name)) as [->|Hne].
      * rewrite lookup_insert_eq. split; [done|by right].
      * by rewrite lookup_insert_ne.
Qed.

(** What [record_changes.recursive] records under a name: for a node of
    the source, what the body of the loop decides; for a name the source
    does not have, the removal of what the target has. *)
Lemma record_loop_lookup (rel : path) (src_entries : gmap string node)
    (tgt_name : string) (tgt : option node)
    (m : gmap string (ChangeType * option changes)) (name : string) :
  record_loop [] (record_entry []) rel src_entries tgt_name tgt = Ok (Changes m) →
  match src_entries !! name with
  | Some src_node =>
      record_entry [] rel name src_node (child tgt name) = Ok (m !! name)
  | None =>
      (is_Some (child tgt name) → m !! name = Some (RemoveNode, None))
      ∧ (m !! name = None ∨ m !! name = Some (RemoveNode, None))
  end.
Proof.
  unfold record_loop. intros Hrec.
  set (from_src := map_fold _ (Ok ∅) src_entries) in Hrec.
  assert (∀ m0, from_src = Ok m0 →
            match src_entries !! name with
            | Some src_node =>
                record_entry [] rel name src_node (child tgt name) = Ok (m0 !! name)
            | None => m0 !! name = None
            end) as Hname.
  { intros m0 Hsrc.
    exact (fold_collect_lookup
             (λ name src_node, record_entry [] rel name src_node (child tgt name))
             src_entries m0 Hsrc name). }
  destruct (is_dir tgt) eqn:Hdir; [|destruct (is_file tgt) eqn:Hfile].
  - destruct from_src as [m0|]; [|done]. specialize (Hname m0 eq_refl).
    simpl in Hrec. injection Hrec as <-.
    rewrite missing_loop_lookup, entries_of_lookup.
    destruct (src_entries !! name) as [src_node|] eqn:Hs.
    + by rewrite decide_True by eauto.
    + rewrite decide_False by (by intros []). case_decide as Ht.
      * split; [done|by right].
      * split; [done|]. left. by rewrite Hname.
  - destruct (foldr _ _ (chars tgt_name)) as [m1|] eqn:Hchars; [|done].
    simpl in Hrec. injection Hrec as <-.
    destruct (chars_loop_lookup src_entries rel from_src _ m1 name Hchars)
      as (m0 & Hsrc & Hsame & Hor).
    specialize (Hname m0 Hsrc).
    destruct (src_entries !! name) as [src_node|] eqn:Hs.
    + by rewrite Hsame by eauto.
    + assert (child tgt name = None) as -> by (by destruct tgt as [[[] ? ? ?|]|]).
      split; [by intros []|]. rewrite Hname in Hor.
      destruct Hor as [->| ->]; [left|right]; done.
  - destruct from_src as [m0|]; [|done]. specialize (Hname m0 eq_refl).
    simpl in Hrec. injection Hrec as <-.
    destruct (src_entries !! name) as [src_node|] eqn:Hs; [done|].
    assert (child tgt name = None) as -> by (by destruct tgt as [[[] ? ? ?|]|]).
    split; [by intros []|]. by left.
Qed.

Lemma apply_recursive_lookup (src_entries : gmap string node)
    (m : gmap string (ChangeType * option changes))
    (tgt_entries tgt_entries' : gmap string node) (name : string) :
  apply_recursive umask_perm clock link src_entries (Changes m) tgt_entries
  = Ok tgt_entries' →
  match m !! name with
  | Some (change, subchanges) =>
      apply_entry umask_perm clock (apply_recursive umask_perm clock link) link
        (src_entries !! name) change subchanges (tgt_entries !! name)
      = Ok (tgt_entries' !! name)
  | None => tgt_entries' !! name = tgt_entries !! name
  end.
Proof.
  intros Happly.
  pose proof (fold_entries_lookup
                (λ name (entry : ChangeType * option changes) tgt_node,
                   apply_entry umask_perm clock (apply_recursive umask_perm clock link)
                     link (src_entries !! name) entry.1 entry.2 tgt_node)
                m tgt_entries tgt_entries' Happly name) as Hname.
  by destruct (m !! name) as [[change subchanges]|].
Qed.

(** *** One level of the two traversals *)

Lemma mode_ifmt (n : node) : Z.shiftr (st_mode (node_stat n)) 12 = ifmt n.
Proof.
  simpl. rewrite Z.shiftr_lor, Z.shiftr_shiftl_l by lia.
  rewrite Z.shiftr_land. change (Z.shiftr 4095 12) with 0.
  rewrite Z.land_0_r, Z.lor_0_r. change (12 - 12) with 0. apply Z.shiftl_0_r.
Qed.

Lemma same_types_ifmt (a b : node) :
  same_types (node_stat a) (node_stat b) = true → ifmt a = ifmt b.
Proof.
  unfold same_types. intros H%bool_decide_eq_true.
  rewrite <- !mode_ifmt. change 12 with (9 + 3).
  rewrite <- !Z.shiftr_shiftr by lia. by rewrite H.
Qed.

Lemma same_types_dir (perm mtime mtime' : Z) (es es' : gmap string node) :
  same_types (node_stat (Dir perm mtime es)) (node_stat (Dir perm mtime' es')) = true.
Proof. by apply bool_decide_eq_true. Qed.

Lemma same_permissions_dir (perm mtime mtime' : Z) (es es' : gmap string node) :
  same_permissions (node_stat (Dir perm mtime es)) (node_stat (Dir perm mtime' es'))
  = true.
Proof. by apply bool_decide_eq_true. Qed.

Lemma remove_node_plain (t : node) :
  is_special (Some t) = false → remove_node (Some t) = None.
Proof. by destruct t as [[] ? ? ?|]. Qed.

(** The part of [apply_entry] after the change itself, on a directory. *)
Lemma apply_descend (src_entries : gmap string node)
    (m : gmap string (ChangeType * option changes)) (p mt : Z)
    (tes : gmap string node) (r : option node) :
  (if decide (change_entries (Changes m) = ∅) then Ok (Some (Dir p mt tes))
   else tgt_entries ← apply_recursive umask_perm clock link src_entries (Changes m) tes;
        Ok (Some (Dir p mt tgt_entries))) = Ok r →
  ∃ tes', r = Some (Dir p mt tes')
          ∧ apply_recursive umask_perm clock link src_entries (Changes m) tes = Ok tes'.
Proof.
  case_decide as Hm.
  - intros [= <-]. exists tes. split; [done|]. simpl in Hm. subst m. simpl.
    by rewrite map_fold_empty.
  - destruct (apply_recursive _ _ _ _ _ _) as [tes'|]; [|done].
    intros [= <-]. by exists tes'.
Qed.

(** What one level leaves under a name, when the target holds no special
    node there and no directory of other mode bits than the source's. *)
Lemma level_entry (rel : path) (src_entries : gmap string node)
    (tgt_name : string) (tgt : option node) (tgt_entries' : gmap string node)
    (name : string) :
  level rel src_entries tgt_name tgt tgt_entries' →
  (∀ t, child tgt name = Some t → is_special (Some t) = false) →
  (∀ s t, src_entries !! name = Some s → child tgt name = Some t →
          is_dir (Some s) = true → is_dir (Some t) = true →
          same_types (node_stat s) (node_stat t) = true) →
  match src_entries !! name with
  | None => tgt_entries' !! name = None
  | Some (File kind perm mtime data as s) =>
      if is_special (Some s) then tgt_entries' !! name = child tgt name
      else tgt_entries' !! name = Some s
           ∨ ∃ t, child tgt name = Some t ∧ tgt_entries' !! name = Some t
                  ∧ same_types (node_stat s) (node_stat t) = true
                  ∧ int_mtime (node_stat s) = int_mtime (node_stat t)
  | Some (Dir perm mtime sub_entries as s) =>
      ∃ perm' mtime' sub_entries',
        tgt_entries' !! name = Some (Dir perm' mtime' sub_entries')
        ∧ same_types (node_stat s) (node_stat (Dir perm' mtime' sub_entries')) = true
        ∧ same_permissions (node_stat s) (node_stat (Dir perm' mtime' sub_entries'))
          = true
        ∧ level (rel ++ [name]) sub_entries name (child tgt name) sub_entries'
  end.
Proof.
  intros (m & Hrec & Happ) Hns Hagree.
  pose proof (record_loop_lookup _ _ _ _ _ name Hrec) as HR.
  pose proof (apply_recursive_lookup _ _ _ _ name Happ) as HA.
  rewrite entries_of_lookup in HA.
  destruct (src_entries !! name) as [s|] eqn:Hs.
  2:{ destruct HR as [HR1 HR2]. destruct (child tgt name) as [t|] eqn:Ht.
      - rewrite HR1 in HA by eauto. unfold apply_entry in HA. simpl in HA.
        rewrite remove_node_plain in HA by eauto. by injection HA.
      - destruct HR2 as [HR2|HR2]; rewrite HR2 in HA; [done|].
        by injection HA. }
  rewrite record_entry_unfold in HR. cbv zeta in HR.
  destruct s as [kind perm mtime data|perm mtime sub_entries].
  - destruct (is_special (Some (File kind perm mtime data))) eqn:Hsp.
    { injection HR as HR. by rewrite <- HR in HA. }
    assert (∀ t, (∀ t', t = Some t' → is_special (Some t') = false) →
                 copy_file link (Some (File kind perm mtime data)) t
                 = Ok (Some (File kind perm mtime data))) as Hcopy.
    { intros [t|] Ht; unfold copy_file.
      - rewrite remove_node_plain by eauto. by destruct kind.
      - by destruct kind. }
    destruct (child tgt name) as [t|] eqn:Ht.
    + destruct (same_types _ (node_stat t)) eqn:Hty; simpl in HR.
      * case_decide as Hmt.
        -- injection HR as HR. rewrite <- HR in HA. left.
           unfold apply_entry, copy_node in HA. simpl in HA.
           rewrite Hcopy in HA by done. by injection HA.
        -- injection HR as HR. rewrite <- HR in HA. right. exists t.
           by repeat split.
      * injection HR as HR. rewrite <- HR in HA. left.
        unfold apply_entry, copy_node in HA. simpl in HA.
        rewrite Hcopy in HA by done. by injection HA.
    + injection HR as HR. rewrite <- HR in HA. left.
      unfold apply_entry, copy_node in HA. simpl in HA.
      rewrite Hcopy in HA by done. by injection HA.
  - change (is_special (Some (Dir perm mtime sub_entries))) with false in HR.
    change (is_dir (Some (Dir perm mtime sub_entries))) with true in HR.
    destruct (record_loop [] (record_entry []) (rel ++ [name]) sub_entries name
                (child tgt name)) as [[m2]|] eqn:Hrec2;
      [|by destruct (child tgt name) as [t|];
           [destruct (negb (same_types _ (node_stat t)))|]].
    destruct (child tgt name) as [t|] eqn:Ht.
    + destruct (same_types _ (node_stat t)) eqn:Hty; simpl in HR.
      * pose proof (same_types_ifmt _ _ Hty) as Hfmt.
        destruct t as [tk tp tm td|tp tm tes]; [by destruct tk|].
        injection HR as HR. rewrite <- HR in HA. unfold apply_entry in HA.
        destruct (same_permissions _ _) eqn:Hperm; simpl in HA.
        -- apply apply_descend in HA as (tes' & -> & Happ2).
           exists tp, tm, tes'. repeat split; try done. by exists m2.
        -- apply apply_descend in HA as (tes' & -> & Happ2).
           exists perm, mtime, tes'.
           split; [done|]. split; [apply same_types_dir|].
           split; [apply same_permissions_dir|]. by exists m2.
      * injection HR as HR. rewrite <- HR in HA.
        unfold apply_entry, copy_node in HA. simpl in HA.
        rewrite remove_node_plain in HA by eauto. simpl in HA.
        apply apply_descend in HA as (tes' & -> & Happ2).
        exists perm, mtime, tes'.
        split; [done|]. split; [apply same_types_dir|].
        split; [apply same_permissions_dir|]. exists m2. split; [done|].
        destruct t as [tk tp tm td|tp tm tes]; [done|].
        by rewrite (Hagree _ _ eq_refl eq_refl eq_refl eq_refl) in Hty.
    + simpl in HR. injection HR as HR. rewrite <- HR in HA.
      unfold apply_entry, copy_node in HA. simpl in HA.
      apply apply_descend in HA as (tes' & -> & Happ2).
      exists perm, mtime, tes'.
      split; [done|]. split; [apply same_types_dir|].
      split; [apply same_permissions_dir|]. by exists m2.
Qed.

(** *** One level of [sync_path] *)

Lemma sync_path_entry_unfold (rel : path) (name : string) (src_node : node)
    (tgt_node : option node) :
  sync_path_entry umask_perm clock [] link rel name src_node tgt_node
  = let descend (tgt_node : option node) : result (option node) :=
      match src_node, tgt_node with
      | Dir _ _ src_entries, Some (Dir p m tgt_entries) =>
          tgt_entries ← sync_path_loop []
                          (sync_path_entry umask_perm clock [] link)
                          (rel ++ [name]) src_entries tgt_entries;
          Ok (Some (Dir p m tgt_entries))
      | Dir _ _ _, _ => Raise NotADirectoryError
      | File _ _ _ _, _ => Ok tgt_node
      end in
    let copy_node (clear : bool) : result (option node) :=
      if is_dir (Some src_node) then
        tgt ← makedirs umask_perm clock
                (if clear then remove_node tgt_node else tgt_node);
        copy_stat (Some src_node) tgt
      else copy_file link (Some src_node) tgt_node in
    if is_special (Some src_node) then Ok tgt_node
    else
      match tgt_node with
      | None => tgt_node ← copy_node false; descend tgt_node
      | Some t =>
          let sstat := node_stat src_node in
          let tstat := node_stat t in
          if negb (same_types sstat tstat) then
            tgt_node ← copy_node true; descend tgt_node
          else if is_dir (Some src_node) then
            tgt_node ← descend tgt_node;
            if negb (same_permissions sstat tstat)
            then copy_stat (Some src_node) tgt_node else Ok tgt_node
          else if decide (int_mtime sstat ≠ int_mtime tstat) then
            copy_node false
          else if negb (same_permissions sstat tstat)
          then copy_stat (Some src_node) tgt_node else Ok tgt_node
      end.
Proof. destruct src_node; cbn -[sync_path_loop]; by rewrite excluded_nil. Qed.

Lemma removal_loop_lookup (src_entries after tes : gmap string node)
    (name : string) :
  map_fold (λ name (_ : node) entries,
              if decide (is_Some (src_entries !! name)) then entries
              else set_entry name (remove_node (entries !! name)) entries)
           after tes !! name
  = if decide (is_Some (src_entries !! name)) then after !! name
    else if decide (is_Some (tes !! name)) then remove_node (after !! name)
    else after !! name.
Proof.
  set (P := λ (r : gmap string node) (m : gmap string node),
              r !! name = if decide (is_Some (src_entries !! name)) then after !! name
                          else if decide (is_Some (m !! name))
                               then remove_node (after !! name) else after !! name).
  apply (map_fold_weak_ind P); unfold P.
  - case_decide; [done|]. rewrite decide_False; [done|].
    rewrite lookup_empty. by intros [].
  - intros i x m' r Hi IH.
    destruct (decide (i = name)) as [->|Hne].
    + case_decide as Hs; [done|].
      rewrite set_entry_lookup, lookup_insert_eq.
      rewrite decide_True by done. rewrite (decide_True (P:=is_Some (Some x))) by eauto.
      rewrite IH, Hi. by rewrite decide_False by (by intros []).
    + rewrite (lookup_insert_ne m') by done. rewrite <- IH.
      destruct (decide (is_Some (src_entries !! i))); [done|].
      rewrite set_entry_lookup. by rewrite decide_False.
Qed.

(** What [sync_path.recursive] leaves under a name: for a node of the
    source, what the body of the loop gives; for a name the source does
    not have, what [remove_node] leaves. *)
Lemma sync_path_loop_lookup
    (entry : path → string → node → option node → result (option node))
    (rel : path) (src_entries tgt_entries tgt_entries' : gmap string node)
    (name : string) :
  sync_path_loop [] entry rel src_entries tgt_entries = Ok tgt_entries' →
  match src_entries !! name with
  | Some src_node =>
      entry rel name src_node (tgt_entries !! name) = Ok (tgt_entries' !! name)
  | None => tgt_entries' !! name = remove_node (tgt_entries !! name)
  end.
Proof.
  unfold sync_path_loop.
  destruct (map_fold _ (Ok tgt_entries) src_entries) as [after|] eqn:Hsrc; [|done].
  simpl. intros [= <-].
  pose proof (fold_entries_lookup (λ name, entry rel name) _ _ _ Hsrc name) as Hname.
  rewrite removal_loop_lookup.
  destruct (src_entries !! name) as [src_node|] eqn:Hs.
  - by rewrite decide_True by eauto.
  - rewrite decide_False by (by intros []). rewrite Hname.
    case_decide as Ht; [done|]. by destruct (tgt_entries !! name); [destruct Ht|].
Qed.

(** *** Paths *)

Lemma at_path_dir (q : path) (perm mtime : Z) (entries : gmap string node) :
  q ≠ [] → lookup_at q (Some (Dir perm mtime entries)) = at_path entries q.
Proof. intros Hq. by rewrite <- at_path_entries_of. Qed.

Lemma at_path_child (tgt : option node) (name : string) (q : path) :
  q ≠ [] →
  at_path (entries_of (child tgt name)) q = at_path (entries_of tgt) (name :: q).
Proof. intros Hq. simpl. by rewrite entries_of_lookup, at_path_entries_of. Qed.

Lemma at_path_nonempty (entries : gmap string node) (q : path) (n : node) :
  at_path entries q = Some n → q ≠ [].
Proof. by destruct q. Qed.

Lemma level_entry_at (rel : path) (src_entries : gmap string node)
    (tgt_name : string) (tgt : option node) (tgt_entries' : gmap string node)
    (name : string) :
  level rel src_entries tgt_name tgt tgt_entries' →
  special_free_entries (entries_of tgt) →
  dirs_agree src_entries (entries_of tgt) →
  match src_entries !! name with
  | None => tgt_entries' !! name = None
  | Some (File kind perm mtime data as s) =>
      if is_special (Some s) then tgt_entries' !! name = child tgt name
      else tgt_entries' !! name = Some s
           ∨ ∃ t, child tgt name = Some t ∧ tgt_entries' !! name = Some t
                  ∧ same_types (node_stat s) (node_stat t) = true
                  ∧ int_mtime (node_stat s) = int_mtime (node_stat t)
  | Some (Dir perm mtime sub_entries as s) =>
      ∃ perm' mtime' sub_entries',
        tgt_entries' !! name = Some (Dir perm' mtime' sub_entries')
        ∧ same_types (node_stat s) (node_stat (Dir perm' mtime' sub_entries')) = true
        ∧ same_permissions (node_stat s) (node_stat (Dir perm' mtime' sub_entries'))
          = true
        ∧ level (rel ++ [name]) sub_entries name (child tgt name) sub_entries'
  end.
Proof.
  intros Hlevel Hfree Hagree. apply (level_entry _ _ _ _ _ _ Hlevel).
  - intros t Ht. apply (Hfree [name]). simpl. by rewrite entries_of_lookup.
  - intros s t Hs Ht. apply (Hagree [name]); simpl; [done|].
    by rewrite entries_of_lookup.
Qed.

(** *** One level, in either mode *)

Lemma same_types_refl (n : node) : same_types (node_stat n) (node_stat n) = true.
Proof. by apply bool_decide_eq_true. Qed.

Lemma same_permissions_refl (n : node) :
  same_permissions (node_stat n) (node_stat n) = true.
Proof. by apply bool_decide_eq_true. Qed.

Lemma at_path_empty (q : path) : at_path ∅ q = None.
Proof. destruct q as [|name q]; [done|]. simpl. by rewrite lookup_empty, lookup_at_None. Qed.

(** What one level leaves under a name, when the target holds no special
    node and, in the tree mode, no directory of other mode bits than the
    source's.  A file of the source is mirrored by a file of its type and
    whole-second time, with its permission bits unless the mode is the
    tree mode and the file is the one the target held; a directory by a
    directory of its mode, below which the level is the same traversal, on
    what the target held there or on nothing. *)
Lemma level_of_entry (save_memory : bool) (rel : path)
    (src_entries : gmap string node) (tgt : option node)
    (tgt_entries' : gmap string node) (name : string) :
  level_of save_memory rel src_entries tgt tgt_entries' →
  special_free_entries (entries_of tgt) →
  (save_memory = false → dirs_agree src_entries (entries_of tgt)) →
  match src_entries !! name with
  | None => tgt_entries' !! name = None
  | Some (File kind perm mtime data as s) =>
      if is_special (Some s) then tgt_entries' !! name = child tgt name
      else ∃ t', tgt_entries' !! name = Some t'
                 ∧ same_types (node_stat s) (node_stat t') = true
                 ∧ int_mtime (node_stat s) = int_mtime (node_stat t')
                 ∧ (same_permissions (node_stat s) (node_stat t') = true
                    ∨ (save_memory = false ∧ child tgt name = Some t'))
  | Some (Dir perm mtime sub_entries as s) =>
      ∃ perm' mtime' sub_entries' before,
        tgt_entries' !! name = Some (Dir perm' mtime' sub_entries')
        ∧ same_types (node_stat s) (node_stat (Dir perm' mtime' sub_entries')) = true
        ∧ same_permissions (node_stat s) (node_stat (Dir perm' mtime' sub_entries'))
          = true
        ∧ (before = child tgt name ∨ before = None)
        ∧ level_of save_memory (rel ++ [name]) sub_entries before sub_entries'
  end.
Proof.
  intros Hlevel Hfree Hagree. destruct save_memory.
  - unfold level_of in Hlevel.
    pose proof (sync_path_loop_lookup _ _ _ _ _ name Hlevel) as Hname.
    rewrite entries_of_lookup in Hname.
    assert (∀ t, child tgt name = Some t → is_special (Some t) = false) as Hns.
    { intros t Ht. apply (Hfree [name]). simpl. by rewrite entries_of_lookup. }
    destruct (src_entries !! name) as [s|] eqn:Hs.
    2:{ rewrite Hname. destruct (child tgt name) as [t|] eqn:Ht; [|done].
        by apply remove_node_plain, Hns. }
    rewrite sync_path_entry_unfold in Hname. cbv zeta in Hname.
    destruct s as [kind perm mtime data|perm mtime sub_entries].
    + destruct (is_special (Some (File kind perm mtime data))) eqn:Hsp.
      { by injection Hname as <-. }
      change (is_dir (Some (File kind perm mtime data))) with false in Hname.
      cbv iota in Hname.
      assert (∀ t, (∀ t', t = Some t' → is_special (Some t') = false) →
                   copy_file link (Some (File kind perm mtime data)) t
                   = Ok (Some (File kind perm mtime data))) as Hcopy.
      { intros [t|] Ht; unfold copy_file.
        - rewrite remove_node_plain by eauto. by destruct kind.
        - by destruct kind. }
      assert (tgt_entries' !! name = Some (File kind perm mtime data) →
              ∃ t', tgt_entries' !! name = Some t'
                    ∧ same_types (node_stat (File kind perm mtime data))
                        (node_stat t') = true
                    ∧ int_mtime (node_stat (File kind perm mtime data))
                      = int_mtime (node_stat t')
                    ∧ (same_permissions (node_stat (File kind perm mtime data))
                         (node_stat t') = true
                       ∨ (true = false ∧ child tgt name = Some t'))) as Hcopied.
      { intros ->. eexists. split; [done|]. split; [apply same_types_refl|].
        split; [done|]. left. apply same_permissions_refl. }
      destruct (child tgt name) as [t|] eqn:Ht.
      * destruct (same_types _ (node_stat t)) eqn:Hty; simpl in Hname.
        -- case_decide as Hmt.
           { rewrite Hcopy in Hname by done. apply Hcopied. by injection Hname. }
           destruct (same_permissions _ (node_stat t)) eqn:Hperm; simpl in Hname.
           ++ injection Hname as <-. exists t. split; [done|]. split; [done|].
              split; [done|]. by left.
           ++ pose proof (same_types_ifmt _ _ Hty) as Hfmt.
              destruct t as [tk tp tm td|tp tm tes]; [|by destruct kind].
              injection Hname as <-. eexists. split; [done|].
              assert (st_mode (node_stat (File kind perm mtime data))
                      = st_mode (node_stat (File tk perm mtime td))) as Hmode.
              { simpl. simpl in Hfmt. by rewrite Hfmt. }
              split; [apply bool_decide_eq_true; by rewrite Hmode|].
              split; [done|]. left. apply bool_decide_eq_true. by rewrite Hmode.
        -- rewrite Hcopy in Hname by done. apply Hcopied. by injection Hname.
      * rewrite Hcopy in Hname by done. apply Hcopied. by injection Hname.
    + change (is_special (Some (Dir perm mtime sub_entries))) with false in Hname.
      change (is_dir (Some (Dir perm mtime sub_entries))) with true in Hname.
      cbv iota in Hname.
      assert (∀ r, (tgt_entries ← sync_path_loop []
                                    (sync_path_entry umask_perm clock [] link)
                                    (rel ++ [name]) sub_entries ∅;
                    Ok (Some (Dir perm mtime tgt_entries))) = Ok r →
                ∃ perm' mtime' sub_entries' before,
                  r = Some (Dir perm' mtime' sub_entries')
                  ∧ same_types (node_stat (Dir perm mtime sub_entries))
                      (node_stat (Dir perm' mtime' sub_entries')) = true
                  ∧ same_permissions (node_stat (Dir perm mtime sub_entries))
                      (node_stat (Dir perm' mtime' sub_entries')) = true
                  ∧ (before = child tgt name ∨ before = None)
                  ∧ level_of true (rel ++ [name]) sub_entries before sub_entries')
        as Hfresh.
      { intros r Hr.
        destruct (sync_path_loop _ _ _ sub_entries ∅) as [sub'|] eqn:Hsub; [|done].
        injection Hr as <-. exists perm, mtime, sub', None.
        split; [done|]. split; [apply same_types_dir|].
        split; [apply same_permissions_dir|]. split; [by right|done]. }
      destruct (child tgt name) as [t|] eqn:Ht.
      * destruct (same_types _ (node_stat t)) eqn:Hty; simpl in Hname.
        -- pose proof (same_types_ifmt _ _ Hty) as Hfmt.
           destruct t as [tk tp tm td|tp tm tes]; [by destruct tk|].
           destruct (sync_path_loop _ _ _ sub_entries tes) as [sub'|] eqn:Hsub;
             [|done].
           simpl in Hname.
           destruct (same_permissions _ _) eqn:Hperm; simpl in Hname;
             injection Hname as <-.
           ++ exists tp, tm, sub', (Some (Dir tp tm tes)).
              split; [done|]. split; [done|]. split; [done|]. by split; [left|].
           ++ exists perm, mtime, sub', (Some (Dir tp tm tes)).
              split; [done|]. split; [apply same_types_dir|].
              split; [apply same_permissions_dir|]. by split; [left|].
        -- rewrite remove_node_plain in Hname by eauto. simpl in Hname.
           destruct (Hfresh _ Hname) as (p' & m' & sub' & before & -> & Hrest).
           by exists p', m', sub', before.
      * simpl in Hname.
        destruct (Hfresh _ Hname) as (p' & m' & sub' & before & -> & Hrest).
        by exists p', m', sub', before.
  - destruct Hlevel as (tgt_name & Hlevel).
    pose proof (level_entry_at _ _ _ _ _ name Hlevel Hfree (Hagree eq_refl)) as Hname.
    destruct (src_entries !! name) as [[kind perm mtime data|perm mtime sub_entries]|];
      [| |done].
    + destruct (is_special (Some (File kind perm mtime data))); [done|].
      destruct Hname as [Hcopy|(t & Ht & Hkept & Hty & Hmt)].
      * eexists. split; [done|]. split; [apply same_types_refl|].
        split; [done|]. left. apply same_permissions_refl.
      * exists t. split; [done|]. split; [done|]. split; [done|]. by right.
    + destruct Hname as (p' & m' & sub' & Hk & Hty & Hperm & Hsub).
      exists p', m', sub', (child tgt name).
      repeat split; try done; [by left|by exists name].
Qed.

Lemma before_below (tgt before : option node) (name : string) (q : path) (t : node) :
  before = child tgt name ∨ before = None →
  at_path (entries_of before) q = Some t →
  at_path (entries_of tgt) (name :: q) = Some t.
Proof.
  intros [-> | ->] Hq.
  - by rewrite <- at_path_child by (by eapply at_path_nonempty).
  - change (at_path ∅ q = Some t) in Hq.
    by rewrite at_path_empty in Hq.
Qed.

Lemma special_free_before (tgt before : option node) (name : string) :
  before = child tgt name ∨ before = None →
  special_free_entries (entries_of tgt) →
  special_free_entries (entries_of before).
Proof.
  intros Hbefore Hfree q t Hq. apply (Hfree (name :: q)).
  by eapply before_below.
Qed.

Lemma dirs_agree_before (src_entries sub_entries : gmap string node)
    (perm mtime : Z) (tgt before : option node) (name : string) :
  before = child tgt name ∨ before = None →
  src_entries !! name = Some (Dir perm mtime sub_entries) →
  dirs_agree src_entries (entries_of tgt) →
  dirs_agree sub_entries (entries_of before).
Proof.
  intros Hbefore Hname Hagree q s t Hs Ht.
  pose proof (at_path_nonempty _ _ _ Hs) as Hq.
  apply (Hagree (name :: q)).
  - simpl. by rewrite Hname, at_path_dir.
  - by eapply before_below.
Qed.




(** *** Recording again *)


(** [record_changes.recursive] on a target that is a directory returns
    when the body of its loop does, and records nothing under a name that
    neither side has. *)
Lemma record_loop_dir (rel : path) (src_entries : gmap string node)
    (tgt_name : string) (perm mtime : Z) (tgt_entries : gmap string node) :
  (∀ name s, src_entries !! name = Some s →
             ∃ e, record_entry [] rel name s (tgt_entries !! name) = Ok e) →
  ∃ m, record_loop [] (record_entry []) rel src_entries tgt_name
         (Some (Dir perm mtime tgt_entries)) = Ok (Changes m)
       ∧ ∀ name, src_entries !! name = None → tgt_entries !! name = None →
                 m !! name = None.
Proof.
  intros Hbody.
  destruct (fold_collect_ok
              (λ name s, record_entry [] rel name s (tgt_entries !! name))
              src_entries Hbody) as (m0 & Hsrc).
  unfold record_loop. simpl. rewrite Hsrc. simpl. eexists. split; [done|].
  intros name Hs Ht. rewrite missing_loop_lookup, Hs, Ht.
  rewrite !decide_False by (by intros []).
  pose proof (fold_collect_lookup _ _ _ Hsrc name) as Hname.
  by rewrite Hs in Hname.
Qed.


(** *** The hypotheses as walks over the trees *)

Lemma fold_all_lookup {A : Type} (f : string → A → bool) (m : gmap string A) :
  map_fold (λ name a acc, f name a && acc) true m = true →
  ∀ name a, m !! name = Some a → f name a = true.
Proof.
  set (P := λ (r : bool) (m : gmap string A),
              r = true → ∀ name a, m !! name = Some a → f name a = true).
  apply (map_fold_weak_ind P); unfold P.
  - intros _ name a. by rewrite lookup_empty.
  - intros i x m' r Hi IH [Hx Hr]%andb_prop name a. rewrite lookup_insert.
    case_decide as Hname; [intros [= <-]; by subst|]. by apply IH.
Qed.

Lemma dirs_agree_walk_paths (q : path) :
  ∀ s t, dirs_agree_walk s t = true →
  ∀ s' t', lookup_at q (Some s) = Some s' → lookup_at q t = Some t' →
           is_dir (Some s') = true → is_dir (Some t') = true →
           same_types (node_stat s') (node_stat t') = true.
Proof.
  induction q as [|name q IH]; intros s t Hwalk s' t'.
  - rewrite !lookup_at_nil. intros [= <-] -> Hs Ht.
    destruct s as [|sp sm ses]; [done|]. destruct t' as [|tp tm tes]; [done|].
    simpl in Hwalk. by apply andb_prop in Hwalk as [Hty _].
  - rewrite !lookup_at_cons. intros Hs Ht.
    destruct s as [|sp sm ses]; [by rewrite lookup_at_None in Hs|].
    destruct t as [[|tp tm tes]|]; try by rewrite lookup_at_None in Ht.
    simpl in Hs. destruct (ses !! name) as [c|] eqn:Hc;
      [|by rewrite lookup_at_None in Hs].
    simpl in Hwalk. apply andb_prop in Hwalk as [_ Hall].
    apply (IH c (child (Some (Dir tp tm tes)) name)); [|done..].
    by apply (fold_all_lookup
                (λ name c, dirs_agree_walk c (child (Some (Dir tp tm tes)) name))
                ses Hall).
Qed.

Lemma dirs_agree_walk_spec (source target : gmap string node) (perm mtime : Z) :
  dirs_agree_walk (Dir perm mtime source) (Some (Dir perm mtime target)) = true →
  dirs_agree source target.
Proof.
  intros Hwalk p s t Hs Ht.
  pose proof (at_path_nonempty _ _ _ Hs) as Hp.
  apply (dirs_agree_walk_paths p _ _ Hwalk); by rewrite at_path_dir.
Qed.

Lemma special_free_walk_spec (entries : gmap string node) (perm mtime : Z) :
  special_free (Dir perm mtime entries) = true → special_free_entries entries.
Proof.
  intros Hwalk p n Hn. pose proof (at_path_nonempty _ _ _ Hn) as Hp.
  apply (special_free_no_special _ Hwalk p). by rewrite at_path_dir.
Qed.

Lemma sync_level (save_memory : bool) (source target target' : gmap string node) :
  sync umask_perm clock [] save_memory link source target = Ok target' →
  level_of save_memory [] source (Some (Dir umask_perm clock target)) target'.
Proof.
  unfold sync, record_changes. destruct save_memory.
  - destruct (sync_path_dry_loop _ _ _ _ _ _) as [[]|]; [|done]. by intros Hloop.
  - destruct (record_loop _ _ _ _ _ _) as [[m]|] eqn:Hrec; [|done].
    intros Happ. exists "". by exists m.
Qed.




End SyncSpec.

(** *** [sync] on concrete trees *)





(** The same trees after one [sync]: the tree mode has lost the file
    below the directory it made anew, [sync_path] has it. *)
Lemma sync_tree_drops_files_of_recreated_directory :
  at_path setgid_source ["d"; "f"]
  = Some (FileSystem.File FileSystem.Regular 420 7000000000 "c")
  ∧ (∃ target', FileSystem.sync 493 0 [] false false setgid_source setgid_target
                = Ok target'
                ∧ at_path target' ["d"; "f"] = None)
  ∧ (∃ target', FileSystem.sync 493 0 [] true false setgid_source setgid_target
                = Ok target'
                ∧ at_path target' ["d"; "f"]
                  = Some (FileSystem.File FileSystem.Regular 420 7000000000 "c")).
Proof.
  split; [by vm_compute|]. split.
  - exists {[ "d" := FileSystem.Dir 1517 5 ∅ ]}. by vm_compute.
  - exists setgid_source. by vm_compute.
Qed.

(** A named pipe that only the target has is recorded for removal by
    every [sync], and stays. *)
Lemma sync_again_records_removal :
  FileSystem.sync 493 0 [] false false ∅ pipe_target = Ok pipe_target
  ∧ FileSystem.record_changes 493 0 [] ∅ pipe_target
    = Ok (FileSystem.Changes {[ "pipe" := (FileSystem.RemoveNode, None) ]}).
Proof. by vm_compute. Qed.


(** On the failing input of C5 the tree mode leaves mode 0600, and
    [sync_path], the traversal of the mode that saves memory, sets 0644. *)
Lemma sync_modes_differ_on_permissions :
  FileSystem.sync 493 0 [] false false source_0644 target_0600 = Ok target_0600
  ∧ (permission_bits <$> target_0600 !! "f") = Some 384
  ∧ (permission_bits <$> source_0644 !! "f") = Some 420
  ∧ FileSystem.sync 493 0 [] true false source_0644 target_0600
    = Ok {[ "f" := FileSystem.File FileSystem.Regular 420 1000000000000 "x" ]}.
Proof. split_and!; by vm_compute. Qed.

(** * Further properties *)

(** ** TaskSystem: queue limit, back pressure and round robin *)

Section TaskSystemMore.
Import TaskSystem.
Context {Task : Type}.
Variable e : env.
Variable cfg : settings.

Lemma try_add_loop_limit (probes : list nat) (k : nat) (t : Task)
    (queues queues' : list (list Task)) :
  try_add_loop e cfg probes k t true queues = (true, queues') →
  ∃ i, i ∈ probes ∧ queues' = append i t queues
       ∧ (length (queues !!! i) < queue_limit cfg)%nat.
Proof.
  revert k. induction probes as [|i probes IH]; intros k; simpl; [done|].
  destruct (shutdown_seen e k); [done|].
  destruct (lock_free e k); simpl.
  - case_bool_decide as Hlimit.
    + intros [= <-]. exists i. split; [left|done].
    + intros (j & Hj & ?)%IH. exists j. split; [by right|done].
  - intros (j & Hj & ?)%IH. exists j. split; [by right|done].
Qed.

Lemma append_length (j : nat) (t : Task) (queues : list (list Task)) :
  length (append j t queues) = length queues.
Proof. apply length_alter. Qed.

Lemma append_insert (j : nat) (t : Task) (queues : list (list Task))
    (q : list Task) :
  queues !! j = Some q → append j t queues = <[j := q ++ [t]]> queues.
Proof.
  intros Hq. apply list_eq. intros i. unfold append.
  destruct (decide (i = j)) as [->|Hne].
  - rewrite list_lookup_alter_eq, Hq. simpl.
    by rewrite list_lookup_insert_eq by (by eapply lookup_lt_Some).
  - by rewrite list_lookup_alter_ne, list_lookup_insert_ne.
Qed.

(** [add_or_run] appends the task to one queue that holds fewer than
    [queue_limit] tasks, or leaves every queue as it is; so queues that are
    within the limit stay within it. *)
Theorem add_or_run_honours_limit (t : Task) (s s' : state Task) (o : outcome)
    (Hqueues : length (qs s) = num_workers cfg)
    (Hworkers : (0 < num_workers cfg)%nat)
    (Hcall : add_or_run e cfg t s = (s', o)) :
  current_idx s' = S (current_idx s)
  ∧ match o with
    | Enqueued =>
        ∃ j q, qs s !! j = Some q
               ∧ (length q < queue_limit cfg)%nat
               ∧ qs s' = <[j := q ++ [t]]> (qs s)
    | RunByCaller | Dropped => qs s' = qs s
    end
  ∧ (Forall (λ q, (length q ≤ queue_limit cfg)%nat) (qs s) →
     Forall (λ q, (length q ≤ queue_limit cfg)%nat) (qs s')).
Proof.
  unfold add_or_run in Hcall.
  destruct (shutdown_at_entry e); [by injection Hcall as <- <-|].
  destruct (try_add e cfg (current_idx s) t true (qs s)) as [added queues] eqn:Htry.
  destruct added; injection Hcall as <- <-; simpl; [|done].
  unfold try_add in Htry.
  apply try_add_loop_limit in Htry as (j & Hj & -> & Hlimit).
  apply list_elem_of_lookup in Hj as [k Hk].
  apply probes_lookup_inv in Hk as [_ ->].
  assert ((current_idx s + k) mod num_workers cfg < length (qs s))%nat as Hlt
    by (rewrite Hqueues; apply Nat.mod_upper_bound; lia).
  destruct (lookup_lt_is_Some_2 _ _ Hlt) as [q Hq].
  rewrite (list_lookup_total_correct _ _ _ Hq) in Hlimit.
  rewrite (append_insert _ _ _ q Hq).
  split; [done|]. split; [by exists ((current_idx s + k) mod num_workers cfg)%nat, q|].
  intros Hall. apply Forall_insert; [done|]. rewrite length_app. simpl. lia.
Qed.

(** Back pressure: with every queue at its limit and no shutdown,
    [add_or_run] leaves the queues as they are and the caller runs the
    task. *)
Theorem add_or_run_runs_when_full (t : Task) (s : state Task)
    (Hqueues : length (qs s) = num_workers cfg)
    (Hworkers : (0 < num_workers cfg)%nat)
    (Hrun : shutdown_at_entry e = false)
    (Hnoshut : ∀ k, shutdown_seen e k = false)
    (Hfull : Forall (λ q, (queue_limit cfg ≤ length q)%nat) (qs s)) :
  add_or_run e cfg t s = (mkState (S (current_idx s)) (qs s), RunByCaller).
Proof.
  unfold add_or_run, try_add. rewrite Hrun.
  rewrite try_add_loop_none; [done|].
  intros m i [_ ->]%probes_lookup_inv. split; [done|].
  unfold probe_succeeds. apply andb_false_iff. right. simpl.
  apply bool_decide_eq_false.
  assert ((current_idx s + m) mod num_workers cfg < length (qs s))%nat as Hlt
    by (rewrite Hqueues; apply Nat.mod_upper_bound; lia).
  destruct (lookup_lt_is_Some_2 _ _ Hlt) as [q Hq].
  rewrite (list_lookup_total_correct _ _ _ Hq).
  pose proof (Forall_lookup_1 _ _ _ _ Hfull Hq) as Hlen. simpl in Hlen. lia.
Qed.

Lemma mod_shift_ne (a d W : nat) :
  (0 < d < W)%nat → ((a + d) mod W ≠ a mod W)%nat.
Proof.
  intros Hd Heq.
  pose proof (Nat.div_mod_eq (a + d) W) as H1.
  pose proof (Nat.div_mod_eq a W) as H2.
  rewrite Heq in H1.
  destruct (decide ((a + d) / W ≤ a / W)%nat) as [Hle|Hgt].
  - pose proof (Nat.mul_le_mono_l _ _ W Hle). lia.
  - assert (a / W + 1 ≤ (a + d) / W)%nat as Hle by lia.
    pose proof (Nat.mul_le_mono_l _ _ W Hle). lia.
Qed.

(** One [add] while nothing is shut down and the first queue probed is
    free: the task goes to the queue the round-robin counter points at. *)
Lemma add_free (t : Task) (s : state Task) :
  (0 < num_workers cfg)%nat →
  shutdown_at_entry e = false → shutdown_seen e 0 = false →
  lock_free e 0 = true →
  add e cfg t s
  = (mkState (S (current_idx s))
       (append (current_idx s mod num_workers cfg)%nat t (qs s)), Enqueued).
Proof.
  intros Hworkers Hrun Hseen Hfree. unfold add, try_add. rewrite Hrun.
  rewrite (try_add_loop_first e cfg _ 0 t false (qs s) 0
             (current_idx s mod num_workers cfg)%nat); [done|..].
  - rewrite probes_lookup by lia. by rewrite Nat.add_0_r.
  - done.
  - unfold probe_succeeds. simpl. by rewrite Hfree.
  - intros m j Hm. lia.
Qed.

(** Round robin: up to [W] tasks given to [add] in a row, each finding
    the first queue it probes free, go to [W] different queues, the [k]-th
    task to queue [(idx + k) mod W]; the other queues stay as they are. *)
Theorem add_all_round_robin (tasks : list Task) (s : state Task)
    (Hqueues : length (qs s) = num_workers cfg)
    (Hworkers : (0 < num_workers cfg)%nat)
    (Hrun : shutdown_at_entry e = false)
    (Hseen : shutdown_seen e 0 = false)
    (Hfree : lock_free e 0 = true)
    (Hlen : (length tasks ≤ num_workers cfg)%nat) :
  let s' := add_all e cfg tasks s in
  let slot k := ((current_idx s + k) mod num_workers cfg)%nat in
  current_idx s' = (current_idx s + length tasks)%nat
  ∧ length (qs s') = num_workers cfg
  ∧ (∀ k t q, tasks !! k = Some t → qs s !! slot k = Some q →
       qs s' !! slot k = Some (q ++ [t]))
  ∧ (∀ i, (∀ k, (k < length tasks)%nat → i ≠ slot k) →
       qs s' !! i = qs s !! i).
Proof.
  revert s Hqueues Hlen. induction tasks as [|t tasks IH]; intros s Hqueues Hlen.
  - simpl. split; [lia|]. split; [done|]. split; [by intros k t q Hk|done].
  - simpl in Hlen. cbv zeta.
    change (add_all e cfg (t :: tasks) s)
      with (add_all e cfg tasks (add e cfg t s).1).
    rewrite (add_free t s Hworkers Hrun Hseen Hfree).
    set (s1 := mkState (S (current_idx s))
                 (append (current_idx s mod num_workers cfg)%nat t (qs s))).
    change ((s1, Enqueued).1) with s1.
    destruct (IH s1) as (Hidx & Hlength & Hslots & Hrest);
      [by unfold s1; simpl; rewrite append_length|lia|].
    change (current_idx s1) with (S (current_idx s)) in Hidx, Hslots, Hrest.
    change (qs s1) with (append (current_idx s mod num_workers cfg)%nat t (qs s))
      in Hslots, Hrest.
    assert (∀ k, (S (current_idx s) + k = current_idx s + S k)%nat) as Hshift
      by (intros; lia).
    split; [simpl; lia|]. split; [done|]. split.
    + intros [|k] t' q Hk Hq.
      * injection Hk as <-. rewrite Nat.add_0_r in Hq |- *.
        rewrite Hrest.
        { rewrite (append_lookup _ _ _ _ _ Hq). by rewrite decide_True. }
        intros k Hklt Heq. rewrite Hshift in Heq.
        symmetry in Heq. by apply mod_shift_ne in Heq; [|lia].
      * simpl in Hk. rewrite <- Hshift in Hq |- *.
        apply (Hslots k t' q Hk).
        rewrite (append_lookup _ _ _ _ _ Hq). rewrite decide_False; [done|].
        rewrite Hshift. apply lookup_lt_Some in Hk. apply mod_shift_ne. lia.
    + intros i Hi. rewrite Hrest.
      * unfold append. rewrite list_lookup_alter_ne; [done|].
        specialize (Hi 0%nat ltac:(simpl; lia)). rewrite Nat.add_0_r in Hi. done.
      * intros k Hk. rewrite Hshift. apply Hi. simpl. lia.
Qed.

End TaskSystemMore.


(** Two workers with a limit of one task: the first queue is full, the
    second takes the task. *)
Lemma add_or_run_honours_limit_witness :
  ∃ j q, [["a"]; []] !! j = Some q
         ∧ (length q < 1)%nat
         ∧ [["a"]; ["task"]] = <[j := q ++ ["task"]]> [["a"]; []].
Proof.
  pose (env0 := TaskSystem.mkEnv false (λ _, false) (λ _, true)).
  pose proof (add_or_run_honours_limit env0 (TaskSystem.mkSettings 2 0 1) "task"
                (TaskSystem.mkState 0 [["a"]; []])
                (TaskSystem.mkState 1 [["a"]; ["task"]]) TaskSystem.Enqueued
                eq_refl ltac:(simpl; lia) eq_refl) as (_ & Hqueue & _).
  exact Hqueue.
Defined.

(** Two workers with a limit of one task, both queues full: the caller
    runs the task. *)
Lemma add_or_run_runs_when_full_witness :
  TaskSystem.add_or_run (TaskSystem.mkEnv false (λ _, false) (λ _, true))
    (TaskSystem.mkSettings 2 0 1) "task" (TaskSystem.mkState 0 [["a"]; ["b"]])
  = (TaskSystem.mkState 1 [["a"]; ["b"]], TaskSystem.RunByCaller).
Proof.
  apply (add_or_run_runs_when_full
           (TaskSystem.mkEnv false (λ _, false) (λ _, true))
           (TaskSystem.mkSettings 2 0 1) "task"
           (TaskSystem.mkState 0 [["a"]; ["b"]])).
  - reflexivity.
  - simpl. lia.
  - reflexivity.
  - reflexivity.
  - repeat constructor.
Defined.

(** Three workers, the counter at [2]: three tasks go to the queues
    [2], [0] and [1]. *)
Lemma add_all_round_robin_witness :
  TaskSystem.qs
    (add_all (TaskSystem.mkEnv false (λ _, false) (λ _, true))
       (TaskSystem.mkSettings 3 4 32) ["x"; "y"; "z"]
       (TaskSystem.mkState 2 [["a"]; []; ["c"]])) !! 2%nat
  = Some ["c"; "x"].
Proof.
  pose (env0 := TaskSystem.mkEnv false (λ _, false) (λ _, true)).
  pose proof (add_all_round_robin env0 (TaskSystem.mkSettings 3 4 32) ["x"; "y"; "z"]
                (TaskSystem.mkState 2 [["a"]; []; ["c"]]) eq_refl
                ltac:(simpl; lia) eq_refl eq_refl eq_refl ltac:(simpl; lia))
    as (_ & _ & Hslots & _).
  exact (Hslots 0%nat "x" ["c"] eq_refl eq_refl).
Defined.

(** ** rsync_backup: paths that shadow each other *)

Section ShadowedPaths.
Import FileSystem RsyncBackup.

Lemma commonpath_prefix_l (p q : path) : commonpath p q `prefix_of` p.
Proof.
  revert q. induction p as [|a p IH]; intros [|b q]; simpl;
    try apply prefix_nil.
  case_decide; [|apply prefix_nil]. by apply prefix_cons.
Qed.

Lemma commonpath_prefix_r (p q : path) : commonpath p q `prefix_of` q.
Proof.
  revert q. induction p as [|a p IH]; intros [|b q]; simpl;
    try apply prefix_nil.
  case_decide as Hab; [|apply prefix_nil]. subst b. by apply prefix_cons.
Qed.

Lemma commonpath_of_prefix (p q : path) : p `prefix_of` q → commonpath p q = p.
Proof.
  intros [k ->]. induction p as [|a p IH]; simpl; [done|].
  by rewrite decide_True, IH.
Qed.

Lemma commonpath_comm (p q : path) : commonpath p q = commonpath q p.
Proof.
  revert q. induction p as [|a p IH]; intros [|b q]; simpl; try done.
  destruct (decide (a = b)) as [->|Hne].
  - by rewrite decide_True, IH.
  - by rewrite decide_False by (by intros ->).
Qed.

(** The test of the loop: one of the two paths is a prefix of the other. *)
Lemma shadows_iff (p q : path) :
  commonpath p q = p ∨ commonpath p q = q ↔ p `prefix_of` q ∨ q `prefix_of` p.
Proof.
  split.
  - intros [H|H]; [left|right]; rewrite <- H;
      [apply commonpath_prefix_r|apply commonpath_prefix_l].
  - intros [H|H]; [left|right]; [by apply commonpath_of_prefix|].
    rewrite commonpath_comm. by apply commonpath_of_prefix.
Qed.

Lemma shadow_loop_None (first : path) (rest : list path) :
  shadow_loop first rest = None →
  ∀ r, r ∈ rest → ¬ first `prefix_of` r ∧ ¬ r `prefix_of` first.
Proof.
  induction rest as [|r rest IH]; simpl; [by intros _ r ?%elem_of_nil|].
  case_decide as Hshadow; [done|].
  destruct (shadow_loop first rest); [done|]. intros _ x [->|Hx]%elem_of_cons.
  - rewrite shadows_iff in Hshadow. tauto.
  - by apply IH.
Qed.

Lemma shadow_loop_Some (first : path) (rest rest' : list path) :
  shadow_loop first rest = Some rest' →
  ∃ i r, rest !! i = Some r
         ∧ (first `prefix_of` r ∨ r `prefix_of` first)
         ∧ rest' = <[i := commonpath first r]> rest.
Proof.
  revert rest'. induction rest as [|r rest IH]; intros rest'; simpl; [done|].
  case_decide as Hshadow.
  - intros [= <-]. exists 0%nat, r. by rewrite <- shadows_iff.
  - destruct (shadow_loop first rest) as [l|]; [|done]. intros [= <-].
    destruct (IH l eq_refl) as (i & x & Hi & Hx & ->).
    by exists (S i), x.
Qed.

Lemma shadow_loop_of_free (first : path) (rest : list path) :
  (∀ r, r ∈ rest → ¬ first `prefix_of` r ∧ ¬ r `prefix_of` first) →
  shadow_loop first rest = None.
Proof.
  induction rest as [|r rest IH]; intros Hfree; simpl; [done|].
  rewrite decide_False.
  - rewrite IH; [done|]. intros x Hx. apply Hfree. by right.
  - rewrite shadows_iff. destruct (Hfree r); [by left|]. tauto.
Qed.

(** What the function keeps, with fuel for the whole list: paths of the
    list, none shadowing another, and for every path of the list one that
    is a prefix of it. *)
Lemma remove_shadowed_fuel_spec (fuel : nat) :
  ∀ paths, (length paths ≤ fuel)%nat →
    remove_shadowed_fuel fuel paths ⊆ paths
    ∧ shadow_free (remove_shadowed_fuel fuel paths)
    ∧ (∀ p, p ∈ paths →
         ∃ q, q ∈ remove_shadowed_fuel fuel paths ∧ q `prefix_of` p).
Proof.
  induction fuel as [|fuel IH]; intros paths Hlen.
  { destruct paths; [|simpl in Hlen; lia]. simpl.
    split; [done|]. split; [by intros i j p q Hi|by intros p ?%elem_of_nil]. }
  destruct paths as [|first [|r rest]].
  - simpl. split; [done|]. split; [by intros i j p q Hi|by intros p ?%elem_of_nil].
  - simpl. split; [done|]. split.
    + intros [|i] [|j] p q Hi Hj Hij; try done.
    + intros p Hp. by exists p.
  - change (remove_shadowed_fuel (S fuel) (first :: r :: rest))
      with (match shadow_loop first (r :: rest) with
            | Some rest' => remove_shadowed_fuel fuel rest'
            | None => first :: remove_shadowed_fuel fuel (r :: rest)
            end).
    simpl in Hlen.
    destruct (shadow_loop first (r :: rest)) as [rest'|] eqn:Hloop.
    + destruct (shadow_loop_Some _ _ _ Hloop) as (i & x & Hi & Hx & ->).
      destruct (IH (<[i := commonpath first x]> (r :: rest)))
        as (Hsub & Hfree & Hcover); [rewrite length_insert; simpl; lia|].
      assert (commonpath first x = first ∨ commonpath first x = x) as Hcommon
        by (by apply shadows_iff).
      split; [|split; [done|]].
      * intros p [k Hk]%Hsub%list_elem_of_lookup.
        destruct (decide (k = i)) as [->|Hne].
        -- rewrite list_lookup_insert_eq in Hk by (by eapply lookup_lt_Some).
           injection Hk as <-. destruct Hcommon as [-> | ->]; [by left|].
           right. by eapply list_elem_of_lookup_2.
        -- rewrite list_lookup_insert_ne in Hk by done.
           right. by eapply list_elem_of_lookup_2.
      * assert (commonpath first x ∈ <[i := commonpath first x]> (r :: rest))
          as Hin.
        { apply list_elem_of_lookup. exists i.
          by rewrite list_lookup_insert_eq by (by eapply lookup_lt_Some). }
        intros p [->|[k Hk]%list_elem_of_lookup]%elem_of_cons.
        -- destruct (Hcover _ Hin) as (q & Hq & Hqp). exists q. split; [done|].
           etrans; [done|]. apply commonpath_prefix_l.
        -- destruct (decide (k = i)) as [->|Hne].
           ++ assert (Some p = Some x) as [= ->]
                by exact (eq_trans (eq_sym Hk) Hi).
              destruct (Hcover _ Hin) as (q & Hq & Hqp). exists q. split; [done|].
              etrans; [done|]. apply commonpath_prefix_r.
           ++ apply Hcover. apply list_elem_of_lookup. exists k.
              by rewrite list_lookup_insert_ne.
    + pose proof (shadow_loop_None _ _ Hloop) as Hnone.
      destruct (IH (r :: rest)) as (Hsub & Hfree & Hcover); [simpl; lia|].
      split; [|split].
      * intros p [->|Hp]%elem_of_cons; [by left|]. right. by apply Hsub.
      * intros [|i] [|j] p q Hi Hj Hij; try done; simpl in Hi, Hj.
        -- injection Hi as <-. apply list_elem_of_lookup_2, Hsub, Hnone in Hj. tauto.
        -- injection Hj as <-. apply list_elem_of_lookup_2, Hsub, Hnone in Hi. tauto.
        -- apply (Hfree i j); [done..|lia].
      * intros p [->|Hp]%elem_of_cons; [exists first; split; [by left|done]|].
        destruct (Hcover p Hp) as (q & Hq & Hqp). exists q. split; [by right|done].
Qed.

(** [remove_shadowed_paths] returns paths of its argument, none of which
    shadows another (so none twice), and every path of the argument is
    below one the result keeps, or is one of them. *)
Theorem remove_shadowed_paths_spec (paths : list path) :
  remove_shadowed_paths paths ⊆ paths
  ∧ shadow_free (remove_shadowed_paths paths)
  ∧ (∀ p, p ∈ paths → ∃ q, q ∈ remove_shadowed_paths paths ∧ q `prefix_of` p).
Proof. by apply remove_shadowed_fuel_spec. Qed.

(** A list in which no path shadows another is returned as it is. *)
Theorem remove_shadowed_paths_fixed (paths : list path) :
  shadow_free paths → remove_shadowed_paths paths = paths.
Proof.
  unfold remove_shadowed_paths. induction paths as [|first rest IH]; [done|].
  intros Hfree. destruct rest as [|r rest]; [done|].
  change (remove_shadowed_fuel (length (first :: r :: rest)) (first :: r :: rest))
    with (match shadow_loop first (r :: rest) with
          | Some rest' => remove_shadowed_fuel (length (r :: rest)) rest'
          | None => first :: remove_shadowed_fuel (length (r :: rest)) (r :: rest)
          end).
  rewrite shadow_loop_of_free.
  - rewrite IH; [done|]. intros i j p q Hi Hj Hij.
    apply (Hfree (S i) (S j)); [done..|lia].
  - intros x [k Hk]%list_elem_of_lookup. split.
    + apply (Hfree 0%nat (S k)); done.
    + apply (Hfree (S k) 0%nat); done.
Qed.

End ShadowedPaths.

(** The paths [usr] and [etc], neither below the other. *)
Lemma remove_shadowed_paths_fixed_witness :
  RsyncBackup.remove_shadowed_paths [["usr"]; ["etc"]] = [["usr"]; ["etc"]].
Proof.
  apply remove_shadowed_paths_fixed.
  intros [|[|i]] [|[|j]] p q Hi Hj Hij; try done; simpl in Hi, Hj;
    injection Hi as <-; injection Hj as <-; by intros [k Hk].
Defined.

(** ** StageManager: intervals, time stamps and what [rotate] keeps *)

Section StagesMore.
Import StageManager.

(** The stages of a configuration, in its order: each has the name and the
    keep of its entry, and its interval is the base interval times the
    keeps of all the stages before it. *)
Theorem load_stages_intervals (base : Z) (l : list (string * Z)) (i : nat) :
  load_stages base l !! i
  = (λ '(n, k), mkStage n (base * product ((take i l).*2)) k) <$> l !! i.
Proof.
  revert base i. induction l as [|[n k] l IH]; intros base [|i]; try done.
  - simpl. unfold product. simpl. by rewrite Z.mul_1_r.
  - simpl. rewrite IH. destruct (l !! i) as [[n' k']|]; [|done]. simpl.
    unfold product. simpl. by rewrite Z.mul_assoc.
Qed.

(** [TimeStamp.create] with a base interval of zero raises and leaves a
    stamp that cannot be read; with a positive base interval, from time
    zero on, it writes the time rounded down to a multiple of the interval,
    which [read] gives back. *)
Theorem timestamp_create_aligned (now base : Z) (stamps : gmap string stamp)
    (snapshot : string) :
  (base = 0 →
   timestamp_create now base stamps snapshot
   = (<[snapshot := Garbled]> stamps, Raise ZeroDivisionError)
   ∧ read (timestamp_create now base stamps snapshot).1 snapshot = None)
  ∧ (0 < base → 0 ≤ now →
     ∃ t, timestamp_create now base stamps snapshot
          = (<[snapshot := Stamp t]> stamps, Ok ())
          ∧ read (timestamp_create now base stamps snapshot).1 snapshot = Some t
          ∧ (base | t) ∧ t ≤ now < t + base).
Proof.
  unfold timestamp_create, align, int_truediv, read. split.
  - intros ->. rewrite decide_True by done. simpl. by rewrite lookup_insert_eq.
  - intros Hbase Hnow. rewrite decide_False by lia. simpl.
    exists (now ÷ base * base). rewrite lookup_insert_eq.
    split; [done|]. split; [done|]. split; [by exists (now ÷ base)|].
    rewrite Z.quot_div_nonneg by lia.
    pose proof (Z.div_mod now base ltac:(lia)) as Hdiv.
    pose proof (Z.mod_pos_bound now base Hbase). lia.
Qed.

(** A snapshot of the initial stage whose stamp [TimeStamp.create] wrote
    at time [c] is, at every later time [n], given the index
    [(n - t) / interval] of the initial stage, [t] being [c] rounded down
    to a multiple of the interval, as long as that index is below [keep]:
    index [0], its own, until [t + interval]. *)
Theorem created_snapshot_index (c n base : Z) (stages : list Stage) (st : Stage)
    (stamps : gmap string stamp)
    (Hstage : stages !! 0%nat = Some st)
    (Hinterval : interval st = base)
    (Hbase : 0 < base)
    (Hc : 0 ≤ c)
    (Hn : c ÷ base * base ≤ n)
    (Hkeep : (n - c ÷ base * base) ÷ base < keep st) :
  next_after n stages
    (timestamp_create c base stamps (snapshot_name (name st) "0")).1 0 0
  = Ok (Some (snapshot_name (name st) (str ((n - c ÷ base * base) ÷ base)))).
Proof.
  unfold timestamp_create, align, int_truediv. rewrite decide_False by lia.
  simpl. unfold next_after, elapsed, read. rewrite Hstage.
  change (str 0) with "0". rewrite lookup_insert_eq. simpl.
  destruct stages as [|st' stages']; [done|]. injection Hstage as ->.
  rewrite drop_0. simpl. unfold int_truediv. rewrite Hinterval.
  rewrite decide_False by lia. simpl. rewrite decide_True; [done|].
  split; [|done]. apply Z.quot_pos; lia.
Qed.

End StagesMore.

(** At second 7384 with an interval of an hour the stamp is 7200; at
    second 10000 the snapshot is still [hourly.0]. *)
Lemma created_snapshot_index_witness :
  StageManager.next_after 10000 [StageManager.mkStage "hourly" 3600 24]
    (StageManager.timestamp_create 7384 3600 ∅ "hourly.0").1 0 0
  = Ok (Some "hourly.0").
Proof.
  apply (created_snapshot_index 7384 10000 3600
           [StageManager.mkStage "hourly" 3600 24]
           (StageManager.mkStage "hourly" 3600 24) ∅).
  - reflexivity.
  - reflexivity.
  - lia.
  - lia.
  - vm_compute. discriminate.
  - vm_compute. reflexivity.
Defined.

Lemma timestamp_create_aligned_witness :
  ∃ t, StageManager.timestamp_create 7384 3600 ∅ "hourly.0"
       = (<[ "hourly.0" := StageManager.Stamp t ]> ∅, Ok ())
       ∧ StageManager.read
           (StageManager.timestamp_create 7384 3600 ∅ "hourly.0").1 "hourly.0"
         = Some t
       ∧ (3600 | t) ∧ t ≤ 7384 < t + 3600.
Proof.
  destruct (timestamp_create_aligned 7384 3600 ∅ "hourly.0") as [_ Hpos].
  apply Hpos; lia.
Defined.

(** ** StageManager.rotate: what it keeps, and when it returns *)

Section RotateMore.
Import StageManager.
Context {tree : Type}.
Variable now : Z.
Variable stages : list Stage.

Abbreviation disk := (disk tree).

Lemma carried_refl (d : disk) : carried d d.
Proof. intros x t Hx. by exists x. Qed.

Lemma carried_same (d d' : disk) :
  snapshots d' = snapshots d → stamps d' = stamps d → carried d d'.
Proof. intros Hs Ht x t Hx. exists x. by rewrite <- Hs, Ht. Qed.

Lemma carried_trans (d1 d2 d3 : disk) :
  carried d1 d2 → carried d2 d3 → carried d1 d3.
Proof.
  intros H12 H23 x t Hx. destruct (H23 x t Hx) as (y & Hy & Hxy).
  destruct (H12 y t Hy) as (z & Hz & Hyz). exists z. split; [done|].
  intros Hne. destruct (Hxy Hne) as [Hy' ->]. by destruct (Hyz Hy') as [Hz' ->].
Qed.

Lemma removed_carried (src : string) (d d' : disk) :
  src ≠ dname → removed src d d' → carried d d'.
Proof.
  intros Hsrc (Hgone & Hstamp & Hparked & Hothers & Hstamps) x t Hx.
  destruct (decide (x = dname)) as [->|Hdel].
  { exists src. by rewrite <- Hparked. }
  destruct (decide (x = src)) as [->|Hne]; [by rewrite Hgone in Hx|].
  exists x. rewrite <- Hothers by done. split; [done|]. intros _.
  by rewrite Hstamps.
Qed.

Lemma moved_carried (src tgt : string) (d d' : disk) :
  src ≠ dname → moved src tgt d d' → carried d d'.
Proof.
  intros Hsrc (Htree & Hgone & Hstamp & Hnostamp & Hothers) x t Hx.
  destruct (decide (x = tgt)) as [->|Htgt].
  { exists src. by rewrite <- Htree. }
  destruct (decide (x = src)) as [->|Hne]; [by rewrite Hgone in Hx|].
  destruct (Hothers x Hne Htgt) as [Hsame Hstamps].
  exists x. by rewrite <- Hsame.
Qed.

(** One visit of [rotate]: the snapshot stays, is removed, or is moved. *)
Lemma rotate_snapshot_carried (stage_id : nat) (stage : Stage) (i : Z)
    (d d' : disk) :
  stages !! stage_id = Some stage →
  rotate_snapshot now stages stage_id stage i d = Ok d' → carried d d'.
Proof.
  intros Hstage. unfold rotate_snapshot.
  pose proof (snapshot_name_not_dname (name stage) i) as Hsrc.
  destruct (has d (snapshot_name (name stage) (str i))) eqn:Hhas;
    [|intros [= <-]; apply carried_refl].
  destruct (next_after now stages (stamps d) stage_id i) as [tgt|] eqn:Hnext;
    [|done].
  unfold mbind, result_bind. cbv beta iota.
  destruct tgt as [tgt|].
  - destruct (next_after_name now stages _ _ _ _ _ Hstage Hnext)
      as [(a & j & ->) Hstamp].
    rewrite snapshot_name_truthy. cbv beta iota. simpl negb. cbv iota.
    change (default "" (Some (snapshot_name a (str j))))
      with (snapshot_name a (str j)).
    case_decide as Hne; [|intros [= <-]; apply carried_refl].
    destruct (has d (snapshot_name a (str j))) eqn:Htgt; simpl negb; cbv iota.
    + destruct (rm_log_removed ("- Removing " +:+ snapshot_name (name stage) (str i))
                  1 _ d Hhas Hsrc) as (d1 & -> & Hremoved).
      intros [= <-]. by eapply removed_carried.
    + destruct (mv_log_moved
                  ("- Moving " +:+ snapshot_name (name stage) (str i) +:+ " -> "
                   +:+ snapshot_name a (str j))
                  1 _ _ d Hhas Htgt Hne Hstamp) as (d1 & -> & Hmoved).
      intros [= <-]. by eapply moved_carried.
  - simpl.
    destruct (rm_log_removed ("- Removing " +:+ name stage +:+ "." +:+ str i)
                1 _ d Hhas Hsrc) as (d1 & -> & Hremoved).
    intros [= <-]. by eapply removed_carried.
Qed.

Lemma for_each_carried {A : Type} (l : list A) (body : A → disk → result disk) :
  (∀ x d d', x ∈ l → body x d = Ok d' → carried d d') →
  ∀ d d', for_each l body d = Ok d' → carried d d'.
Proof.
  induction l as [|x l IH]; intros Hbody d d'.
  - intros [= <-]. apply carried_refl.
  - rewrite for_each_cons. destruct (body x d) as [d1|] eqn:Hx; [|done].
    simpl. intros Hrest. apply (carried_trans d d1 d').
    + apply (Hbody x); [left|done].
    + apply IH; [|done]. intros y d2 d3 Hy. apply Hbody. by right.
Qed.

Lemma rotate_events_stage (ev : nat * Stage * option Z) :
  ev ∈ rotate_events stages → stages !! ev.1.1 = Some ev.1.2.
Proof.
  unfold rotate_events.
  intros ([k st] & Hev & Hin%elem_of_reverse%elem_of_lookup_imap)%list_elem_of_bind.
  destruct Hin as (k' & st' & [= -> ->] & Hk).
  unfold stage_events in Hev.
  apply elem_of_cons in Hev as [->|(i & -> & _)%list_elem_of_fmap]; done.
Qed.

(** [rotate] makes no snapshot and alters none: every directory of the
    stages directory after a [rotate] that returns is one of the
    directories before; unless it is [.delete] now it was not [.delete]
    before, and it has the stamp it had before. *)
Theorem rotate_carries (d d' : disk) :
  rotate now stages d = Ok d' → carried d d'.
Proof.
  rewrite rotate_as_events. apply for_each_carried.
  intros [[stage_id stage] [i|]] d1 d2 Hev%rotate_events_stage; simpl in Hev.
  - by apply rotate_snapshot_carried.
  - intros [= <-]. by apply carried_same.
Qed.

Lemma next_after_loop_ok (e : Z) (l : list Stage) :
  Forall (λ s, interval s ≠ 0) l → ∃ r, next_after_loop e l = Ok r.
Proof.
  induction 1 as [|s l Hs _ [r IH]]; [by exists None|]. simpl.
  unfold int_truediv. rewrite decide_False by done. simpl.
  case_decide; eauto.
Qed.

Lemma rotate_snapshot_ok (stage_id : nat) (stage : Stage) (i : Z) (d : disk) :
  Forall (λ s, interval s ≠ 0) stages →
  stages !! stage_id = Some stage →
  ∃ d', rotate_snapshot now stages stage_id stage i d = Ok d'.
Proof.
  intros Hnz Hstage. unfold rotate_snapshot.
  pose proof (snapshot_name_not_dname (name stage) i) as Hsrc.
  destruct (has d (snapshot_name (name stage) (str i))) eqn:Hhas; [|by exists d].
  destruct (next_after now stages (stamps d) stage_id i) as [tgt|] eqn:Hnext.
  2:{ unfold next_after, elapsed in Hnext. rewrite Hstage in Hnext.
      destruct (read _ _); simpl in Hnext; [|done].
      destruct (next_after_loop_ok (now - z) (drop stage_id stages)) as [r Hr];
        [by apply Forall_drop|]. by rewrite Hr in Hnext. }
  unfold mbind, result_bind. cbv beta iota.
  destruct tgt as [tgt|].
  - destruct (next_after_name now stages _ _ _ _ _ Hstage Hnext)
      as [(a & j & ->) Hstamp].
    rewrite snapshot_name_truthy. cbv beta iota. simpl negb. cbv iota.
    change (default "" (Some (snapshot_name a (str j))))
      with (snapshot_name a (str j)).
    case_decide as Hne; [|by exists d].
    destruct (has d (snapshot_name a (str j))) eqn:Htgt; simpl negb; cbv iota.
    + destruct (rm_log_removed ("- Removing " +:+ snapshot_name (name stage) (str i))
                  1 _ d Hhas Hsrc) as (d1 & -> & _). by exists d1.
    + destruct (mv_log_moved
                  ("- Moving " +:+ snapshot_name (name stage) (str i) +:+ " -> "
                   +:+ snapshot_name a (str j))
                  1 _ _ d Hhas Htgt Hne Hstamp) as (d1 & -> & _). by exists d1.
  - simpl.
    destruct (rm_log_removed ("- Removing " +:+ name stage +:+ "." +:+ str i)
                1 _ d Hhas Hsrc) as (d1 & -> & _). by exists d1.
Qed.

Lemma for_each_ok {A : Type} (l : list A) (body : A → disk → result disk) :
  (∀ x d, x ∈ l → ∃ d', body x d = Ok d') →
  ∀ d, ∃ d', for_each l body d = Ok d'.
Proof.
  induction l as [|x l IH]; intros Hbody d; [by exists d|].
  rewrite for_each_cons. destruct (Hbody x d) as [d1 ->]; [left|]. simpl.
  apply IH. intros y d2 Hy. apply Hbody. by right.
Qed.

(** [rotate] returns on every stages directory when no stage has an
    interval of zero: a division by zero is all that makes it raise. *)
Theorem rotate_returns (d : disk) :
  Forall (λ s, interval s ≠ 0) stages → ∃ d', rotate now stages d = Ok d'.
Proof.
  intros Hnz. rewrite rotate_as_events. apply for_each_ok.
  intros [[stage_id stage] [i|]] d1 Hev%rotate_events_stage; simpl in Hev.
  - by apply rotate_snapshot_ok.
  - by eexists.
Qed.

End RotateMore.

(** Two stages, an hour and two hours, two snapshots each; at second 4000
    the snapshot of second 0 moves from [hourly.0] to [hourly.1], whose
    older snapshot is parked in [.delete]. *)
Lemma rotate_carries_witness :
  let stages := [StageManager.mkStage "hourly" 3600 2;
                 StageManager.mkStage "daily" 7200 2] in
  let d := StageManager.mkDisk
             ({[ "hourly.0" := "new"; "hourly.1" := "old" ]} : gmap string string)
             {[ "hourly.0" := StageManager.Stamp 0;
                "hourly.1" := StageManager.Stamp (-20000) ]} [] in
  carried d (match StageManager.rotate 4000 stages d with
             | Ok d' => d'
             | Raise _ => d
             end).
Proof.
  intros stages d. apply (rotate_carries 4000 stages). vm_compute. reflexivity.
Defined.

Lemma rotate_returns_witness :
  ∃ d', StageManager.rotate 4000
          [StageManager.mkStage "hourly" 3600 2; StageManager.mkStage "daily" 7200 2]
          (StageManager.mkDisk
             ({[ "hourly.0" := "new"; "hourly.1" := "old" ]} : gmap string string)
             {[ "hourly.0" := StageManager.Stamp 0 ]} [])
        = Ok d'.
Proof. apply rotate_returns. repeat constructor; simpl; lia. Defined.


(** ** FileSystem.rmtree: the descriptor strategy, and special nodes *)

Section RmtreeMore.
Import FileSystem.

(** With directory descriptors [rmtree] of a directory returns, whatever
    the directory holds, special nodes too, and the directory is gone. *)
Theorem rmtree_fds_removes_all (schedule : list choice) (perm mtime : Z)
    (entries : gmap string node) :
  rmtree false true schedule (Some (Dir perm mtime entries)) = Ok (mkPool None []).
Proof.
  unfold rmtree, remove_fds.
  by rewrite (remove_fds_entry_removes (Dir perm mtime entries)).
Qed.

(** [remove_file] at any path leaves a special node where it is. *)
Lemma special_after_remove_file (p : path) :
  ∀ q root n, lookup_at p root = Some n → is_special (Some n) = true →
              lookup_at p (update_at remove_file q root) = Some n.
Proof.
  induction p as [|a p IH]; intros q root n Hn Hsp.
  - rewrite lookup_at_nil in Hn. subst root.
    destruct n as [kind pm mt dt|]; [|done].
    destruct q as [|b q]; [|done]. simpl. by destruct kind.
  - rewrite lookup_at_cons in Hn.
    destruct root as [[|pm mt es]|]; simpl in Hn;
      try by rewrite lookup_at_None in Hn.
    rewrite lookup_at_cons. destruct q as [|b q]; [done|]. simpl.
    destruct (decide (b = a)) as [->|Hne].
    + rewrite lookup_partial_alter_eq. by apply IH.
    + by rewrite lookup_partial_alter_ne.
Qed.

(** [os.rmdir] at any path, when it does not raise, leaves a special node
    where it is: a directory above the node is not empty. *)
Lemma special_after_rmdir (p : path) :
  ∀ q root root' n, lookup_at p root = Some n → is_special (Some n) = true →
                    remove_empty_dir q root = Ok root' →
                    lookup_at p root' = Some n.
Proof.
  unfold remove_empty_dir.
  induction p as [|a p IH]; intros q root root' n Hn Hsp Hrm.
  - rewrite lookup_at_nil in Hn. subst root.
    destruct n as [kind pm mt dt|]; [|done].
    destruct q as [|b q]; [done|]. simpl in Hrm.
    by rewrite lookup_at_None in Hrm.
  - rewrite lookup_at_cons in Hn.
    destruct root as [[|pm mt es]|]; simpl in Hn;
      try by rewrite lookup_at_None in Hn.
    destruct q as [|b q].
    + rewrite lookup_at_nil in Hrm. case_decide as Hempty; [|done].
      subst es. by rewrite lookup_empty, lookup_at_None in Hn.
    + rewrite lookup_at_cons in Hrm. simpl in Hrm.
      destruct (lookup_at q (es !! b)) as [[|pm' mt' es']|] eqn:Hq; try done.
      case_decide as Hempty; [|done]. injection Hrm as <-.
      rewrite lookup_at_cons. simpl.
      destruct (decide (b = a)) as [->|Hne].
      * rewrite lookup_partial_alter_eq.
        apply (IH q (es !! a) _ n Hn Hsp). rewrite Hq. by rewrite decide_True.
      * by rewrite lookup_partial_alter_ne.
Qed.

Lemma special_after_try_remove_parents (rev_path : list string) :
  ∀ p root n, lookup_at p root = Some n → is_special (Some n) = true →
              lookup_at p (try_remove_parents rev_path root) = Some n.
Proof.
  induction rev_path as [|name up IH]; intros p root n Hn Hsp; simpl.
  - destruct (remove_empty_dir _ root) as [root'|] eqn:Hrm; [|done].
    by eapply special_after_rmdir.
  - destruct (remove_empty_dir _ root) as [root'|] eqn:Hrm; [|done].
    apply IH; [|done]. by eapply special_after_rmdir.
Qed.

Lemma special_after_step (c : choice) (s s' : pool) (p : path) (n : node) :
  lookup_at p (tree s) = Some n → is_special (Some n) = true →
  step c s = Ok s' → lookup_at p (tree s') = Some n.
Proof.
  intros Hn Hsp. unfold step.
  destruct (threads s !! thread c) as [[|i rest]|]; try by intros [= <-].
  destruct i as [q|q|t|t].
  - intros [= <-]. simpl. by apply special_after_remove_file.
  - intros [= <-]. simpl. by apply special_after_try_remove_parents.
  - destruct (inline c); by intros [= <-].
  - destruct (start t (tree s)); [|done]. by intros [= <-].
Qed.

Lemma special_after_run (schedule : list choice) :
  ∀ s s' p n, lookup_at p (tree s) = Some n → is_special (Some n) = true →
              run schedule s = Ok s' → lookup_at p (tree s') = Some n.
Proof.
  unfold run. induction schedule as [|c schedule IH]; intros s s' p n Hn Hsp.
  - by intros [= <-].
  - simpl. destruct (step c s) as [s1|e] eqn:Hstep.
    + apply IH; [|done]. by eapply special_after_step.
    + intros Hraise. exfalso. revert Hraise. clear.
      induction schedule as [|c' schedule IH]; [done|]. exact IH.
Qed.

(** Under the tree strategy and the one that saves memory [rmtree]
    removes no special node: in whatever order the workers take their
    tasks, a special node under the root is where it was whenever [rmtree]
    returns, and so the root is still there. *)
Theorem rmtree_keeps_special (save_memory fd_api_support : bool)
    (schedule : list choice) (root : option node) (s : pool) (p : path) (n : node)
    (Hstrategy : save_memory = true ∨ fd_api_support = false)
    (Hnode : lookup_at p root = Some n)
    (Hspecial : is_special (Some n) = true)
    (Hreturn : rmtree save_memory fd_api_support schedule root = Ok s) :
  lookup_at p (tree s) = Some n ∧ is_Some (tree s).
Proof.
  assert (lookup_at p (tree s) = Some n) as Hkept.
  { unfold rmtree in Hreturn. destruct save_memory.
    - destruct (remove_content_dry root); [|done].
      exact (special_after_run schedule (mkPool root _) s p n Hnode Hspecial
               Hreturn).
    - destruct Hstrategy as [?| ->]; [done|].
      destruct (record_nodes root); [|done].
      exact (special_after_run schedule (mkPool root _) s p n Hnode Hspecial
               Hreturn). }
  split; [done|]. destruct (tree s); [done|]. by rewrite lookup_at_None in Hkept.
Qed.

End RmtreeMore.

(** A directory with a file and a named pipe under the tree strategy, one
    worker running the task to its end: the file goes, the pipe and the
    directory stay, and [rmtree] returns. *)
Lemma rmtree_keeps_special_witness :
  let pipe := FileSystem.File FileSystem.Fifo 420 0 "" in
  let root := Some (FileSystem.Dir 493 0
                      {[ "f" := FileSystem.File FileSystem.Regular 420 0 "x";
                         "pipe" := pipe ]}) in
  let schedule := replicate 4 (FileSystem.mkChoice 0 false) in
  ∃ s, FileSystem.rmtree false false schedule root = Ok s
       ∧ FileSystem.finished s
       ∧ FileSystem.lookup_at ["f"] (FileSystem.tree s) = None
       ∧ FileSystem.lookup_at ["pipe"] (FileSystem.tree s) = Some pipe
       ∧ is_Some (FileSystem.tree s).
Proof.
  intros pipe root schedule.
  destruct (FileSystem.rmtree false false schedule root) as [s|] eqn:Hreturn;
    [|by vm_compute in Hreturn].
  exists s. split; [done|].
  destruct (rmtree_keeps_special false false schedule root s ["pipe"] pipe)
    as [Hpipe Hroot]; [by right|done|done|done|].
  vm_compute in Hreturn. injection Hreturn as <-.
  split; [repeat constructor|]. split; [by vm_compute|]. done.
Defined.

(** ** FileSystem.sync: a second run *)

Section SyncAgain.
Import FileSystem.
Variables umask_perm clock : Z.
Variable link : bool.

Abbreviation level_of := (level_of umask_perm clock link).

(** A loop over the entries of the changes, or of the source, that finds
    under each name what it is to leave there, leaves the directory as it
    is. *)
Lemma fold_entries_id {A : Type}
    (f : string → A → option node → result (option node))
    (m : gmap string A) (tes : gmap string node) :
  (∀ name a, m !! name = Some a → f name a (tes !! name) = Ok (tes !! name)) →
  map_fold (λ name a acc,
              tes ← acc; slot ← f name a (tes !! name);
              Ok (set_entry name slot tes)) (Ok tes) m = Ok tes.
Proof.
  set (P := λ (r : result (gmap string node)) (m' : gmap string A),
              (∀ name a, m' !! name = Some a →
                         f name a (tes !! name) = Ok (tes !! name)) →
              r = Ok tes).
  apply (map_fold_weak_ind P); unfold P; [done|].
  intros i x m' r Hi IH Hall. rewrite IH.
  - simpl. rewrite (Hall i x) by apply lookup_insert_eq. simpl. f_equal.
    apply map_eq. intros name. rewrite set_entry_lookup. by case_decide; subst.
  - intros name a Hname. apply Hall. rewrite lookup_insert_ne; [done|].
    intros ->. by rewrite Hi in Hname.
Qed.

Lemma dry_fold_ok {A : Type} (f : string → A → result unit) (m : gmap string A) :
  (∀ name a, m !! name = Some a → f name a = Ok ()) →
  map_fold (λ name a acc, _ ← acc; f name a) (Ok ()) m = Ok ().
Proof.
  set (P := λ (r : result unit) (m' : gmap string A),
              (∀ name a, m' !! name = Some a → f name a = Ok ()) → r = Ok ()).
  apply (map_fold_weak_ind P); unfold P; [done|].
  intros i x m' r Hi IH Hall. rewrite IH.
  - simpl. apply Hall. apply lookup_insert_eq.
  - intros name a Hname. apply Hall. rewrite lookup_insert_ne; [done|].
    intros ->. by rewrite Hi in Hname.
Qed.

Lemma sync_path_dry_entry_unfold (rel : path) (name : string) (src_node : node)
    (tgt_node : option node) :
  sync_path_dry_entry [] rel name src_node tgt_node
  = let descend : result unit :=
      match src_node with
      | Dir _ _ src_entries =>
          sync_path_dry_loop [] (sync_path_dry_entry []) (rel ++ [name])
            src_entries name tgt_node
      | File _ _ _ _ => Ok ()
      end in
    if is_special (Some src_node) then Ok ()
    else
      match tgt_node with
      | None => descend
      | Some t =>
          if negb (same_types (node_stat src_node) (node_stat t)) then descend
          else if is_dir (Some src_node) then descend
          else Ok ()
      end.
Proof. destruct src_node; cbn -[sync_path_dry_loop]; by rewrite excluded_nil. Qed.

Abbreviation settled := (settled umask_perm clock link).

(** After one level of [sync], the same level again finds nothing to do. *)
Lemma settled_after_level (save_memory : bool) (s : node) :
  match s with
  | File _ _ _ _ => True
  | Dir _ _ src_entries =>
      ∀ rel tgt tgt_entries' rel' tgt_name' perm' mtime',
        level_of save_memory rel src_entries tgt tgt_entries' →
        special_free_entries (entries_of tgt) →
        (save_memory = false → dirs_agree src_entries (entries_of tgt)) →
        settled save_memory rel' src_entries tgt_name' perm' mtime' tgt_entries'
  end.
Proof.
  induction s as [|perm mtime src_entries IH] using node_tree_ind; [done|].
  intros rel tgt tgt_entries' rel' tgt_name' perm' mtime' Hlevel Hfree Hagree.
  pose proof (λ name, level_of_entry _ _ _ _ _ _ _ _ name Hlevel Hfree Hagree)
    as Hname.
  assert (∀ name p mt sub_entries p' mt' sub_entries' before,
            src_entries !! name = Some (Dir p mt sub_entries) →
            (before = child tgt name ∨ before = None) →
            level_of save_memory (rel ++ [name]) sub_entries before sub_entries' →
            settled save_memory (rel' ++ [name]) sub_entries name p' mt'
              sub_entries') as Hsub.
  { intros name p mt sub_entries p' mt' sub_entries' before Hs Hbefore Hl.
    apply (IH name _ Hs _ _ _ _ _ _ _ Hl).
    - by eapply special_free_before.
    - intros Hmode. eapply dirs_agree_before; [done..|]. by apply Hagree. }
  unfold settled. destruct save_memory.
  - (* sync_path, dry and for good *)
    split.
    + unfold sync_path_dry_loop. rewrite dry_fold_ok; [done|].
      intros name s Hs. specialize (Hname name). rewrite Hs in Hname.
      change (child (Some (Dir perm' mtime' tgt_entries')) name)
        with (tgt_entries' !! name).
      rewrite sync_path_dry_entry_unfold. cbv zeta.
      destruct s as [kind p mt data|p mt sub_entries].
      * destruct (is_special (Some (File kind p mt data))); [done|].
        destruct Hname as (t' & -> & Hty & _). by rewrite Hty.
      * destruct Hname
          as (p' & mt' & sub_entries' & before & -> & Hty & _ & Hbefore & Hl).
        change (is_special (Some (Dir p mt sub_entries))) with false.
        cbv iota. rewrite Hty. simpl.
        by destruct (Hsub name _ _ _ p' mt' _ _ Hs Hbefore Hl) as [Hdry _].
    + unfold sync_path_loop. rewrite fold_entries_id.
      * simpl. f_equal. apply map_eq. intros name.
        rewrite removal_loop_lookup. specialize (Hname name).
        destruct (src_entries !! name) as [s|] eqn:Hs.
        -- by rewrite decide_True by eauto.
        -- rewrite decide_False by (by intros []). rewrite Hname.
           by rewrite decide_False by (by intros []).
      * intros name s Hs. specialize (Hname name). rewrite Hs in Hname.
        rewrite sync_path_entry_unfold. cbv zeta.
        destruct s as [kind p mt data|p mt sub_entries].
        -- destruct (is_special (Some (File kind p mt data))); [done|].
           destruct Hname as (t' & -> & Hty & Hmt & [Hperm|[? _]]); [|done].
           rewrite Hty, Hperm. simpl.
           by rewrite decide_False by (by intros []).
        -- destruct Hname
             as (p' & mt' & sub_entries' & before & -> & Hty & Hperm & Hbefore & Hl).
           change (is_special (Some (Dir p mt sub_entries))) with false.
           change (is_dir (Some (Dir p mt sub_entries))) with true.
           cbv iota. rewrite Hty, Hperm. simpl.
           destruct (Hsub name _ _ _ p' mt' _ _ Hs Hbefore Hl) as [_ Hloop].
           by rewrite Hloop.
  - (* record_changes, then apply_changes *)
    assert (∀ name s, src_entries !! name = Some s →
              ∃ e, record_entry [] rel' name s (tgt_entries' !! name) = Ok e
                   ∧ match e with
                     | None => True
                     | Some (change, subchanges) =>
                         apply_entry umask_perm clock
                           (apply_recursive umask_perm clock link) link (Some s)
                           change subchanges (tgt_entries' !! name)
                         = Ok (tgt_entries' !! name)
                     end) as Hbody.
    { intros name s Hs. specialize (Hname name). rewrite Hs in Hname.
      rewrite record_entry_unfold. cbv zeta.
      destruct s as [kind p mt data|p mt sub_entries].
      - destruct (is_special (Some (File kind p mt data))); [by exists None|].
        destruct Hname as (t' & -> & Hty & Hmt & _).
        exists None. split; [|done]. rewrite Hty. simpl.
        by rewrite decide_False by (by intros []).
      - destruct Hname
          as (p' & mt' & sub_entries' & before & -> & Hty & Hperm & Hbefore & Hl).
        destruct (Hsub name _ _ _ p' mt' _ _ Hs Hbefore Hl) as (m2 & Hrec2 & Happ2).
        exists (Some (NoChange, Some (Changes m2))).
        change (is_special (Some (Dir p mt sub_entries))) with false.
        change (is_dir (Some (Dir p mt sub_entries))) with true.
        cbv iota. rewrite Hty, Hperm, Hrec2. split; [done|].
        unfold apply_entry. cbn -[apply_recursive]. case_decide; [done|].
        by rewrite Happ2. }
    destruct (record_loop_dir rel' src_entries tgt_name' perm' mtime' tgt_entries')
      as (m' & Hrec & Hnone).
    { intros name s Hs. destruct (Hbody name s Hs) as (e & He & _). by exists e. }
    exists m'. split; [done|].
    change (apply_recursive umask_perm clock link src_entries (Changes m')
              tgt_entries')
      with (map_fold (λ name (entry : ChangeType * option changes) acc,
                        tes ← acc;
                        slot ← (λ name (entry : ChangeType * option changes) t,
                                  apply_entry umask_perm clock
                                    (apply_recursive umask_perm clock link) link
                                    (src_entries !! name) entry.1 entry.2 t)
                                 name entry (tes !! name);
                        Ok (set_entry name slot tes)) (Ok tgt_entries') m').
    apply fold_entries_id. intros name [change subchanges] Hentry.
    pose proof (record_loop_lookup _ _ _ _ _ name Hrec) as Hlook.
    destruct (src_entries !! name) as [s|] eqn:Hs.
    + destruct (Hbody name s Hs) as (e & He & Hgood). simpl in Hlook.
      rewrite He in Hlook. injection Hlook as ->. by rewrite Hentry in Hgood.
    + specialize (Hname name). rewrite Hs in Hname.
      by rewrite (Hnone name Hs Hname) in Hentry.
Qed.

(** A second [sync] in the same mode changes nothing.  No excludes; the
    target of the first [sync] holds no special node and, in the tree
    mode, its directories agree with the source's in the set-uid, set-gid
    and sticky bits.  When the first [sync] returns, [sync] of the same
    source to the target as it is now returns it as it is. *)
Theorem sync_again_changes_nothing (save_memory : bool)
    (source target target' : gmap string node) :
  sync umask_perm clock [] save_memory link source target = Ok target' →
  special_free_entries target →
  (save_memory = false → dirs_agree source target) →
  sync umask_perm clock [] save_memory link source target' = Ok target'.
Proof.
  intros Hsync%sync_level Hfree Hagree.
  pose proof (settled_after_level save_memory (Dir 0 0 source) _ _ _ [] ""
                umask_perm clock Hsync Hfree Hagree) as Hsettled.
  unfold settled, FileSystem.sync, record_changes in *. destruct save_memory.
  - destruct Hsettled as [-> Hloop]. exact Hloop.
  - destruct Hsettled as (m & -> & Happ). exact Happ.
Qed.

End SyncAgain.

(** The second [sync] of the example trees. *)
Lemma sync_again_changes_nothing_witness :
  FileSystem.sync 493 0 [] false false example_source example_synced
  = Ok example_synced.
Proof.
  apply (sync_again_changes_nothing 493 0 false false example_source example_target).
  - vm_compute. reflexivity.
  - apply (special_free_walk_spec _ 0 0). vm_compute. reflexivity.
  - intros _. apply (dirs_agree_walk_spec _ _ 0 0). vm_compute. reflexivity.
Defined.


(** ** FileSystem.sync: a directory where the target has a file *)

Section SyncDots.
Import FileSystem.
Variables umask_perm clock : Z.
Variable link : bool.

Lemma dir_file_types (s t : node) :
  is_dir (Some s) = true → is_file (Some t) = true →
  same_types (node_stat s) (node_stat t) = false.
Proof.
  intros Hs Ht. destruct (same_types _ _) eqn:Hty; [|done].
  apply same_types_ifmt in Hty.
  destruct s as [|sp sm ses]; [done|]. by destruct t as [[] ? ? ?|].
Qed.

(** The loop over the characters of the target's name does not come to
    its end when one of them is a dot. *)
Lemma chars_loop_dot {M : Type} (g : string → M → M) (rel : path)
    (from_src : result M) (l : list string) (m : M) :
  "." ∈ l →
  foldr (λ name acc,
           m ← acc;
           if decide (name = ".") then
             if excluded [] rel then Ok m else Raise RecursionError
           else Ok (g name m))
        from_src l ≠ Ok m.
Proof.
  revert m. induction l as [|c l IH]; intros m; [by intros ?%elem_of_nil|].
  intros Hin. simpl. destruct (foldr _ from_src l) as [m1|] eqn:Hfold; [|done].
  simpl. case_decide as Hc; [done|].
  apply elem_of_cons in Hin as [Hin|Hin]; [done|]. by destruct (IH m1 Hin).
Qed.

Lemma chars_loop_ok {M : Type} (g : string → M → M) (rel : path)
    (l : list string) (m0 : M) :
  "." ∉ l →
  ∃ m, foldr (λ name acc,
                m ← acc;
                if decide (name = ".") then
                  if excluded [] rel then Ok m else Raise RecursionError
                else Ok (g name m))
             (Ok m0) l = Ok m.
Proof.
  induction l as [|c l IH]; intros Hdot; [by exists m0|].
  destruct IH as [m1 Hm1]; [by intros ?; apply Hdot; right|].
  cbn [foldr]. rewrite Hm1. simpl. rewrite decide_False; [by eexists|].
  intros ->. apply Hdot. by left.
Qed.

Lemma dry_chars_loop_dot (rel : path) (l : list string) :
  "." ∈ l →
  foldr (λ name acc,
           _ ← acc;
           if decide (name = ".") then
             if excluded [] rel then Ok () else Raise RecursionError
           else Ok ())
        (Ok ()) l ≠ Ok ().
Proof.
  induction l as [|c l IH]; [by intros ?%elem_of_nil|].
  intros Hin. simpl. destruct (foldr _ (Ok ()) l) as [[]|] eqn:Hfold; [|done].
  simpl. case_decide as Hc; [done|].
  apply elem_of_cons in Hin as [Hin|Hin]; [done|]. by destruct (IH Hin).
Qed.

Lemma dry_chars_loop_ok (rel : path) (l : list string) :
  "." ∉ l →
  foldr (λ name acc,
           _ ← acc;
           if decide (name = ".") then
             if excluded [] rel then Ok () else Raise RecursionError
           else Ok ())
        (Ok ()) l = Ok ().
Proof.
  induction l as [|c l IH]; intros Hdot; [done|].
  cbn [foldr]. rewrite IH by (by intros ?; apply Hdot; right). simpl.
  rewrite decide_False; [done|]. intros ->. apply Hdot. by left.
Qed.

Lemma dry_fold_lookup {A : Type} (f : string → A → result unit)
    (m : gmap string A) :
  map_fold (λ name a acc, _ ← acc; f name a) (Ok ()) m = Ok () →
  ∀ name a, m !! name = Some a → f name a = Ok ().
Proof.
  set (P := λ (r : result unit) (m' : gmap string A),
              r = Ok () → ∀ name a, m' !! name = Some a → f name a = Ok ()).
  apply (map_fold_weak_ind P); unfold P.
  - intros _ name a. by rewrite lookup_empty.
  - intros i x m' r Hi IH Hstep name a. destruct r as [[]|]; [|done].
    simpl in Hstep. rewrite lookup_insert. case_decide as Hname.
    + intros [= <-]. by subst.
    + by apply IH.
Qed.

(** Where the source has a directory and the target a file or a symbolic
    link of the same name, with a dot in the name, [sync] does not return:
    the discovery takes the characters of the name for entries, [.] among
    them, and with it enters the pair it is working on again, without
    end. *)
Theorem sync_dotted_file_never_returns (save_memory : bool)
    (source target target' : gmap string node) (name : string)
    (perm mtime : Z) (src_entries : gmap string node) (t : node) :
  source !! name = Some (Dir perm mtime src_entries) →
  target !! name = Some t →
  is_file (Some t) = true →
  "." ∈ chars name →
  sync umask_perm clock [] save_memory link source target ≠ Ok target'.
Proof.
  intros Hs Ht Hfile Hdot Hsync.
  pose proof (dir_file_types (Dir perm mtime src_entries) t eq_refl Hfile) as Hty.
  assert (is_dir (Some t) = false) as Hdir by (by destruct t as [[] ? ? ?|]).
  unfold sync in Hsync. destruct save_memory.
  - destruct (sync_path_dry_loop _ _ _ _ _ _) as [[]|] eqn:Hdry; [|done].
    unfold sync_path_dry_loop in Hdry.
    destruct (map_fold _ (Ok ()) source) as [[]|] eqn:Hfold; [|done].
    pose proof (dry_fold_lookup
                  (λ name s, sync_path_dry_entry [] [] name s
                               (child (Some (Dir umask_perm clock target)) name))
                  source Hfold name _ Hs) as Hname.
    cbv beta in Hname.
    change (child (Some (Dir umask_perm clock target)) name)
      with (target !! name) in Hname.
    rewrite Ht, sync_path_dry_entry_unfold in Hname.
    cbv zeta in Hname.
    change (is_special (Some (Dir perm mtime src_entries))) with false in Hname.
    rewrite Hty in Hname. simpl negb in Hname. cbv iota in Hname.
    unfold sync_path_dry_loop in Hname.
    destruct (map_fold _ (Ok ()) src_entries) as [[]|]; [|done].
    rewrite Hfile in Hname.
    exact (dry_chars_loop_dot ([] ++ [name]) (chars name) Hdot Hname).
  - destruct (record_changes _ _ _ source target) as [[m]|] eqn:Hrec; [|done].
    unfold record_changes in Hrec.
    pose proof (record_loop_lookup _ _ _ _ _ name Hrec) as Hname.
    rewrite Hs in Hname.
    change (child (Some (Dir umask_perm clock target)) name)
      with (target !! name) in Hname.
    rewrite Ht, record_entry_unfold in Hname.
    cbv zeta in Hname.
    change (is_special (Some (Dir perm mtime src_entries))) with false in Hname.
    rewrite Hty in Hname. simpl negb in Hname. cbv iota in Hname.
    destruct (record_loop [] (record_entry []) ([] ++ [name]) src_entries name
                (Some t)) as [sub|] eqn:Hsub; [|done].
    unfold record_loop in Hsub. rewrite Hdir, Hfile in Hsub.
    destruct (foldr _ _ (chars name)) as [m1|] eqn:Hchars; [|done].
    by apply chars_loop_dot in Hchars.
Qed.

End SyncDots.

(** ** FileSystem.sync: when it returns *)

Section SyncReturns.
Import FileSystem.
Variables umask_perm clock : Z.
Variable link : bool.

Lemma dot_clash_free_child (src_entries sub_entries : gmap string node)
    (perm mtime : Z) (tgt : option node) (name : string) :
  src_entries !! name = Some (Dir perm mtime sub_entries) →
  dot_clash_free src_entries (entries_of tgt) →
  dot_clash_free sub_entries (entries_of (child tgt name))
  ∧ (is_file (child tgt name) = true → "." ∉ chars name).
Proof.
  intros Hname Hfree. split.
  - intros p n s t Hs Ht. apply (Hfree (name :: p) n).
    + simpl. rewrite Hname, at_path_dir; [done|]. by destruct p.
    + rewrite <- app_comm_cons, <- at_path_child; [done|]. by destruct p.
  - intros Hfile. destruct (child tgt name) as [t|] eqn:Ht; [|done].
    apply (Hfree [] name (Dir perm mtime sub_entries) t); simpl; try done.
    by rewrite entries_of_lookup.
Qed.

(** The discovery of the tree mode returns. *)
Lemma record_returns (s : node) :
  match s with
  | File _ _ _ _ => True
  | Dir _ _ src_entries =>
      ∀ rel tgt_name tgt,
        dot_clash_free src_entries (entries_of tgt) →
        (is_file tgt = true → "." ∉ chars tgt_name) →
        ∃ m, record_loop [] (record_entry []) rel src_entries tgt_name tgt
             = Ok (Changes m)
  end.
Proof.
  induction s as [|perm mtime src_entries IH] using node_tree_ind; [done|].
  intros rel tgt_name tgt Hclash Hdot.
  assert (∀ name s, src_entries !! name = Some s →
            ∃ e, record_entry [] rel name s (child tgt name) = Ok e) as Hbody.
  { intros name s Hs. rewrite record_entry_unfold. cbv zeta.
    destruct s as [kind p mt data|p mt sub_entries].
    - destruct (is_special _); [by eexists|].
      destruct (child tgt name) as [t|]; [|by eexists].
      destruct (negb _); [by eexists|]. simpl. case_decide; by eexists.
    - destruct (dot_clash_free_child _ _ _ _ _ _ Hs Hclash) as [Hsub Hfile].
      destruct (IH name _ Hs (rel ++ [name]) name (child tgt name) Hsub Hfile)
        as [m2 ->].
      change (is_special (Some (Dir p mt sub_entries))) with false. cbv iota.
      destruct (child tgt name) as [t|]; [|by eexists].
      destruct (negb _); by eexists. }
  destruct (fold_collect_ok
              (λ name s, record_entry [] rel name s (child tgt name))
              src_entries Hbody) as (m0 & Hsrc).
  unfold record_loop. rewrite Hsrc.
  destruct (is_dir tgt); [by eexists|].
  destruct (is_file tgt) eqn:Hfile; [|by eexists].
  destruct (chars_loop_ok
              (λ name m,
                 if decide (is_Some (src_entries !! name)) then m
                 else if excluded [] (rel ++ [name]) then m
                 else <[name := (RemoveNode, None)]> m)
              rel (chars tgt_name) m0 (Hdot eq_refl)) as [m1 Hm1].
  rewrite Hm1. by eexists.
Qed.

(** The traversal of the tree mode that writes returns, on what the
    discovery recorded. *)
Lemma apply_returns (s : node) :
  match s with
  | File _ _ _ _ => True
  | Dir _ _ src_entries =>
      ∀ rel tgt_name tgt m,
        record_loop [] (record_entry []) rel src_entries tgt_name tgt
        = Ok (Changes m) →
        special_free_entries (entries_of tgt) →
        dirs_agree src_entries (entries_of tgt) →
        ∃ tgt_entries',
          apply_recursive umask_perm clock link src_entries (Changes m)
            (entries_of tgt) = Ok tgt_entries'
  end.
Proof.
  induction s as [|perm mtime src_entries IH] using node_tree_ind; [done|].
  intros rel tgt_name tgt m Hrec Hfree Hagree.
  apply (fold_entries_ok
           (λ name (entry : ChangeType * option changes) t,
              apply_entry umask_perm clock (apply_recursive umask_perm clock link)
                link (src_entries !! name) entry.1 entry.2 t)).
  intros name [change subchanges] Hentry. rewrite entries_of_lookup.
  cbn [fst snd].
  pose proof (record_loop_lookup _ _ _ _ _ name Hrec) as HR.
  rewrite Hentry in HR.
  assert (∀ t, child tgt name = Some t → is_special (Some t) = false) as Hns.
  { intros t Ht. apply (Hfree [name]). simpl. by rewrite entries_of_lookup. }
  destruct (src_entries !! name) as [s|] eqn:Hs.
  2:{ destruct HR as [_ [HR|HR]]; [done|]. injection HR as -> ->. by eexists. }
  rewrite record_entry_unfold in HR. cbv zeta in HR.
  assert (∀ p mt sub_entries p' mt' m2 before tes,
            s = Dir p mt sub_entries →
            record_loop [] (record_entry []) (rel ++ [name]) sub_entries name
              before = Ok (Changes m2) →
            before = child tgt name ∨ before = None →
            tes = entries_of before →
            ∃ r, (if decide (change_entries (Changes m2) = ∅)
                  then Ok (Some (Dir p' mt' tes))
                  else tgt_entries ← apply_recursive umask_perm clock link
                                        sub_entries (Changes m2) tes;
                       Ok (Some (Dir p' mt' tgt_entries))) = Ok r) as Hdescend.
  { intros p mt sub_entries p' mt' m2 before tes -> Hrec2 Hbefore ->.
    case_decide; [by eexists|].
    destruct (IH name _ Hs _ _ _ _ Hrec2) as [tes' ->].
    - by eapply special_free_before.
    - by eapply dirs_agree_before.
    - by eexists. }
  destruct s as [kind p mt data|p mt sub_entries].
  - destruct (is_special (Some (File kind p mt data))) eqn:Hsp; [done|].
    assert (∀ t, (∀ t', t = Some t' → is_special (Some t') = false) →
                 copy_file link (Some (File kind p mt data)) t
                 = Ok (Some (File kind p mt data))) as Hcopy.
    { intros [t|] Ht; unfold copy_file.
      - rewrite remove_node_plain by eauto. by destruct kind.
      - by destruct kind. }
    assert (change = UpdateNode ∨ change = CreateNode) as Hchange.
    { destruct (child tgt name) as [t|]; [|simpl in HR; injection HR; auto].
      destruct (negb _); [simpl in HR; injection HR; auto|].
      simpl in HR. case_decide; [injection HR; auto|done]. }
    assert (subchanges = None) as ->.
    { destruct (child tgt name) as [t|]; [|simpl in HR; by injection HR].
      destruct (negb _); [simpl in HR; by injection HR|].
      simpl in HR. case_decide; [by injection HR|done]. }
    exists (Some (File kind p mt data)).
    destruct Hchange as [-> | ->]; unfold apply_entry, copy_node; simpl;
      by rewrite Hcopy by done.
  - change (is_special (Some (Dir p mt sub_entries))) with false in HR.
    change (is_dir (Some (Dir p mt sub_entries))) with true in HR.
    destruct (record_loop [] (record_entry []) (rel ++ [name]) sub_entries name
                (child tgt name)) as [[m2]|] eqn:Hrec2;
      [|by destruct (child tgt name) as [t|];
           [destruct (negb (same_types _ (node_stat t)))|]].
    destruct (child tgt name) as [t|] eqn:Ht.
    + destruct (same_types _ (node_stat t)) eqn:Hty; simpl in HR.
      * pose proof (same_types_ifmt _ _ Hty) as Hfmt.
        destruct t as [tk tp tm td|tp tm tes]; [by destruct tk|].
        injection HR as <- <-. unfold apply_entry.
        destruct (same_permissions _ _); simpl.
        -- apply (Hdescend p mt sub_entries _ _ m2 (Some (Dir tp tm tes))); auto.
        -- apply (Hdescend p mt sub_entries _ _ m2 (Some (Dir tp tm tes))); auto.
      * injection HR as <- <-. unfold apply_entry, copy_node. simpl.
        rewrite remove_node_plain by eauto. simpl.
        apply (Hdescend p mt sub_entries _ _ m2 (Some t)); auto.
        destruct t as [tk tp tm td|tp tm tes]; [done|].
        by rewrite (Hagree [name] (Dir p mt sub_entries) (Dir tp tm tes))
          in Hty; simpl; rewrite ?entries_of_lookup.
    + simpl in HR. injection HR as <- <-. unfold apply_entry, copy_node. simpl.
      apply (Hdescend p mt sub_entries _ _ m2 None); auto.
Qed.

(** The discovery of the mode that saves memory returns. *)
Lemma dry_returns (s : node) :
  match s with
  | File _ _ _ _ => True
  | Dir _ _ src_entries =>
      ∀ rel tgt_name tgt,
        dot_clash_free src_entries (entries_of tgt) →
        (is_file tgt = true → "." ∉ chars tgt_name) →
        sync_path_dry_loop [] (sync_path_dry_entry []) rel src_entries tgt_name tgt
        = Ok ()
  end.
Proof.
  induction s as [|perm mtime src_entries IH] using node_tree_ind; [done|].
  intros rel tgt_name tgt Hclash Hdot.
  unfold sync_path_dry_loop. rewrite dry_fold_ok.
  - destruct (is_file tgt) eqn:Hfile; [|done].
    exact (dry_chars_loop_ok rel (chars tgt_name) (Hdot eq_refl)).
  - intros name s Hs. rewrite sync_path_dry_entry_unfold. cbv zeta.
    destruct s as [kind p mt data|p mt sub_entries].
    + destruct (is_special _); [done|].
      destruct (child tgt name) as [t|]; [|done]. by destruct (negb _).
    + destruct (dot_clash_free_child _ _ _ _ _ _ Hs Hclash) as [Hsub Hfile].
      rewrite (IH name _ Hs (rel ++ [name]) name (child tgt name) Hsub Hfile).
      change (is_special (Some (Dir p mt sub_entries))) with false. cbv iota.
      destruct (child tgt name) as [t|]; [|done]. by destruct (negb _).
Qed.

(** [sync_path.recursive] returns on a target without special nodes. *)
Lemma sync_path_returns (s : node) :
  match s with
  | File _ _ _ _ => True
  | Dir _ _ src_entries =>
      ∀ rel tgt,
        special_free_entries (entries_of tgt) →
        ∃ tgt_entries',
          sync_path_loop [] (sync_path_entry umask_perm clock [] link) rel
            src_entries (entries_of tgt) = Ok tgt_entries'
  end.
Proof.
  induction s as [|perm mtime src_entries IH] using node_tree_ind; [done|].
  intros rel tgt Hfree.
  destruct (fold_entries_ok
              (λ name, sync_path_entry umask_perm clock [] link rel name)
              src_entries (entries_of tgt)) as [after Hafter].
  2:{ unfold sync_path_loop. rewrite Hafter. by eexists. }
  intros name s Hs. rewrite entries_of_lookup, sync_path_entry_unfold. cbv zeta.
  assert (∀ t, child tgt name = Some t → is_special (Some t) = false) as Hns.
  { intros t Ht. apply (Hfree [name]). simpl. by rewrite entries_of_lookup. }
  destruct s as [kind p mt data|p mt sub_entries].
  - destruct (is_special (Some (File kind p mt data))) eqn:Hsp; [by eexists|].
    change (is_dir (Some (File kind p mt data))) with false. cbv iota.
    assert (copy_file link (Some (File kind p mt data)) (child tgt name)
            = Ok (Some (File kind p mt data))) as Hcopy.
    { unfold copy_file. destruct (child tgt name) as [t|] eqn:Ht.
      - rewrite remove_node_plain by eauto. by destruct kind.
      - by destruct kind. }
    rewrite Hcopy. destruct (child tgt name) as [t|]; [|by eexists].
    destruct (negb (same_types _ _)); [by eexists|].
    case_decide; [by eexists|].
    destruct (negb (same_permissions _ _)); [|by eexists].
    destruct t; by eexists.
  - change (is_special (Some (Dir p mt sub_entries))) with false.
    change (is_dir (Some (Dir p mt sub_entries))) with true. cbv iota.
    assert (∀ before p' mt',
              before = child tgt name ∨ before = None →
              ∃ tes', (tgt_entries ← sync_path_loop []
                                       (sync_path_entry umask_perm clock [] link)
                                       (rel ++ [name]) sub_entries
                                       (entries_of before);
                       Ok (Some (Dir p' mt' tgt_entries)))
                      = Ok (Some (Dir p' mt' tes'))) as Hdescend.
    { intros before p' mt' Hbefore.
      destruct (IH name _ Hs (rel ++ [name]) before) as [tes' ->];
        [by eapply special_free_before|by eexists]. }
    destruct (child tgt name) as [t|] eqn:Ht.
    + destruct (same_types _ (node_stat t)) eqn:Hty; simpl negb; cbv iota.
      * pose proof (same_types_ifmt _ _ Hty) as Hfmt.
        destruct t as [tk tp tm td|tp tm tes]; [by destruct tk|].
        destruct (Hdescend (Some (Dir tp tm tes)) tp tm) as [tes' Htes'];
          [by left|].
        simpl in Htes'. simpl. rewrite Htes'. simpl.
        destruct (negb _); by eexists.
      * rewrite remove_node_plain by eauto. simpl.
        destruct (Hdescend None p mt) as [tes' Htes']; [by right|].
        simpl in Htes'. rewrite Htes'. by eexists.
    + simpl. destruct (Hdescend None p mt) as [tes' Htes']; [by right|].
      simpl in Htes'. rewrite Htes'. by eexists.
Qed.

(** [sync] returns.  No excludes; the target holds no special node; no
    file or symbolic link of the target with a dot in its name stands where
    the source has a directory; and, for the tree mode, where both have a
    directory the two agree in the set-uid, set-gid and sticky bits. *)
Theorem sync_returns (save_memory : bool) (source target : gmap string node) :
  special_free_entries target →
  dot_clash_free source target →
  (save_memory = false → dirs_agree source target) →
  ∃ target', sync umask_perm clock [] save_memory link source target = Ok target'.
Proof.
  intros Hfree Hclash Hagree. unfold sync. destruct save_memory.
  - rewrite (dry_returns (Dir 0 0 source) [] ""
               (Some (Dir umask_perm clock target)) Hclash); [|done].
    apply (sync_path_returns (Dir 0 0 source) []
             (Some (Dir umask_perm clock target)) Hfree).
  - unfold record_changes.
    destruct (record_returns (Dir 0 0 source) [] ""
                (Some (Dir umask_perm clock target)) Hclash) as [m Hrec]; [done|].
    rewrite Hrec.
    apply (apply_returns (Dir 0 0 source) [] ""
             (Some (Dir umask_perm clock target)) m Hrec Hfree (Hagree eq_refl)).
Qed.

Lemma dot_clash_walk_paths (q : path) :
  ∀ name s t n s' t',
    dot_clash_walk name s t = true →
    last (name :: q) = Some n →
    lookup_at q (Some s) = Some s' → lookup_at q t = Some t' →
    is_dir (Some s') = true → is_file (Some t') = true →
    "." ∉ chars n.
Proof.
  induction q as [|k q IH]; intros name s t n s' t' Hwalk Hlast.
  - rewrite !lookup_at_nil. intros [= <-] -> Hs Ht. injection Hlast as <-.
    destruct s as [|sp sm ses]; [done|]. cbn [dot_clash_walk] in Hwalk.
    apply andb_prop in Hwalk as [Hdot _]. rewrite Ht in Hdot.
    by apply bool_decide_eq_true in Hdot.
  - rewrite !lookup_at_cons. intros Hs Ht.
    destruct s as [|sp sm ses]; [by rewrite lookup_at_None in Hs|].
    simpl in Hs. destruct (ses !! k) as [c|] eqn:Hc;
      [|by rewrite lookup_at_None in Hs].
    cbn [dot_clash_walk] in Hwalk. apply andb_prop in Hwalk as [_ Hall].
    apply (IH k c (child t k) n s' t'); [|done..].
    by apply (fold_all_lookup (λ k c, dot_clash_walk k c (child t k)) ses Hall).
Qed.

Lemma dot_clash_walk_spec (source target : gmap string node) (perm mtime : Z) :
  dot_clash_walk "" (Dir perm mtime source) (Some (Dir perm mtime target)) = true →
  dot_clash_free source target.
Proof.
  intros Hwalk p name s t Hs Ht.
  apply (dot_clash_walk_paths (p ++ [name]) _ _ _ name s t Hwalk).
  - by rewrite app_comm_cons, last_snoc.
  - rewrite at_path_dir; [done|]. by destruct p.
  - rewrite at_path_dir; [done|]. by destruct p.
Qed.

End SyncReturns.

(** [sync] of the example trees returns, in the mode that saves memory. *)
Lemma sync_returns_witness :
  ∃ target', FileSystem.sync 493 0 [] true false example_source example_target
             = Ok target'.
Proof.
  apply (sync_returns 493 0 false true example_source example_target).
  - apply (special_free_walk_spec _ 0 0). vm_compute. reflexivity.
  - apply (dot_clash_walk_spec _ _ 0 0). vm_compute. reflexivity.
  - discriminate.
Defined.

(** The directory [conf.d] of the source where the target has a file
    [conf.d]. *)
Lemma sync_dotted_file_never_returns_witness :
  FileSystem.sync 493 0 [] false false
    {[ "conf.d" := FileSystem.Dir 493 0 ∅ ]}
    {[ "conf.d" := FileSystem.File FileSystem.Regular 420 0 "x" ]}
  ≠ Ok {[ "conf.d" := FileSystem.Dir 493 0 ∅ ]}.
Proof.
  apply (sync_dotted_file_never_returns 493 0 false false _ _ _ "conf.d" 493 0 ∅
           (FileSystem.File FileSystem.Regular 420 0 "x")).
  - reflexivity.
  - reflexivity.
  - reflexivity.
  - apply list_elem_of_In. vm_compute. tauto.
Defined.



(** ** FileSystem.sync: what is excluded *)

Section SyncExcludes.
Import FileSystem.
Variables umask_perm clock : Z.
Variable link : bool.
Variable exclude_paths : list path.

Lemma missing_loop_frame (rel : path) (src_entries tes : gmap string node)
    (m0 : gmap string (ChangeType * option changes)) (name : string) :
  is_Some (src_entries !! name) ∨ excluded exclude_paths (rel ++ [name]) = true →
  map_fold (λ name (_ : node) m,
              if decide (is_Some (src_entries !! name)) then m
              else if excluded exclude_paths (rel ++ [name]) then m
              else <[name := (RemoveNode, None)]> m) m0 tes !! name
  = m0 !! name.
Proof.
  intros Hname.
  set (P := λ (r : gmap string (ChangeType * option changes))
              (_ : gmap string node), r !! name = m0 !! name).
  apply (map_fold_weak_ind P); unfold P; [done|].
  intros i x m' r Hi IH. case_decide as Hs; [done|].
  destruct (excluded exclude_paths (rel ++ [i])) eqn:Hex; [done|].
  rewrite lookup_insert_ne; [done|]. intros ->.
  destruct Hname as [?|Hname]; [done|]. by rewrite Hname in Hex.
Qed.

Lemma chars_loop_frame (rel : path) (src_entries : gmap string node)
    (from_src : result (gmap string (ChangeType * option changes)))
    (l : list string) (m : gmap string (ChangeType * option changes))
    (name : string) :
  is_Some (src_entries !! name) ∨ excluded exclude_paths (rel ++ [name]) = true →
  foldr (λ name acc,
           m ← acc;
           if decide (name = ".") then
             if excluded exclude_paths rel then Ok m else Raise RecursionError
           else Ok (if decide (is_Some (src_entries !! name)) then m
                    else if excluded exclude_paths (rel ++ [name]) then m
                    else <[name := (RemoveNode, None)]> m))
        from_src l = Ok m →
  ∃ m0, from_src = Ok m0 ∧ m !! name = m0 !! name.
Proof.
  intros Hname. revert m. induction l as [|c l IH]; intros m; cbn [foldr].
  - intros ->. by exists m.
  - destruct (foldr _ _ l) as [m1|] eqn:Hfold; [|done].
    destruct (IH m1 eq_refl) as (m0 & Hsrc & Hm1). simpl. case_decide.
    + destruct (excluded exclude_paths rel); [|done]. intros [= <-]. by exists m0.
    + intros [= <-]. exists m0. split; [done|]. case_decide as Hs; [done|].
      destruct (excluded exclude_paths (rel ++ [c])) eqn:Hex; [done|].
      rewrite lookup_insert_ne; [done|]. intros ->.
      destruct Hname as [?|Hname]; [done|]. by rewrite Hname in Hex.
Qed.

(** Under a name of the source, or one that is excluded, the changes hold
    what the body of the loop decided for the node of the source, and
    nothing where the source has no node. *)
Lemma record_loop_frame
    (entry : path → string → node → option node
             → result (option (ChangeType * option changes)))
    (rel : path) (src_entries : gmap string node)
    (tgt_name : string) (tgt : option node)
    (m : gmap string (ChangeType * option changes)) (name : string) :
  record_loop exclude_paths entry rel src_entries tgt_name tgt = Ok (Changes m) →
  is_Some (src_entries !! name) ∨ excluded exclude_paths (rel ++ [name]) = true →
  match src_entries !! name with
  | Some src_node => entry rel name src_node (child tgt name) = Ok (m !! name)
  | None => m !! name = None
  end.
Proof.
  unfold record_loop. intros Hrec Hname.
  set (from_src := map_fold _ (Ok ∅) src_entries) in Hrec.
  assert (∀ m0, from_src = Ok m0 →
            match src_entries !! name with
            | Some src_node =>
                entry rel name src_node (child tgt name) = Ok (m0 !! name)
            | None => m0 !! name = None
            end) as Hsrc.
  { intros m0 Hm0.
    exact (fold_collect_lookup
             (λ name src_node, entry rel name src_node (child tgt name))
             src_entries m0 Hm0 name). }
  destruct (is_dir tgt); [|destruct (is_file tgt)].
  - destruct from_src as [m0|]; [|done]. specialize (Hsrc m0 eq_refl).
    injection Hrec as <-. by rewrite missing_loop_frame.
  - destruct (foldr _ _ (chars tgt_name)) as [m1|] eqn:Hchars; [|done].
    injection Hrec as <-.
    destruct (chars_loop_frame _ _ _ _ _ name Hname Hchars) as (m0 & Hm0 & ->).
    by apply Hsrc.
  - destruct from_src as [m0|]; [|done]. injection Hrec as <-. by apply Hsrc.
Qed.

Lemma removal_loop_frame (rel : path) (src_entries after tes : gmap string node)
    (name : string) :
  is_Some (src_entries !! name) ∨ excluded exclude_paths (rel ++ [name]) = true →
  map_fold (λ name (_ : node) entries,
              if decide (is_Some (src_entries !! name)) then entries
              else if excluded exclude_paths (rel ++ [name]) then entries
              else set_entry name (remove_node (entries !! name)) entries)
           after tes !! name
  = after !! name.
Proof.
  intros Hname.
  set (P := λ (r : gmap string node) (_ : gmap string node),
              r !! name = after !! name).
  apply (map_fold_weak_ind P); unfold P; [done|].
  intros i x m' r Hi IH. case_decide as Hs; [done|].
  destruct (excluded exclude_paths (rel ++ [i])) eqn:Hex; [done|].
  rewrite set_entry_lookup. rewrite decide_False; [done|]. intros ->.
  destruct Hname as [?|Hname]; [done|]. by rewrite Hname in Hex.
Qed.

Lemma sync_path_loop_frame
    (entry : path → string → node → option node → result (option node))
    (rel : path) (src_entries tgt_entries tgt_entries' : gmap string node)
    (name : string) :
  sync_path_loop exclude_paths entry rel src_entries tgt_entries
  = Ok tgt_entries' →
  is_Some (src_entries !! name) ∨ excluded exclude_paths (rel ++ [name]) = true →
  match src_entries !! name with
  | Some src_node =>
      entry rel name src_node (tgt_entries !! name) = Ok (tgt_entries' !! name)
  | None => tgt_entries' !! name = tgt_entries !! name
  end.
Proof.
  unfold sync_path_loop. intros Hloop Hname.
  destruct (map_fold _ (Ok tgt_entries) src_entries) as [after|] eqn:Hsrc; [|done].
  injection Hloop as <-. rewrite removal_loop_frame by done.
  exact (fold_entries_lookup (λ name, entry rel name) _ _ _ Hsrc name).
Qed.

Lemma parents_shared_child (src_entries tgt_entries : gmap string node)
    (k : string) (q : path) (sp smt tp tmt : Z) (ses2 tes2 : gmap string node) :
  parents_shared src_entries tgt_entries (k :: q) →
  src_entries !! k = Some (Dir sp smt ses2) →
  tgt_entries !! k = Some (Dir tp tmt tes2) →
  parents_shared ses2 tes2 q.
Proof.
  intros Hshared Hs Ht q1 q2 -> Hq1 Hq2.
  destruct (Hshared (k :: q1) q2 eq_refl) as (s & t & Hs1 & Ht1 & Hrest);
    [done|done|].
  exists s, t. simpl in Hs1, Ht1. rewrite Hs in Hs1. rewrite Ht in Ht1.
  rewrite at_path_dir in Hs1, Ht1 by done. done.
Qed.

Lemma parents_shared_head (src_entries tgt_entries : gmap string node)
    (k k2 : string) (q : path) :
  parents_shared src_entries tgt_entries (k :: k2 :: q) →
  ∃ sp smt ses2 tp tmt tes2,
    src_entries !! k = Some (Dir sp smt ses2)
    ∧ tgt_entries !! k = Some (Dir tp tmt tes2)
    ∧ same_types (node_stat (Dir sp smt ses2)) (node_stat (Dir tp tmt tes2)) = true.
Proof.
  intros Hshared.
  destruct (Hshared [k] (k2 :: q) eq_refl) as (s & t & Hs & Ht & Hsd & Htd & Hty);
    [done|done|].
  destruct s as [|sp smt ses2]; [done|]. destruct t as [|tp tmt tes2]; [done|].
  by exists sp, smt, ses2, tp, tmt, tes2.
Qed.

(** [record_changes] on a directory that faces a directory of the same
    type bits: the directory is kept and the traversal goes on below it. *)
Lemma record_entry_shared_dir (rel : path) (k : string) (sp smt tp tmt : Z)
    (ses2 tes2 : gmap string node) (e : option (ChangeType * option changes)) :
  excluded exclude_paths (rel ++ [k]) = false →
  same_types (node_stat (Dir sp smt ses2)) (node_stat (Dir tp tmt tes2)) = true →
  record_entry exclude_paths rel k (Dir sp smt ses2) (Some (Dir tp tmt tes2)) = Ok e →
  ∃ c m2, e = Some (c, Some (Changes m2))
          ∧ (c = UpdateStat ∨ c = NoChange)
          ∧ record_loop exclude_paths (record_entry exclude_paths) (rel ++ [k])
              ses2 k (Some (Dir tp tmt tes2)) = Ok (Changes m2).
Proof.
  intros Hk Hty. cbn -[record_loop same_types same_permissions node_stat].
  rewrite Hk, Hty. cbn -[record_loop same_types same_permissions node_stat].
  destruct (record_loop _ _ _ _ _ _) as [[m2]|]; [|done].
  cbn -[same_permissions node_stat]. intros [= <-].
  eexists _, m2. split; [done|]. split; [|done].
  destruct (same_permissions _ _); [by right|by left].
Qed.

Lemma record_entry_excluded (rel : path) (k : string) (s : node) (t : option node) :
  excluded exclude_paths (rel ++ [k]) = true →
  record_entry exclude_paths rel k s t = Ok None.
Proof. intros Hk. destruct s; cbn -[record_loop]; by rewrite Hk. Qed.

(** The tree of changes has nothing for an excluded path whose parents
    are directories on both sides, and applying it leaves what the target
    has there. *)
Lemma record_apply_excluded (q : path) :
  ∀ (rel : path) (src_entries : gmap string node) (tgt_name : string)
    (tgt : option node) (m : gmap string (ChangeType * option changes))
    (tgt_entries' : gmap string node),
  record_loop exclude_paths (record_entry exclude_paths) rel src_entries
    tgt_name tgt = Ok (Changes m) →
  apply_recursive umask_perm clock link src_entries (Changes m) (entries_of tgt)
  = Ok tgt_entries' →
  excluded exclude_paths (rel ++ q) = true →
  parents_shared src_entries (entries_of tgt) q →
  at_path tgt_entries' q = at_path (entries_of tgt) q.
Proof.
  induction q as [|k q IH]; intros rel ses tname tgt m tes' Hrec Happ Hex Hshared;
    [done|].
  pose proof (apply_recursive_lookup umask_perm clock link _ _ _ _ k Happ) as Hk'.
  destruct (excluded exclude_paths (rel ++ [k])) eqn:Hk.
  - pose proof (record_loop_frame _ _ _ _ _ _ k Hrec (or_intror Hk)) as Hm.
    assert (m !! k = None) as Hnone.
    { destruct (ses !! k) as [s|]; [|done].
      rewrite record_entry_excluded in Hm by done. by injection Hm. }
    rewrite Hnone in Hk'. simpl. by rewrite Hk'.
  - destruct q as [|k2 q]; [by rewrite Hk in Hex|].
    destruct (parents_shared_head _ _ _ _ _ Hshared)
      as (sp & smt & ses2 & tp & tmt & tes2 & Hs & Ht & Hty).
    pose proof (record_loop_frame _ _ _ _ _ _ k Hrec
                  (or_introl (mk_is_Some _ _ Hs))) as Hm.
    rewrite Hs, <- entries_of_lookup, Ht in Hm.
    destruct (record_entry_shared_dir _ _ _ _ _ _ _ _ _ Hk Hty Hm)
      as (c & m2 & Hmk & Hc & Hrec2).
    rewrite Hmk in Hk'. rewrite Hs, Ht in Hk'.
    assert (∃ p' mt' tes2', tes' !! k = Some (Dir p' mt' tes2')
              ∧ apply_recursive umask_perm clock link ses2 (Changes m2) tes2
                = Ok tes2') as (p' & mt' & tes2' & Hk2 & Happ2).
    { unfold apply_entry in Hk'.
      destruct Hc as [-> | ->]; cbn -[apply_recursive change_entries] in Hk';
        apply apply_descend in Hk' as (tes2' & Heq & Happ2); eauto. }
    change (at_path tes' (k :: k2 :: q)) with (lookup_at (k2 :: q) (tes' !! k)).
    change (at_path (entries_of tgt) (k :: k2 :: q))
      with (lookup_at (k2 :: q) (entries_of tgt !! k)).
    rewrite Hk2, Ht, !at_path_dir by done.
    apply (IH (rel ++ [k]) ses2 k (Some (Dir tp tmt tes2)) m2 tes2' Hrec2 Happ2).
    + by rewrite <- app_assoc.
    + exact (parents_shared_child _ _ _ _ _ _ _ _ _ _ Hshared Hs Ht).
Qed.

(** [sync_path] on a directory that faces a directory of the same type
    bits: the directory is kept and the traversal goes on below it. *)
Lemma sync_path_entry_shared_dir (rel : path) (k : string) (sp smt tp tmt : Z)
    (ses2 tes2 : gmap string node) (r : option node) :
  excluded exclude_paths (rel ++ [k]) = false →
  same_types (node_stat (Dir sp smt ses2)) (node_stat (Dir tp tmt tes2)) = true →
  sync_path_entry umask_perm clock exclude_paths link rel k (Dir sp smt ses2)
    (Some (Dir tp tmt tes2)) = Ok r →
  ∃ p' mt' tes2',
    r = Some (Dir p' mt' tes2')
    ∧ sync_path_loop exclude_paths
        (sync_path_entry umask_perm clock exclude_paths link) (rel ++ [k])
        ses2 tes2 = Ok tes2'.
Proof.
  intros Hk Hty. cbn -[sync_path_loop same_types same_permissions node_stat].
  rewrite Hk, Hty. cbn -[sync_path_loop same_types same_permissions node_stat].
  destruct (sync_path_loop _ _ _ _ _) as [tes2'|]; [|done].
  cbn -[same_permissions node_stat].
  destruct (same_permissions _ _); cbn; intros [= <-]; eauto.
Qed.

Lemma sync_path_entry_excluded (rel : path) (k : string) (s : node)
    (t : option node) :
  excluded exclude_paths (rel ++ [k]) = true →
  sync_path_entry umask_perm clock exclude_paths link rel k s t = Ok t.
Proof. intros Hk. destruct s; cbn -[sync_path_loop]; by rewrite Hk. Qed.

(** [sync_path] leaves what the target has at an excluded path whose
    parents are directories on both sides. *)
Lemma sync_path_excluded (q : path) :
  ∀ (rel : path) (src_entries tgt_entries tgt_entries' : gmap string node),
  sync_path_loop exclude_paths
    (sync_path_entry umask_perm clock exclude_paths link) rel src_entries
    tgt_entries = Ok tgt_entries' →
  excluded exclude_paths (rel ++ q) = true →
  parents_shared src_entries tgt_entries q →
  at_path tgt_entries' q = at_path tgt_entries q.
Proof.
  induction q as [|k q IH]; intros rel ses tes tes' Hloop Hex Hshared; [done|].
  destruct (excluded exclude_paths (rel ++ [k])) eqn:Hk.
  - pose proof (sync_path_loop_frame _ _ _ _ _ k Hloop (or_intror Hk)) as Hm.
    assert (tes' !! k = tes !! k) as Hsame.
    { destruct (ses !! k) as [s|]; [|done].
      rewrite sync_path_entry_excluded in Hm by done. by injection Hm. }
    simpl. by rewrite Hsame.
  - destruct q as [|k2 q]; [by rewrite Hk in Hex|].
    destruct (parents_shared_head _ _ _ _ _ Hshared)
      as (sp & smt & ses2 & tp & tmt & tes2 & Hs & Ht & Hty).
    pose proof (sync_path_loop_frame _ _ _ _ _ k Hloop
                  (or_introl (mk_is_Some _ _ Hs))) as Hm.
    rewrite Hs, Ht in Hm.
    destruct (sync_path_entry_shared_dir _ _ _ _ _ _ _ _ _ Hk Hty Hm)
      as (p' & mt' & tes2' & Hk2 & Hloop2).
    change (at_path tes' (k :: k2 :: q)) with (lookup_at (k2 :: q) (tes' !! k)).
    change (at_path tes (k :: k2 :: q)) with (lookup_at (k2 :: q) (tes !! k)).
    rewrite Hk2, Ht, !at_path_dir by done.
    apply (IH (rel ++ [k]) ses2 tes2 tes2' Hloop2).
    + by rewrite <- app_assoc.
    + exact (parents_shared_child _ _ _ _ _ _ _ _ _ _ Hshared Hs Ht).
Qed.

(** [sync] with [exclude_paths], in either mode: what the target has at an
    excluded path, and with it everything below, is there unchanged after
    the sync, provided that above the path source and target both have
    directories of the same mode bits above the permission bits. *)
Theorem sync_keeps_excluded (save_memory : bool)
    (source target target' : gmap string node) (p : path) :
  sync umask_perm clock exclude_paths save_memory link source target = Ok target' →
  p ∈ exclude_paths →
  parents_shared source target p →
  at_path target' p = at_path target p.
Proof.
  intros Hsync Hp Hshared.
  assert (excluded exclude_paths ([] ++ p) = true) as Hex
    by by apply bool_decide_eq_true.
  unfold sync, record_changes in Hsync. destruct save_memory.
  - destruct (sync_path_dry_loop _ _ _ _ _ _) as [[]|]; [|done].
    exact (sync_path_excluded p [] source target target' Hsync Hex Hshared).
  - destruct (record_loop _ _ _ _ _ _) as [[m]|] eqn:Hrec; [|done].
    exact (record_apply_excluded p [] source ""
             (Some (Dir umask_perm clock target)) m target' Hrec Hsync Hex Hshared).
Qed.

End SyncExcludes.

(** The file [d/g], which only the target has, with [d/g] excluded. *)
Lemma sync_keeps_excluded_witness :
  ∃ target',
    FileSystem.sync 493 0 [["d"; "g"]] false false example_source example_target
    = Ok target'
    ∧ at_path target' ["d"; "g"]
      = Some (FileSystem.File FileSystem.Regular 420 1000000000 "z").
Proof.
  eexists. split; [vm_compute; reflexivity|].
  etransitivity.
  - apply (sync_keeps_excluded 493 0 false [["d"; "g"]] false
             example_source example_target).
    + vm_compute. reflexivity.
    + apply list_elem_of_In. simpl. tauto.
    + intros q1 q2 Hq Hq1 Hq2.
      destruct q1 as [|a [|b q1]]; [done| |].
      * injection Hq as <- <-. eexists _, _.
        split; [vm_compute; reflexivity|]. split; [vm_compute; reflexivity|].
        split; [reflexivity|]. split; [reflexivity|]. vm_compute. reflexivity.
      * injection Hq as <- <- Hnil. symmetry in Hnil.
        apply app_eq_nil in Hnil as [_ ->]. done.
  - vm_compute. reflexivity.
Defined.
